(** * Signia: the medical-term replacement engine and its term repository

    A shallow embedding of

    - the [medical_terms] part of [DatabaseManager.js] (schema, upsert,
      prefix search, most-frequent fetch, frequency increment), and
    - [MedicalTermReplacementService] (cache, derived indices, memory
      monitor, cache refresh, [processText], [addOrUpdateTerm]),

    followed by the properties the specification states about them.

    Conventions of the embedding.

    - A JavaScript string is a [string] whose characters are UTF-16 code
      units below 256 (the Latin-1 range, which covers Spanish medical
      vocabulary); [toLowerCase], [trim] and the SQLite [NOCASE] collation are
      the exact functions on that range.
    - [async]/[await] is sequenced: one call runs to completion.  Interleaving
      with the two interval timers is outside the model.
    - An operation that can throw returns a [Res]; engine methods live in the
      state-and-exception monad [M], where a [Throw] keeps the state as
      mutated up to the throwing statement, as in JavaScript.
    - Logger calls have no effect on the modelled state and are left out.
    - The timestamp columns ([created_at], [updated_at]) are left out. *)

From stdpp Require Import base numbers strings list gmap sorting.
From Stdlib Require Import Ascii.

Open Scope Z_scope.

(* ================================================================== *)
(** * JavaScript values and strings                                    *)
(* ================================================================== *)

(** What a thrown value is, as far as the handlers distinguish: nothing.
    The constructors only document the origin. *)
Inductive error : Type :=
  | DatabaseError            (* sqlite3 error, or "Base de datos no conectada" *)
  | TypeError                (* x.f is not a function, destructuring undefined *)
  | SyntaxError              (* JSON.parse *)
  | OtherError (msg : string).

Inductive Res (A : Type) : Type :=
  | Ok (a : A)
  | Throw (e : error).
Arguments Ok {A} a.
Arguments Throw {A} e.

(** An argument received from a caller, up to what the code observes of it:
    truthiness, and whether it is a primitive string. *)
Inductive jsarg : Type :=
  | JUndefined
  | JNull
  | JString (s : string)
  | JOtherFalsy              (* 0, NaN, false *)
  | JOtherTruthy.            (* a number, true, a plain object or array *)

Definition truthy (v : jsarg) : bool :=
  match v with
  | JString s => negb (String.eqb s EmptyString)
  | JOtherTruthy => true
  | _ => false
  end.

(** [String.prototype.toLowerCase] on code units below 256: A-Z, and
    U+00C0..U+00DE except the multiplication sign U+00D7. *)
Definition lower_unit (c : ascii) : ascii :=
  let n := N_of_ascii c in
  if ((65 <=? n) && (n <=? 90) || (192 <=? n) && (n <=? 222) && negb (n =? 215))%N
  then ascii_of_N (n + 32) else c.

Fixpoint toLowerCase (s : string) : string :=
  match s with
  | EmptyString => EmptyString
  | String c s' => String (lower_unit c) (toLowerCase s')
  end.

(** White space and line terminators below 256: TAB, LF, VT, FF, CR, SP, NBSP. *)
Definition is_js_space (c : ascii) : bool :=
  let n := N_of_ascii c in
  ((9 <=? n) && (n <=? 13) || (n =? 32) || (n =? 160))%N.

Fixpoint trimStart (s : string) : string :=
  match s with
  | EmptyString => EmptyString
  | String c s' => if is_js_space c then trimStart s' else s
  end.

Fixpoint trimEnd (s : string) : string :=
  match s with
  | EmptyString => EmptyString
  | String c s' =>
      let r := trimEnd s' in
      if is_js_space c && String.eqb r EmptyString then EmptyString else String c r
  end.

Definition trim (s : string) : string := trimEnd (trimStart s).

(** [s.charAt(0)]: the first code unit as a string, or the empty string. *)
Definition charAt0 (s : string) : string :=
  match s with
  | EmptyString => EmptyString
  | String c _ => String c EmptyString
  end.

(** [JSON.stringify] of an array of strings. *)
Definition hex_digit (n : N) : ascii :=
  ascii_of_N (if (n <? 10)%N then 48 + n else 87 + n).

Definition dquote : ascii := ascii_of_N 34.
Definition backslash : ascii := ascii_of_N 92.
Definition esc (c : ascii) : string := String backslash (String c EmptyString).

Definition json_escape_unit (c : ascii) : string :=
  let n := N_of_ascii c in
  if (n =? 34)%N then esc dquote
  else if (n =? 92)%N then esc backslash
  else if (n =? 8)%N then esc "b"
  else if (n =? 9)%N then esc "t"
  else if (n =? 10)%N then esc "n"
  else if (n =? 12)%N then esc "f"
  else if (n =? 13)%N then esc "r"
  else if (n <? 32)%N then
    esc "u" +:+ "00" +:+
    String (hex_digit (n / 16)) (String (hex_digit (n mod 16)) EmptyString)
  else String c EmptyString.

Fixpoint json_escape (s : string) : string :=
  match s with
  | EmptyString => EmptyString
  | String c s' => json_escape_unit c +:+ json_escape s'
  end.

Definition json_quote (s : string) : string :=
  String dquote (json_escape s +:+ String dquote EmptyString).

Fixpoint json_join (l : list string) : string :=
  match l with
  | [] => EmptyString
  | [x] => x
  | x :: l' => x +:+ "," +:+ json_join l'
  end.

Definition JSON_stringify (l : list string) : string :=
  "[" +:+ json_join (json_quote <$> l) +:+ "]".

(** The result of [JSON.parse], up to what [_rebuildTermIndices] observes:
    whether it is an array, and for each element whether it is a string and
    whether it is truthy. *)
Inductive jselem : Type :=
  | EString (s : string)
  | ENonString (is_truthy : bool).

Inductive jsvalue : Type :=
  | JArray (elems : list jselem)
  | JNonArray.

(** [JSON.parse] is the runtime's; [None] stands for the [SyntaxError] it
    throws. *)
Class Runtime : Type := { JSON_parse : string → option jsvalue }.

(* ================================================================== *)
(** * DatabaseManager: the [medical_terms] table                       *)
(* ================================================================== *)

(** One row of [medical_terms]; the nullable columns are options. *)
Record Term : Type := mkTerm {
  id : Z;
  heard_term : string;
  correct_term : string;
  specialty : option string;
  modality : option string;
  frequency : option Z;
  variants : option string;
  context_words : option string;
}.

Global Instance Term_eq_dec : EqDecision Term.
Proof. solve_decision. Defined.

(** The manager: [connected] is [this.db !== null]; [last_id] is the
    AUTOINCREMENT counter of the table (its row in [sqlite_sequence]). *)
Record DatabaseManager : Type := mkDb {
  connected : bool;
  medical_terms : list Term;
  last_id : Z;
}.

(** [COLLATE NOCASE]: only the 26 ASCII capitals are folded. *)
Definition nocase_unit (c : ascii) : ascii :=
  let n := N_of_ascii c in
  if ((65 <=? n) && (n <=? 90))%N then ascii_of_N (n + 32) else c.

Fixpoint nocase_fold (s : string) : string :=
  match s with
  | EmptyString => EmptyString
  | String c s' => String (nocase_unit c) (nocase_fold s')
  end.

Definition nocase_eqb (a b : string) : bool :=
  String.eqb (nocase_fold a) (nocase_fold b).

(** SQLite [LIKE]: [%] any run, [_] any one character, letters compared
    without ASCII case. *)
Fixpoint like (p s : string) : bool :=
  match p with
  | EmptyString => String.eqb s EmptyString
  | String c p' =>
      if Ascii.eqb c "%" then
        (fix skip (s : string) : bool :=
           like p' s || match s with
                        | EmptyString => false
                        | String _ s' => skip s'
                        end) s
      else match s with
           | EmptyString => false
           | String d s' =>
               (Ascii.eqb c "_" || Ascii.eqb (nocase_unit c) (nocase_unit d))
               && like p' s'
           end
  end.

(** A stable sort: [insert_by] puts [x] in front of the first element it may
    precede.  [Array.prototype.sort] is stable.  [ORDER BY] leaves rows that
    tie on every key in the order of the scan: table order for the full
    scan of [getMostFrequentTerms].  [findSimilarTerms] is given table order
    among ties as well, where the engine may scan the index on
    [heard_term] instead; nothing stated of it below depends on the order
    among rows that tie on frequency and length. *)
Fixpoint insert_by {A} (before : A → A → bool) (x : A) (l : list A) : list A :=
  match l with
  | [] => [x]
  | y :: l' => if before x y then x :: y :: l' else y :: insert_by before x l'
  end.

Definition stable_sort {A} (before : A → A → bool) (l : list A) : list A :=
  foldr (insert_by before) [] l.

(** [ORDER BY frequency DESC]: NULL sorts below every number. *)
Definition freq_desc (a b : Term) : bool :=
  match frequency a, frequency b with
  | _, None => true
  | None, Some _ => false
  | Some x, Some y => y <=? x
  end.

(** [ORDER BY frequency DESC, length(heard_term) ASC]. *)
Definition freq_desc_len_asc (a b : Term) : bool :=
  match frequency a, frequency b with
  | None, None => (String.length (heard_term a) <=? String.length (heard_term b))%nat
  | _, None => true
  | None, Some _ => false
  | Some x, Some y =>
      (y <? x) || ((y =? x) &&
        (String.length (heard_term a) <=? String.length (heard_term b))%nat)
  end.

(** [run]/[get]/[all] throw when the connection is closed. *)
Definition guarded {A} (db : DatabaseManager) (k : Res A * DatabaseManager)
  : Res A * DatabaseManager :=
  if connected db then k else (Throw DatabaseError, db).

(** The [ON CONFLICT(heard_term) DO UPDATE] arm. *)
Definition on_conflict (excluded r : Term) : Term :=
  {| id := id r;
     heard_term := heard_term r;
     correct_term := correct_term excluded;
     specialty := specialty excluded;
     modality := modality excluded;
     frequency := (λ f, f + 1) <$> frequency r;
     variants := variants excluded;
     context_words := context_words excluded |}.

(** [INSERT ... ON CONFLICT ... RETURNING id] on the rows: the row whose
    [heard_term] collides under NOCASE is updated in place, otherwise the
    excluded row is appended.  Returns the rows and the returned id. *)
Fixpoint upsert (excluded : Term) (rows : list Term) : list Term * Z :=
  match rows with
  | [] => ([excluded], id excluded)
  | r :: rows' =>
      if nocase_eqb (heard_term r) (heard_term excluded)
      then (on_conflict excluded r :: rows', id r)
      else let '(rows'', i) := upsert excluded rows' in (r :: rows'', i)
  end.

(** The statement takes the id for the excluded row from the AUTOINCREMENT
    counter before the conflict on [heard_term] is seen, and the counter
    keeps that value on both arms: every upsert advances it by one, also
    one that only updates a row. *)
Definition addOrUpdateMedicalTerm (heardTerm correctTerm : string)
    (specialty modality : option string) (variants contextWords : list string)
    (db : DatabaseManager) : Res Z * DatabaseManager :=
  let heardTermLower := trim (toLowerCase heardTerm) in
  let variantsJson := JSON_stringify variants in
  let contextJson := JSON_stringify contextWords in
  guarded db
    (let excluded :=
       {| id := last_id db + 1;
          heard_term := heardTermLower;
          correct_term := trim correctTerm;
          specialty := specialty;
          modality := modality;
          frequency := Some 1;
          variants := Some variantsJson;
          context_words := Some contextJson |} in
     let '(rows, i) := upsert excluded (medical_terms db) in
     (Ok i,
      {| connected := connected db;
         medical_terms := rows;
         last_id := last_id db + 1 |})).

Definition findExactTerm (heardTerm : string) (db : DatabaseManager)
  : Res (option Term) * DatabaseManager :=
  guarded db
    (Ok (find (λ r, nocase_eqb (heard_term r) (trim (toLowerCase heardTerm)))
              (medical_terms db)), db).

(** A bound parameter that is a non-empty string: the test [if (specialty)]. *)
Definition requested (p : option string) : bool :=
  match p with
  | Some s => negb (String.eqb s EmptyString)
  | None => false
  end.

(** The conjunct [" AND (col = ? OR col IS NULL)"], present only when the
    parameter is truthy. *)
Definition filter_clause (param col : option string) : bool :=
  if requested param then
    match col with
    | None => true
    | Some c => bool_decide (param = Some c)
    end
  else true.

Definition eligible (t : Term) (specialty' modality' : option string) : bool :=
  filter_clause specialty' (specialty t) && filter_clause modality' (modality t).

Definition findSimilarTerms (heardTerm : string) (specialty' modality' : option string)
    (limit : nat) (db : DatabaseManager) : Res (list Term) * DatabaseManager :=
  let heardTermLower := trim (toLowerCase heardTerm) in
  guarded db
    (Ok (take limit
           (stable_sort freq_desc_len_asc
              (filter (λ t, like (heardTermLower +:+ "%") (heard_term t) = true
                            ∧ eligible t specialty' modality' = true)
                      (medical_terms db)))), db).

Definition getMostFrequentTerms (limit : nat) (db : DatabaseManager)
  : Res (list Term) * DatabaseManager :=
  guarded db (Ok (take limit (stable_sort freq_desc (medical_terms db))), db).

Definition bump (termId : Z) (r : Term) : Term :=
  if decide (id r = termId) then
    {| id := id r; heard_term := heard_term r; correct_term := correct_term r;
       specialty := specialty r; modality := modality r;
       frequency := (λ f, f + 1) <$> frequency r;
       variants := variants r; context_words := context_words r |}
  else r.

Definition incrementTermFrequency (termId : Z) (db : DatabaseManager)
  : Res unit * DatabaseManager :=
  guarded db
    (Ok (),
     {| connected := connected db;
        medical_terms := bump termId <$> medical_terms db;
        last_id := last_id db |}).

(** [row?.frequency ?? 0]. *)
Definition getTermFrequency (termId : Z) (db : DatabaseManager)
  : Res Z * DatabaseManager :=
  guarded db
    (Ok (match find (λ r, bool_decide (id r = termId)) (medical_terms db) with
         | Some r => default 0 (frequency r)
         | None => 0
         end), db).


(* ================================================================== *)
(** * MedicalTermReplacementService: state                             *)
(* ================================================================== *)

(** A replacement record; [textIndices] is [{start, end}] when present. *)
Record Replacement : Type := mkReplacement {
  termId : Z;
  original : string;
  replacement : string;
  textIndices : option (nat * nat);
  originalFullTextOffset : option nat;
}.

Record SentenceResult : Type := mkSentenceResult {
  s_text : string;
  s_replacements : list Replacement;
}.

(** [{ text, replacements }]; [text] may be the caller's value handed back. *)
Record ProcessResult : Type := mkResult {
  text : jsarg;
  replacements : list Replacement;
}.

(** The three derived indices (plain objects used as maps).  A key that
    collides with [Object.prototype] (such as [__proto__]) is outside the
    model. *)
Record Indices : Type := mkIndices {
  termIndexByLength : gmap nat (list Term);
  termIndexByFirstChar : gmap string (list Term);
  frequentTermsCache : gmap string Term;
}.

Definition empty_indices : Indices :=
  {| termIndexByLength := ∅; termIndexByFirstChar := ∅; frequentTermsCache := ∅ |}.

(** [process.memoryUsage()], in bytes. *)
Record MemoryUsage : Type := mkMemory {
  heapUsed : Z;
  heapTotal : Z;
  rss : Z;
}.

(** The service object together with what it reads from its environment:
    the injected [dbManager], [Date.now()] and [process.memoryUsage()].
    [memoryWarningThreshold] is the fraction [fst/snd] (default 4/5). *)
Record Service : Type := mkService {
  dbManager : DatabaseManager;
  cacheLimit : nat;
  cacheUpdateInterval : Z;
  memoryWarningThreshold : nat * nat;
  cachedTerms : list Term;
  cacheLastUpdated : Z;
  hasTriggeredWarning : bool;
  indices : Indices;
  frequencyUpdateBatch : gmap Z nat;
  contextualMemory : list string;
  replacementHistory : list Replacement;
  Date_now : Z;
  memoryUsage : MemoryUsage;
}.

Definition set_dbManager (db : DatabaseManager) (s : Service) : Service :=
  mkService db (cacheLimit s) (cacheUpdateInterval s) (memoryWarningThreshold s)
    (cachedTerms s) (cacheLastUpdated s) (hasTriggeredWarning s) (indices s)
    (frequencyUpdateBatch s) (contextualMemory s) (replacementHistory s)
    (Date_now s) (memoryUsage s).

Definition set_cachedTerms (l : list Term) (s : Service) : Service :=
  mkService (dbManager s) (cacheLimit s) (cacheUpdateInterval s)
    (memoryWarningThreshold s) l (cacheLastUpdated s) (hasTriggeredWarning s)
    (indices s) (frequencyUpdateBatch s) (contextualMemory s)
    (replacementHistory s) (Date_now s) (memoryUsage s).

Definition set_cacheLastUpdated (t : Z) (s : Service) : Service :=
  mkService (dbManager s) (cacheLimit s) (cacheUpdateInterval s)
    (memoryWarningThreshold s) (cachedTerms s) t (hasTriggeredWarning s)
    (indices s) (frequencyUpdateBatch s) (contextualMemory s)
    (replacementHistory s) (Date_now s) (memoryUsage s).

Definition set_hasTriggeredWarning (b : bool) (s : Service) : Service :=
  mkService (dbManager s) (cacheLimit s) (cacheUpdateInterval s)
    (memoryWarningThreshold s) (cachedTerms s) (cacheLastUpdated s) b
    (indices s) (frequencyUpdateBatch s) (contextualMemory s)
    (replacementHistory s) (Date_now s) (memoryUsage s).

Definition set_indices (ix : Indices) (s : Service) : Service :=
  mkService (dbManager s) (cacheLimit s) (cacheUpdateInterval s)
    (memoryWarningThreshold s) (cachedTerms s) (cacheLastUpdated s)
    (hasTriggeredWarning s) ix (frequencyUpdateBatch s) (contextualMemory s)
    (replacementHistory s) (Date_now s) (memoryUsage s).

Definition set_frequencyUpdateBatch (b : gmap Z nat) (s : Service) : Service :=
  mkService (dbManager s) (cacheLimit s) (cacheUpdateInterval s)
    (memoryWarningThreshold s) (cachedTerms s) (cacheLastUpdated s)
    (hasTriggeredWarning s) (indices s) b (contextualMemory s)
    (replacementHistory s) (Date_now s) (memoryUsage s).

(** What the environment may change between two calls: the clock, the
    memory readings and the repository. *)
Definition set_environment (now : Z) (m : MemoryUsage) (db : DatabaseManager)
    (s : Service) : Service :=
  mkService db (cacheLimit s) (cacheUpdateInterval s)
    (memoryWarningThreshold s) (cachedTerms s) (cacheLastUpdated s)
    (hasTriggeredWarning s) (indices s) (frequencyUpdateBatch s)
    (contextualMemory s) (replacementHistory s) now m.

(** The constructor, with its defaults ([options.x || default]). *)
Definition new_Service (db : DatabaseManager) (now : Z) (m : MemoryUsage) : Service :=
  {| dbManager := db;
     cacheLimit := 1000;
     cacheUpdateInterval := 10 * 60 * 1000;
     memoryWarningThreshold := (4, 5)%nat;
     cachedTerms := [];
     cacheLastUpdated := 0;
     hasTriggeredWarning := false;
     indices := empty_indices;
     frequencyUpdateBatch := ∅;
     contextualMemory := [];
     replacementHistory := [];
     Date_now := now;
     memoryUsage := m |}.

(* ================================================================== *)
(** * The state-and-exception monad of the service methods             *)
(* ================================================================== *)

Definition M (A : Type) : Type := Service → Res A * Service.

Definition ret {A} (a : A) : M A := λ s, (Ok a, s).
Definition throw {A} (e : error) : M A := λ s, (Throw e, s).

Definition bind {A B} (c : M A) (k : A → M B) : M B :=
  λ s, match c s with
       | (Ok a, s') => k a s'
       | (Throw e, s') => (Throw e, s')
       end.

(** [try { body } catch (error) { handler }]. *)
Definition try_catch {A} (body : M A) (handler : error → M A) : M A :=
  λ s, match body s with
       | (Ok a, s') => (Ok a, s')
       | (Throw e, s') => handler e s'
       end.

Definition modify (f : Service → Service) : M unit := λ s, (Ok (), f s).

(** A call on [this.dbManager]. *)
Definition on_db {A} (f : DatabaseManager → Res A * DatabaseManager) : M A :=
  λ s, let '(r, db) := f (dbManager s) in (r, set_dbManager db s).

Declare Scope service_scope.
Delimit Scope service_scope with M.
Notation "'let!' x ':=' c 'in' k" := (bind c (λ x, k))
  (at level 10, x name, c at level 100, k at level 200) : service_scope.
Notation "c ;;; k" := (bind c (λ _, k))
  (at level 100, right associativity) : service_scope.
Open Scope service_scope.

(* ================================================================== *)
(** * Methods whose bodies the source elides                           *)
(* ================================================================== *)

(** The class keeps these methods as one-line stubs
    ("implementación igual que antes").  They are parameters here, so every
    statement below holds whatever their bodies are.

    [flush_batch] is [_flushFrequencyBatch] as a function of what the
    Frequency Batcher owns: the pending-increment map and the repository (it
    issues [incrementTermFrequency] calls and clears the map); it may reject.
    A sentence processor or the history recorder may do anything to the
    service, including throw. *)
Class Elided : Type := {
  flush_batch :
    gmap Z nat → DatabaseManager → Res unit * (gmap Z nat * DatabaseManager);
  _splitIntoSentences : string → Res (list string);
  _processSentence : string → option string → option string → M SentenceResult;
  _recordReplacements : list Replacement → M unit;
}.

(** Modelled from the spec: [_processLargeText(text, specialty, modality,
    blockSize)] is elided in the source, and [processText] hands on what it
    returns as it is.  Section 4.3 gives the call its result, "{ text:
    string, replacements: ReplacementRecord[] }", also where it "delegates
    to a block-wise variant that splits into fixed-size chunks ...,
    processes each independently, and concatenates results".  The method is
    typed accordingly: it returns a result object or throws, and may do
    anything to the service. *)
Class ElidedLargeText : Type := {
  _processLargeText : string → option string → option string → nat → M ProcessResult;
}.

Definition _flushFrequencyBatch `{Elided} : M unit :=
  λ s, let '(r, (b, db)) := flush_batch (frequencyUpdateBatch s) (dbManager s) in
       (r, set_frequencyUpdateBatch b (set_dbManager db s)).

(** Modelled from the spec: [clearCache()] is elided in the source; section
    4.1 gives its contract, "empty cache and all indices; does not touch the
    Repository". *)
Definition clearCache : M unit :=
  modify (λ s, set_indices empty_indices (set_cachedTerms [] s)).

(* ================================================================== *)
(** * Cache and indices                                                *)
(* ================================================================== *)

(** [term.frequency || 0]. *)
Definition freq0 (t : Term) : Z := default 0 (frequency t).

(** [term.frequency && term.frequency > 5]. *)
Definition is_frequent (t : Term) : bool := 5 <? freq0 t.

(** [index[key].push(term)], creating the bucket when it is missing. *)
Definition push_bucket `{Countable K} (k : K) (t : Term)
    (m : gmap K (list Term)) : gmap K (list Term) :=
  <[k := default [] (m !! k) ++ [t]]> m.

(** [for (const variant of variants) if (variant)
      this.frequentTermsCache[variant.toLowerCase()] = term]. *)
Fixpoint add_variants (t : Term) (vs : list jselem) (fc : gmap string Term)
  : Res unit * gmap string Term :=
  match vs with
  | [] => (Ok (), fc)
  | EString v :: vs' =>
      if String.eqb v EmptyString then add_variants t vs' fc
      else add_variants t vs' (<[toLowerCase v := t]> fc)
  | ENonString false :: vs' => add_variants t vs' fc
  | ENonString true :: _ => (Throw TypeError, fc)
  end.

(** [typeof term.variants === 'string' ? JSON.parse(term.variants || '[]')
                                       : (term.variants || [])]. *)
Definition parse_variants `{Runtime} (t : Term) : Res jsvalue :=
  match variants t with
  | None => Ok (JArray [])
  | Some v =>
      match JSON_parse (if String.eqb v EmptyString then "[]" else v) with
      | Some j => Ok j
      | None => Throw SyntaxError
      end
  end.

(** One iteration of the loop of [_rebuildTermIndices]. *)
Definition index_term `{Runtime} (t : Term) (ix : Indices) : Res unit * Indices :=
  let heardTermLower := toLowerCase (heard_term t) in
  let termLength := String.length heardTermLower in
  let byLength := push_bucket termLength t (termIndexByLength ix) in
  let firstChar := charAt0 heardTermLower in
  let byFirstChar := push_bucket firstChar t (termIndexByFirstChar ix) in
  if is_frequent t then
    let fc := <[heardTermLower := t]> (frequentTermsCache ix) in
    match parse_variants t with
    | Throw e => (Throw e, mkIndices byLength byFirstChar fc)
    | Ok (JArray vs) =>
        let '(r, fc') := add_variants t vs fc in
        (r, mkIndices byLength byFirstChar fc')
    | Ok JNonArray => (Ok (), mkIndices byLength byFirstChar fc)
    end
  else (Ok (), mkIndices byLength byFirstChar (frequentTermsCache ix)).

Fixpoint index_terms `{Runtime} (ts : list Term) (ix : Indices) : Res unit * Indices :=
  match ts with
  | [] => (Ok (), ix)
  | t :: ts' =>
      match index_term t ix with
      | (Ok _, ix') => index_terms ts' ix'
      | (Throw e, ix') => (Throw e, ix')
      end
  end.

Definition _rebuildTermIndices `{Runtime} : M unit :=
  λ s, let '(r, ix) := index_terms (cachedTerms s) empty_indices in
       (r, set_indices ix s).

(** The comparator [(a, b) => (b.frequency || 0) - (a.frequency || 0)]:
    [a] may stay in front of [b] when the difference is not positive. *)
Definition by_frequency_desc (a b : Term) : bool := freq0 b <=? freq0 a.

Definition _reduceCacheSize `{Runtime} (newLimit : nat) : M unit :=
  λ s, if (length (cachedTerms s) <=? newLimit)%nat then (Ok (), s)
       else
         (modify (set_cachedTerms
                    (take newLimit (stable_sort by_frequency_desc (cachedTerms s))));;;
          _rebuildTermIndices) s.

(** [(heapTotal > 0 ? heapUsed / heapTotal : 0) > 0.85], on the byte counts.
    The quotient is compared exactly; the floating-point test agrees with it
    for heaps below 2^50 bytes. *)
Definition heap_high (m : MemoryUsage) : bool :=
  (0 <? heapTotal m) && (17 * heapTotal m <? 20 * heapUsed m).

(** [Math.round(memoryUsage.rss / 1024 / 1024)]. *)
Definition rssMemoryMB (m : MemoryUsage) : Z := (rss m + 524288) / 1048576.

(** [this._flushFrequencyBatch().catch(e => this.logger.error(...))]. *)
Definition flush_and_forget `{Elided} : M unit :=
  try_catch _flushFrequencyBatch (λ _, ret ()).

Definition _checkMemoryUsage `{Runtime} `{Elided} : M unit :=
  try_catch
    (λ s,
       if heap_high (memoryUsage s)
          && (cacheLimit s <? 2 * length (cachedTerms s))%nat
       then (_reduceCacheSize (cacheLimit s / 2)%nat;;; flush_and_forget) s
       else if 500 <? rssMemoryMB (memoryUsage s)
       then clearCache s          (* then [global.gc()] when exposed: no state *)
       else (Ok (), s))
    (λ _, ret ()).

(** [length >= cacheLimit * memoryWarningThreshold]. *)
Definition near_capacity (s : Service) : bool :=
  (cacheLimit s * fst (memoryWarningThreshold s)
   <=? length (cachedTerms s) * snd (memoryWarningThreshold s))%nat.

Definition update_warning : M unit :=
  modify (λ s,
    if near_capacity s && negb (hasTriggeredWarning s)
    then set_hasTriggeredWarning true s
    else if negb (near_capacity s) then set_hasTriggeredWarning false s
    else s).

(** The early return of [refreshCache]: the cache is non-empty and younger
    than [cacheUpdateInterval]. *)
Definition cache_is_fresh (s : Service) : bool :=
  (0 <? length (cachedTerms s))%nat
  && (Date_now s - cacheLastUpdated s <? cacheUpdateInterval s).

(** The test [!this.dbManager?.getMostFrequentTerms] is left out: the
    constructor refuses a missing manager and [DatabaseManager] has the
    method. *)
Definition refreshCache `{Runtime} `{Elided} : M unit :=
  λ s,
    let now := Date_now s in
    if cache_is_fresh s then (Ok (), s)
    else
      let oldCacheSize := length (cachedTerms s) in
      try_catch
        (_flushFrequencyBatch;;;
         let! newTerms := on_db (getMostFrequentTerms (cacheLimit s)) in
         modify (set_cachedTerms newTerms);;;
         modify (set_cacheLastUpdated now);;;
         _rebuildTermIndices;;;
         update_warning;;;
         _checkMemoryUsage)
        (λ _, if (oldCacheSize =? 0)%nat
              then modify (set_cachedTerms []);;; _rebuildTermIndices
              else ret ())
        s.

(* ================================================================== *)
(** * Public methods                                                   *)
(* ================================================================== *)

(** The [forEach] over a sentence's replacements: spans move by
    [currentOffset], and the offset is recorded. *)
Definition shift_replacement (currentOffset : nat) (rep : Replacement) : Replacement :=
  {| termId := termId rep;
     original := original rep;
     replacement := replacement rep;
     textIndices :=
       (λ '(start, end_), (start + currentOffset, end_ + currentOffset)%nat)
         <$> textIndices rep;
     originalFullTextOffset := Some currentOffset |}.

(** The [for (const sentence of sentences)] loop of [processText], with its
    three accumulators. *)
Fixpoint process_sentences `{Elided} (sentences : list string)
    (specialty' modality' : option string)
    (processedText : string) (allReplacements : list Replacement)
    (currentOffset : nat) : M (string * list Replacement) :=
  match sentences with
  | [] => ret (processedText, allReplacements)
  | sentence :: rest =>
      let! r := _processSentence sentence specialty' modality' in
      process_sentences rest specialty' modality'
        (processedText +:+ s_text r)
        (allReplacements ++ (shift_replacement currentOffset <$> s_replacements r))
        (currentOffset + String.length sentence)%nat
  end.

Definition lift {A} (r : Res A) : M A := λ s, (r, s).

(** The body of the [try] block of [processText].  A value of [text] that is
    truthy but not a string has no [trim]: TypeError.  The deferred flush
    ([setTimeout], 1.5 s) runs after the call has returned. *)
Definition processText_try `{Runtime} `{Elided} `{ElidedLargeText}
    (text' : jsarg) (specialty' modality' : option string) : M ProcessResult :=
  match text' with
  | JOtherTruthy => throw TypeError
  | JString s =>
      if String.eqb s EmptyString || String.eqb (trim s) EmptyString
      then ret {| text := text'; replacements := [] |}
      else
        refreshCache;;;
        if 15000 <? Z.of_nat (String.length s)
        then _processLargeText s specialty' modality' (Z.to_nat 10000)
        else
          let! sentences := lift (_splitIntoSentences s) in
          let! r := process_sentences sentences specialty' modality'
                      EmptyString [] 0%nat in
          _recordReplacements (snd r);;;
          ret {| text := JString (fst r); replacements := snd r |}
  | _ => ret {| text := text'; replacements := [] |}
  end.

Definition processText `{Runtime} `{Elided} `{ElidedLargeText}
    (text' : jsarg) (specialty' modality' : option string) : M ProcessResult :=
  try_catch (processText_try text' specialty' modality')
            (λ _, ret {| text := text'; replacements := [] |}).

(** The [options] argument after destructuring with its defaults. *)
Record TermOptions : Type := mkOptions {
  opt_specialty : option string;
  opt_modality : option string;
  opt_variants : list string;
  opt_contextWords : list string;
}.

Definition default_options : TermOptions := mkOptions None None [] [].

(** [options] is [None] when the caller passes [null], which cannot be
    destructured.  A truthy non-string term has no [toLowerCase]/[trim].
    The test [!this.dbManager?.addOrUpdateMedicalTerm] is left out, as in
    [refreshCache]. *)
Definition addOrUpdateTerm `{Runtime} `{Elided}
    (heardTerm correctTerm : jsarg) (options : option TermOptions) : M (option Z) :=
  if negb (truthy heardTerm) || negb (truthy correctTerm) then ret None
  else
    try_catch
      (match options, heardTerm, correctTerm with
       | Some o, JString h, JString c =>
           let! termId :=
             on_db (addOrUpdateMedicalTerm h c (opt_specialty o) (opt_modality o)
                      (opt_variants o) (opt_contextWords o)) in
           refreshCache;;;
           ret (Some termId)
       | _, _, _ => throw TypeError
       end)
      (λ _, ret None).

(* ================================================================== *)
(** * Block-wise processing, from the specification                    *)
(* ================================================================== *)

(** Fixed-size chunks of [text]; [fuel] bounds the number of chunks. *)
Fixpoint split_blocks (fuel blockSize : nat) (text' : string) : list string :=
  match fuel with
  | O => []
  | S fuel' =>
      match text' with
      | EmptyString => []
      | _ =>
          String.substring 0 blockSize text'
          :: split_blocks fuel' blockSize
               (String.substring blockSize (String.length text' - blockSize) text')
      end
  end.

Definition shift_span (blockOffset : nat) (rep : Replacement) : Replacement :=
  {| termId := termId rep;
     original := original rep;
     replacement := replacement rep;
     textIndices :=
       (λ '(start, end_), (start + blockOffset, end_ + blockOffset)%nat)
         <$> textIndices rep;
     originalFullTextOffset :=
       (λ o, (o + blockOffset)%nat) <$> originalFullTextOffset rep |}.

Fixpoint process_blocks `{Elided} (blocks : list string)
    (specialty' modality' : option string)
    (processedText : string) (allReplacements : list Replacement)
    (blockOffset : nat) : M (string * list Replacement) :=
  match blocks with
  | [] => ret (processedText, allReplacements)
  | block :: rest =>
      let! sentences := lift (_splitIntoSentences block) in
      let! r := process_sentences sentences specialty' modality'
                  EmptyString [] 0%nat in
      process_blocks rest specialty' modality'
        (processedText +:+ fst r)
        (allReplacements ++ (shift_span blockOffset <$> snd r))
        (blockOffset + String.length block)%nat
  end.

(** Modelled from the spec: [_processLargeText] is elided in the source;
    section 4.3 says it "splits into fixed-size chunks (10,000 characters),
    processes each independently, and concatenates results, preserving
    per-block offset accounting".  Each chunk goes through the sentence loop
    of [processText]. *)
Definition processLargeText_spec `{Elided}
    (text' : string) (specialty' modality' : option string) (blockSize : nat)
  : M ProcessResult :=
  let! r := process_blocks (split_blocks (String.length text') blockSize text')
              specialty' modality' EmptyString [] 0%nat in
  _recordReplacements (snd r);;;
  ret {| text := JString (fst r); replacements := snd r |}.

Definition LargeText_spec `{Elided} : ElidedLargeText :=
  {| _processLargeText := processLargeText_spec |}.

(* ================================================================== *)
(** * Reference implementations of the elided parts                    *)
(* ================================================================== *)

(** Modelled from the spec: [_matchesFilters] is elided in the source;
    section 4.2: "a term matches if its specialty is null or equals the
    requested specialty, AND its modality is null or equals the requested
    modality". *)
Definition _matchesFilters (t : Term) (specialty' modality' : option string) : bool :=
  (bool_decide (specialty t = None) || bool_decide (specialty t = specialty'))
  && (bool_decide (modality t = None) || bool_decide (modality t = modality')).

(** Modelled from the spec: [_flushFrequencyBatch] is elided in the source;
    section 4.4: "for every entry in the batch, issue a repository
    increment-by-N (or N sequential increments), then clear the batch", and
    "safe to call with an empty batch (no-op)": with nothing to write the
    repository is not called, whether the connection is open or not. *)
Definition spec_flush_batch (batch : gmap Z nat) (db : DatabaseManager)
  : Res unit * (gmap Z nat * DatabaseManager) :=
  if decide (batch = ∅) then (Ok (), (batch, db))
  else if connected db then
    (Ok (),
     (∅, {| connected := true;
            medical_terms :=
              map_fold (λ termId n rows, Nat.iter n (fmap (bump termId)) rows)
                       (medical_terms db) batch;
            last_id := last_id db |}))
  else (Throw DatabaseError, (batch, db)).

(** Modelled from the spec: [_recordReplacements] is elided in the source;
    section 4.3: replacements are appended to a bounded history, "oldest
    entries drop first" (capacity 100, the default). *)
Definition spec_recordReplacements (reps : list Replacement) : M unit :=
  modify (λ s,
    let h := replacementHistory s ++ reps in
    mkService (dbManager s) (cacheLimit s) (cacheUpdateInterval s)
      (memoryWarningThreshold s) (cachedTerms s) (cacheLastUpdated s)
      (hasTriggeredWarning s) (indices s) (frequencyUpdateBatch s)
      (contextualMemory s) (drop (length h - 100) h)
      (Date_now s) (memoryUsage s)).

(** Modelled from the spec: [_splitIntoSentences] is elided in the source and
    its pattern is not recoverable; section 4.3 asks for a finite
    segmentation of the text.  This one ends a sentence after each full
    stop. *)
Fixpoint sentences_from (current : string) (rest : string) : list string :=
  match rest with
  | EmptyString =>
      match current with EmptyString => [] | _ => [current] end
  | String c rest' =>
      let current' := current +:+ String c EmptyString in
      if Ascii.eqb c "." then current' :: sentences_from EmptyString rest'
      else sentences_from current' rest'
  end.

Definition spec_splitIntoSentences (text' : string) : Res (list string) :=
  Ok (sentences_from EmptyString text').

(** Modelled from the spec: [_processSentence] is elided in the source.  This
    one replaces a cached heard term (section 4.2, case-insensitive, filtered
    by [_matchesFilters]) at the start of the sentence, reports the span of
    the original fragment within the sentence, and counts the use in the
    frequency batch (section 4.4). *)
Definition spec_processSentence (sentence : string)
    (specialty' modality' : option string) : M SentenceResult :=
  λ s,
    match find (λ t, _matchesFilters t specialty' modality'
                      && negb (String.eqb (heard_term t) EmptyString)
                      && String.prefix (toLowerCase (heard_term t))
                                       (toLowerCase sentence))
               (cachedTerms s) with
    | Some t =>
        let n := String.length (heard_term t) in
        (Ok {| s_text :=
                 correct_term t
                 +:+ String.substring n (String.length sentence - n) sentence;
               s_replacements :=
                 [ {| termId := id t;
                      original := String.substring 0 n sentence;
                      replacement := correct_term t;
                      textIndices := Some (0, n)%nat;
                      originalFullTextOffset := None |} ] |},
         set_frequencyUpdateBatch
           (<[id t := S (default 0%nat (frequencyUpdateBatch s !! id t))]>
              (frequencyUpdateBatch s)) s)
    | None => (Ok {| s_text := sentence; s_replacements := [] |}, s)
    end.

Definition Elided_spec : Elided :=
  {| flush_batch := spec_flush_batch;
     _splitIntoSentences := spec_splitIntoSentences;
     _processSentence := spec_processSentence;
     _recordReplacements := spec_recordReplacements |}.

(** [JSON.parse] on the texts [JSON_stringify] writes for escape-free
    strings: an array of plain string literals, with optional blanks.  Any
    other text is reported as a syntax error; the examples below apply it to
    such arrays and to text that is not JSON at all. *)
Fixpoint parse_literal (s : string) : option (string * string) :=
  match s with
  | EmptyString => None
  | String c s' =>
      if Ascii.eqb c dquote then Some (EmptyString, s')
      else if Ascii.eqb c backslash || (N_of_ascii c <? 32)%N then None
      else match parse_literal s' with
           | Some (body, rest) => Some (String c body, rest)
           | None => None
           end
  end.

Fixpoint skip_blanks (s : string) : string :=
  match s with
  | String c s' =>
      let n := N_of_ascii c in
      if ((n =? 32) || (n =? 9) || (n =? 10) || (n =? 13))%N
      then skip_blanks s' else s
  | EmptyString => EmptyString
  end.

Fixpoint parse_items (fuel : nat) (s : string) : option (list jselem * string) :=
  match fuel with
  | O => None
  | S fuel' =>
      match skip_blanks s with
      | String c s1 =>
          if Ascii.eqb c dquote then
            match parse_literal s1 with
            | Some (body, rest) =>
                match skip_blanks rest with
                | String d rest' =>
                    if Ascii.eqb d "," then
                      match parse_items fuel' rest' with
                      | Some (l, r) => Some (EString body :: l, r)
                      | None => None
                      end
                    else if Ascii.eqb d "]" then Some ([EString body], rest')
                    else None
                | EmptyString => None
                end
            | None => None
            end
          else None
      | EmptyString => None
      end
  end.

Definition parse_string_array (s : string) : option jsvalue :=
  match skip_blanks s with
  | String c s1 =>
      if Ascii.eqb c "[" then
        match skip_blanks s1 with
        | String d s2 =>
            if Ascii.eqb d "]" then
              match skip_blanks s2 with
              | EmptyString => Some (JArray [])
              | _ => None
              end
            else
              match parse_items (String.length s1) s1 with
              | Some (l, rest) =>
                  match skip_blanks rest with
                  | EmptyString => Some (JArray l)
                  | _ => None
                  end
              | None => None
              end
        | EmptyString => None
        end
      else None
  | EmptyString => None
  end.

Definition Runtime_arrays : Runtime := {| JSON_parse := parse_string_array |}.

(* ================================================================== *)
(** * Predicates used in the statements                                *)
(* ================================================================== *)

(** The repository states the source can produce: an empty table after
    [_initializeSchema], then any sequence of the two statements that write
    [medical_terms], with the connection opened or closed in between. *)
Inductive reachable : DatabaseManager → Prop :=
  | reach_schema c : reachable (mkDb c [] 0)
  | reach_upsert db h c sp mo vs cw :
      reachable db →
      reachable (snd (addOrUpdateMedicalTerm h c sp mo vs cw db))
  | reach_increment db i :
      reachable db → reachable (snd (incrementTermFrequency i db))
  | reach_connection db c :
      reachable db → reachable (mkDb c (medical_terms db) (last_id db)).

(** [heard_term ... UNIQUE COLLATE NOCASE]. *)
Definition unique_heard (rows : list Term) : Prop :=
  NoDup ((λ r, nocase_fold (heard_term r)) <$> rows).

Definition counted (r : Term) : Prop := ∃ f, frequency r = Some f ∧ 1 ≤ f.

Record table_ok (db : DatabaseManager) : Prop := mkTableOk {
  ok_unique : unique_heard (medical_terms db);
  ok_counted : Forall counted (medical_terms db);
  ok_ids : Forall (λ r, id r ≤ last_id db) (medical_terms db);
}.

(** The row another row turns into when an upsert collides with it. *)
Definition overwritten (r0 : Term) (f : Z) (correctTerm : string)
    (sp mo : option string) (vs cw : list string) : Term :=
  {| id := id r0;
     heard_term := heard_term r0;
     correct_term := trim correctTerm;
     specialty := sp;
     modality := mo;
     frequency := Some (f + 1);
     variants := Some (JSON_stringify vs);
     context_words := Some (JSON_stringify cw) |}.

(** The row an upsert creates. *)
Definition created (i : Z) (heardTerm correctTerm : string)
    (sp mo : option string) (vs cw : list string) : Term :=
  {| id := i;
     heard_term := trim (toLowerCase heardTerm);
     correct_term := trim correctTerm;
     specialty := sp;
     modality := mo;
     frequency := Some 1;
     variants := Some (JSON_stringify vs);
     context_words := Some (JSON_stringify cw) |}.

(** The buckets a term belongs to. *)
Definition length_bucket (ix : Indices) (t : Term) : list Term :=
  default [] (termIndexByLength ix
                !! String.length (toLowerCase (heard_term t))).

Definition first_char_bucket (ix : Indices) (t : Term) : list Term :=
  default [] (termIndexByFirstChar ix !! charAt0 (toLowerCase (heard_term t))).

(** Modelled from the spec: the lookup itself is in the elided
    [_findMatchingTermEfficient]; section 4.2, tier 1: "lower-case the
    fragment, check the frequent-lookup map built by the Cache". *)
Definition exact_lookup (ix : Indices) (fragment : string) : option Term :=
  frequentTermsCache ix !! toLowerCase fragment.

(** Every cached term is in the two buckets of its heard term, and the
    indices hold nothing but cached terms. *)
Record in_sync (s : Service) : Prop := mkInSync {
  sync_length : ∀ t, t ∈ cachedTerms s ↔ t ∈ length_bucket (indices s) t;
  sync_first_char : ∀ t, t ∈ cachedTerms s ↔ t ∈ first_char_bucket (indices s) t;
  sync_length_sound :
    ∀ n l t, termIndexByLength (indices s) !! n = Some l → t ∈ l →
             t ∈ cachedTerms s;
  sync_first_char_sound :
    ∀ c l t, termIndexByFirstChar (indices s) !! c = Some l → t ∈ l →
             t ∈ cachedTerms s;
  sync_frequent_sound :
    ∀ k t, frequentTermsCache (indices s) !! k = Some t →
           t ∈ cachedTerms s ∧ is_frequent t = true;
  sync_frequent_complete :
    ∀ t, t ∈ cachedTerms s → is_frequent t = true →
         is_Some (exact_lookup (indices s) (heard_term t));
}.

(** A record carries a span, and the span names the fragment it replaced. *)
Definition has_span (source : string) (rep : Replacement) : Prop :=
  ∃ start end_,
    textIndices rep = Some (start, end_)
    ∧ (start ≤ end_ ≤ String.length source)%nat
    ∧ String.substring start (end_ - start) source = original rep.

Definition join_strings (l : list string) : string :=
  foldr String.append EmptyString l.

(** Modelled from the spec: [_splitIntoSentences] is elided in the source.
    Section 4.3: the text is split "into sentence units (a lazy, finite,
    restartable segmentation ...)", and section 5: "replacement offsets are
    computed from original (pre-substitution) sentence lengths": the
    sentences are consecutive pieces of the text, taken from its start. *)
Definition segments_text `{Elided} : Prop :=
  ∀ t l, _splitIntoSentences t = Ok l → ∃ tail, join_strings l +:+ tail = t.

(** Modelled from the spec: [_processSentence] is elided in the source.
    Section 3: a ReplacementRecord holds its "source span (start, end
    offsets ...)" and the "original fragment text"; what the sentence
    processor reports is "the per-sentence local offset" (section 4.3): the
    span of the fragment within the sentence. *)
Definition reports_spans `{Elided} : Prop :=
  ∀ sentence sp mo s r s',
    _processSentence sentence sp mo s = (Ok r, s') →
    Forall (has_span sentence) (s_replacements r).

(** A method leaves the component [f] of the service as it was. *)
Definition keeps {A X} (f : Service → X) (c : M A) : Prop :=
  ∀ s, f (snd (c s)) = f s.

(** A method returns normally from every state. *)
Definition never_throws {A} (c : M A) : Prop :=
  ∀ s, ∃ a, fst (c s) = Ok a.

Definition is_ok {A} (r : Res A) : bool :=
  match r with Ok _ => true | Throw _ => false end.

(** The repository fetch of [refreshCache] is reached and answers: the cache
    is not fresh, the preceding flush resolves, and the connection is open. *)
Definition fetch_succeeds `{Elided} (s : Service) : bool :=
  let flushed := flush_batch (frequencyUpdateBatch s) (dbManager s) in
  negb (cache_is_fresh s) && is_ok (fst flushed) && connected (snd (snd flushed)).

(** The statements of [refreshCache] that follow the stamp in its [try]
    block, and its [catch] block. *)
Definition after_stamp `{Runtime} `{Elided} : M unit :=
  _rebuildTermIndices;;; update_warning;;; _checkMemoryUsage.

Definition refresh_handler `{Runtime} (oldCacheSize : nat) : M unit :=
  if (oldCacheSize =? 0)%nat
  then modify (set_cachedTerms []);;; _rebuildTermIndices
  else ret ().


(* ================================================================== *)
(** * Sample data                                                      *)
(* ================================================================== *)

Definition sample_db1 : DatabaseManager :=
  snd (addOrUpdateMedicalTerm "Nodulo" "nodulo" None None ["nodulito"] []
         (mkDb true [] 0)).


Definition term_cardio : Term :=
  {| id := 7; heard_term := "tac"; correct_term := "TAC coronario";
     specialty := Some "cardio"; modality := Some "CT"; frequency := Some 4;
     variants := Some "[]"; context_words := Some "[]" |}.

Definition sample_db_cardio : DatabaseManager := mkDb true [term_cardio] 7.

Definition sample_term (i : Z) (heard correct : string) (f : Z) : Term :=
  {| id := i; heard_term := heard; correct_term := correct;
     specialty := None; modality := None; frequency := Some f;
     variants := Some "[]"; context_words := Some "[]" |}.

(** 50 MB of a 100 MB heap in use, 200 MB resident: no memory pressure. *)
Definition calm_memory : MemoryUsage :=
  mkMemory (50 * 1048576) (100 * 1048576) (200 * 1048576).

(** A service with the constructor's defaults whose cache holds the rows of
    its repository, indexed, stamped at time 1000 and read at time 2000. *)
Definition loaded_service (ts : list Term) : Service :=
  snd (@_rebuildTermIndices Runtime_arrays
         (set_cacheLastUpdated 1000
            (set_cachedTerms ts
               (new_Service (mkDb true ts (Z.of_nat (length ts))) 2000 calm_memory)))).

Definition rare_terms : list Term :=
  [ sample_term 1 "bazo" "bazo" 2;
    sample_term 2 "aorta" "aorta" 3;
    sample_term 3 "colon" "colon" 1 ].

Definition common_terms : list Term :=
  [ sample_term 1 "bazo" "bazo" 8;
    sample_term 2 "aorta" "aorta" 10;
    sample_term 3 "colon" "colon" 6 ].

(** 90 MB of a 100 MB heap in use and 600 MB resident: both thresholds of
    the memory monitor are exceeded. *)
Definition pressured_memory : MemoryUsage :=
  mkMemory (90 * 1048576) (100 * 1048576) (600 * 1048576).

(** A service built with [cacheLimit: 4] holding three terms, with two uses
    of term 1 waiting in the frequency batch, under memory pressure. *)
Definition pressured_service : Service :=
  let s := loaded_service common_terms in
  mkService (dbManager s) 4 (cacheUpdateInterval s) (memoryWarningThreshold s)
    (cachedTerms s) (cacheLastUpdated s) (hasTriggeredWarning s) (indices s)
    {[ 1 := 2%nat ]} (contextualMemory s) (replacementHistory s)
    (Date_now s) pressured_memory.

(** A frequent row whose [variants] text is not JSON, and a sound one. *)
Definition term_malformed : Term :=
  {| id := 1; heard_term := "aorta"; correct_term := "aorta";
     specialty := None; modality := None; frequency := Some 9;
     variants := Some "aorta abdominal, aorta toracica";
     context_words := Some "[]" |}.

Definition term_sound : Term := sample_term 2 "bazo" "bazo" 7.

(** A service whose cache (one term, stamped at 1000) has gone stale at time
    700000, over a repository that now holds the two rows above. *)
Definition stale_service : Service :=
  set_environment 700000 calm_memory (mkDb true [term_malformed; term_sound] 2)
    (loaded_service [sample_term 2 "bazo" "bazo" 6]).

(** An implementation of the elided parts whose sentence processor throws on
    every sentence. *)
Definition Elided_faulty : Elided :=
  {| flush_batch := spec_flush_batch;
     _splitIntoSentences := spec_splitIntoSentences;
     _processSentence := λ _ _ _, throw (OtherError "matcher failure");
     _recordReplacements := spec_recordReplacements |}.

(** The stale service with its repository connection closed. *)
Definition offline_service : Service :=
  set_environment 700000 calm_memory (mkDb false [] 0) stale_service.

Fixpoint repeat_string (n : nat) (s : string) : string :=
  match n with
  | O => EmptyString
  | S n' => s +:+ repeat_string n' s
  end.

(** 1200 sentences, 15,600 characters: above the block threshold. *)
Definition long_text : string := repeat_string 1200 "Aorta normal.".

(* ================================================================== *)
(** * Further predicates of the repository                             *)
(* ================================================================== *)

(** A heard term as [addOrUpdateMedicalTerm] stores it: lower-cased and
    trimmed. *)
Definition normalized (s : string) : Prop := toLowerCase s = s ∧ trim s = s.

(** What the table keeps beyond [table_ok]: ids are positive, pairwise
    different and not beyond the AUTOINCREMENT counter, heard terms are
    stored normalized. *)
Record table_keyed (db : DatabaseManager) : Prop := mkTableKeyed {
  keyed_ids : NoDup (id <$> medical_terms db);
  keyed_positive : Forall (λ r, 0 < id r) (medical_terms db);
  keyed_last : 0 ≤ last_id db;
  keyed_normal : Forall (λ r, normalized (heard_term r)) (medical_terms db);
  keyed_range : Forall (λ r, id r ≤ last_id db) (medical_terms db);
}.

(** The character of a LIKE pattern that stands for itself. *)
Definition plain_unit (c : ascii) : bool :=
  negb (Ascii.eqb c "%") && negb (Ascii.eqb c "_").

Fixpoint plain (s : string) : bool :=
  match s with
  | EmptyString => true
  | String c s' => plain_unit c && plain s'
  end.

(** [a] starts [b], ASCII case aside. *)
Definition nocase_prefix (a b : string) : bool :=
  String.prefix (nocase_fold a) (nocase_fold b).

(** The row that [n] upserts of one new heard term leave behind. *)
Definition counted_row (i : Z) (n : Z) (heardTerm correctTerm : string)
    (sp mo : option string) (vs cw : list string) : Term :=
  {| id := i;
     heard_term := trim (toLowerCase heardTerm);
     correct_term := trim correctTerm;
     specialty := sp;
     modality := mo;
     frequency := Some n;
     variants := Some (JSON_stringify vs);
     context_words := Some (JSON_stringify cw) |}.

(** A table with two terms, one used three times. *)
Definition sample_db2 : DatabaseManager :=
  snd (incrementTermFrequency 1
         (snd (incrementTermFrequency 1
                 (snd (addOrUpdateMedicalTerm "TAC" "TAC" None (Some "CT") [] []
                         sample_db1))))).

(* ================================================================== *)
(** * Further predicates of the engine                                 *)
(* ================================================================== *)

(** The cache holds no more than [cacheLimit] terms. *)
Definition within_limit (s : Service) : Prop :=
  (length (cachedTerms s) ≤ cacheLimit s)%nat.

(** Run from [s], a method leaves the limit as it was and the cache within
    it. *)
Definition keeps_within {A} (s : Service) (c : M A) : Prop :=
  cacheLimit (snd (c s)) = cacheLimit s ∧ within_limit (snd (c s)).

(** A service whose cache (one term, stamped at 1000) has gone stale at time
    700000, over a repository that now holds three frequent terms. *)
Definition restocked_service : Service :=
  set_environment 700000 calm_memory (mkDb true common_terms 3)
    (loaded_service [sample_term 2 "bazo" "bazo" 6]).

(** The keys of the two bucket indices for a term. *)
Definition length_key (t : Term) : nat :=
  String.length (toLowerCase (heard_term t)).

Definition first_char_key (t : Term) : string :=
  charAt0 (toLowerCase (heard_term t)).

(** The keys that the loop over [variants] writes: the non-empty strings,
    lower-cased. *)
Definition variant_keys (vs : list jselem) : list string :=
  omap (λ e, match e with
             | EString v =>
                 if String.eqb v EmptyString then None else Some (toLowerCase v)
             | ENonString _ => None
             end) vs.

(** The keys under which one iteration of [_rebuildTermIndices] files a
    term in [frequentTermsCache]: none for a term that is not frequent,
    else its heard term and its variants. *)
Definition frequent_keys `{Runtime} (t : Term) : list string :=
  if is_frequent t then
    toLowerCase (heard_term t)
    :: match parse_variants t with
       | Ok (JArray vs) => variant_keys vs
       | _ => []
       end
  else [].

(** The bucket that a completed pass over [ts] leaves under key [k]: the
    terms with that key in cache order, and no bucket when there is none. *)
Definition bucket_of {K} `{EqDecision K} (key : Term → K) (k : K)
    (ts : list Term) : option (list Term) :=
  let l := filter (λ t, key t = k) ts in
  if decide (l = []) then None else Some l.

(** A frequent term, and a less frequent one that lists the heard term of
    the first among its variants; a cache ordered by frequency holds them in
    this order. *)
Definition term_aorta : Term := sample_term 1 "aorta" "aorta" 10.

Definition term_alias : Term :=
  {| id := 2; heard_term := "arteria aorta"; correct_term := "arteria aorta";
     specialty := None; modality := None; frequency := Some 7;
     variants := Some (JSON_stringify ["Aorta"]);
     context_words := Some "[]" |}.

Definition shadowed_terms : list Term :=
  [ term_aorta; term_alias; sample_term 3 "colon" "colon" 2 ].

(** A string of white space only (the empty string included). *)
Fixpoint all_space (s : string) : bool :=
  match s with
  | EmptyString => true
  | String c s' => is_js_space c && all_space s'
  end.

(** An argument that [processText] hands back without looking at the
    cache: a falsy value, a string of white space, or a value that is not a
    string. *)
Definition nothing_to_process (text' : jsarg) : bool :=
  match text' with
  | JString s => all_space s
  | _ => true
  end.

(* ================================================================== *)
(** * RadiologistAppController: the callers of the term service        *)
(* ================================================================== *)

Module Controller.

(** The controller as far as these handlers read it:
    [this.termReplacementService] (null until [initialize] has built it)
    and the scope of [this.currentReport], absent when there is no report. *)
Record State : Type := mkState {
  termReplacementService : option Service;
  report_specialty : option string;
  report_modality : option string;
}.

Definition set_service (o : option Service) (st : State) : State :=
  {| termReplacementService := o;
     report_specialty := report_specialty st;
     report_modality := report_modality st |}.

(** The payload of the [dictation-stopped] notification. *)
Record DictationResult : Type := mkDictationResult {
  original : jsarg;
  processed : jsarg;
  replacementsMade : nat;
  replacementDetails : list Replacement;
}.

(** [a || b]. *)
Definition or_else (a b : jsarg) : jsarg := if truthy a then a else b.

(** The initial value of [result] in the listener. *)
Definition unprocessed (transcription : jsarg) : DictationResult :=
  {| original := transcription; processed := transcription;
     replacementsMade := 0; replacementDetails := [] |}.

(** The listener of [dictationStopped]: returns the payload it hands to
    [_notifyRenderer].  Its [catch] block reports through the controller's
    error log, which is not part of [State]. *)
Definition dictationStopped `{Runtime} `{Elided} `{ElidedLargeText}
    (transcription : jsarg) (st : State) : DictationResult * State :=
  match termReplacementService st with
  | Some s =>
      if truthy transcription then
        match processText transcription (report_specialty st)
                (report_modality st) s with
        | (Ok processingResult, s') =>
            ({| original := transcription;
                processed := or_else (text processingResult) transcription;
                replacementsMade := length (replacements processingResult);
                replacementDetails := replacements processingResult |},
             set_service (Some s') st)
        | (Throw _, s') => (unprocessed transcription, set_service (Some s') st)
        end
      else (unprocessed transcription, st)
  | None => (unprocessed transcription, st)
  end.

(** The answer of an IPC handler: [{ success: true, ... }] or
    [{ success: false, error }] with the message of the reported error. *)
Inductive Response (A : Type) : Type :=
  | Success (payload : A)
  | Failure (message : string).
Arguments Success {A} payload.
Arguments Failure {A} message.

(** The controller elides the body of [_createError], and that of
    [_handleError] but for its end, [error._handled = true; return error].
    [reported channel e] is what the [catch] of a handler evaluates,
    [this._handleError(this._createError(ERROR_TYPES.IPC_ERROR,
    `IPC ${channel}: ${e.message}`, { nativeError: e })).message]: the
    message of the error object, or a throw. *)
Class ElidedReporting : Type := {
  reported : string → error → Res string;
}.

(** The two methods with no more than the source file shows of them:
    [_createError] returns nothing, and [_handleError] throws a TypeError
    when it writes [_handled] on that. *)
Definition Reporting_as_written : ElidedReporting :=
  {| reported := λ _ _, Throw TypeError |}.

(** The [catch] of [handle] and [handleWithArgs]. *)
Definition failure `{ElidedReporting} {A} (channel : string) (e : error)
  : Res (Response A) :=
  match reported channel e with
  | Ok message => Ok (Failure message)
  | Throw e' => Throw e'
  end.

(** [handleWithArgs(channel, handler, ...args)]; the handlers below end in
    [return { success: true, ... }], for which [Success] stands. *)
Definition handleWithArgs `{ElidedReporting} {A} (channel : string)
    (handler : State → Res A * State) : State → Res (Response A) * State :=
  λ st, match handler st with
        | (Ok a, st') => (Ok (Success a), st')
        | (Throw e, st') => (failure channel e, st')
        end.

(** A call on [this.termReplacementService], after the test
    [if (!this.termReplacementService) throw new Error('Terms no disp.')]. *)
Definition on_terms {A} (c : M A) : State → Res A * State :=
  λ st, match termReplacementService st with
        | None => (Throw (OtherError "Terms no disp."), st)
        | Some s => let '(r, s') := c s in (r, set_service (Some s') st)
        end.

(** The handler of [process-medical-text]; [specialty'] and [modality'] are
    [o?.specialty] and [o?.modality]. *)
Definition process_medical_text `{Runtime} `{Elided} `{ElidedLargeText}
    `{ElidedReporting} (t : jsarg) (specialty' modality' : option string)
  : State → Res (Response ProcessResult) * State :=
  handleWithArgs "process-text" (on_terms (processText t specialty' modality')).

(** The handler of [add-medical-term]; the payload is the [id]. *)
Definition add_medical_term `{Runtime} `{Elided} `{ElidedReporting}
    (h c : jsarg) (o : option TermOptions)
  : State → Res (Response (option Z)) * State :=
  handleWithArgs "add-term" (on_terms (addOrUpdateTerm h c o)).

End Controller.

(* ================================================================== *)
(** * DatabaseManager: the [templates] table                           *)
(* ================================================================== *)

Module Templates.

(** One row of [templates].  [name] is UNIQUE and, like [content], NOT
    NULL; [priority] has DEFAULT 0 and is always bound by [saveTemplate].
    The two timestamps are left out. *)
Record Template : Type := mkTemplate {
  id : Z;
  name : string;
  content : string;
  specialty : option string;
  modality : option string;
  tags : option string;
  priority : Z;
}.

Global Instance Template_eq_dec : EqDecision Template.
Proof. solve_decision. Defined.

(** The manager with its second table; [last_id] is the AUTOINCREMENT
    counter of [templates]. *)
Record Tables : Type := mkTables {
  manager : DatabaseManager;
  templates : list Template;
  last_id : Z;
}.

(** The argument of [saveTemplate] after destructuring; a property that is
    missing (or null) is [None]. *)
Record TemplateData : Type := mkData {
  d_id : option Z;
  d_name : option string;
  d_content : option string;
  d_specialty : option string;
  d_modality : option string;
  d_tags : option (list string);
  d_priority : option Z;
}.

(** [run]/[all] throw when the connection is closed. *)
Definition guarded {A} (st : Tables) (k : Res A * Tables) : Res A * Tables :=
  if connected (manager st) then k else (Throw DatabaseError, st).

(** The row that the bound parameters describe, when the NOT NULL columns
    are bound: [tags || []] serialised, [priority ?? 0]. *)
Definition row_of (i : Z) (d : TemplateData) : option Template :=
  match d_name d, d_content d with
  | Some n, Some c =>
      Some {| id := i; name := n; content := c;
              specialty := d_specialty d; modality := d_modality d;
              tags := Some (JSON_stringify (default [] (d_tags d)));
              priority := default 0 (d_priority d) |}
  | _, _ => None
  end.

(** A row of [rows] has this name: the UNIQUE constraint. *)
Definition name_taken (n : string) (rows : list Template) : bool :=
  existsb (λ r, String.eqb (name r) n) rows.

(** [if (id)]: the update arm is taken for an id that is not 0. *)
Definition update_id (d : TemplateData) : option Z :=
  match d_id d with
  | Some i => if bool_decide (i = 0) then None else Some i
  | None => None
  end.

Definition saveTemplate (d : TemplateData) (st : Tables) : Res Z * Tables :=
  match update_id d with
  | Some i =>
      (* UPDATE templates SET ... WHERE id = ? ; return id *)
      guarded st
        (if bool_decide (i ∈ id <$> templates st) then
           match row_of i d with
           | Some new =>
               if name_taken (name new)
                    (filter (λ r, id r ≠ i) (templates st))
               then (Throw DatabaseError, st)
               else (Ok i,
                     {| manager := manager st;
                        templates :=
                          (λ r, if bool_decide (id r = i) then new else r)
                            <$> templates st;
                        last_id := last_id st |})
           | None => (Throw DatabaseError, st)
           end
         else (Ok i, st))
  | None =>
      (* INSERT INTO templates (...) VALUES (...) ; return result.lastID *)
      guarded st
        (match row_of (last_id st + 1) d with
         | Some new =>
             if name_taken (name new) (templates st)
             then (Throw DatabaseError, st)
             else (Ok (last_id st + 1),
                   {| manager := manager st;
                      templates := templates st ++ [new];
                      last_id := last_id st + 1 |})
         | None => (Throw DatabaseError, st)
         end)
  end.

(** [result.changes > 0]. *)
Definition deleteTemplate (i : Z) (st : Tables) : Res bool * Tables :=
  guarded st
    (Ok (bool_decide (i ∈ id <$> templates st)),
     {| manager := manager st;
        templates := filter (λ r, id r ≠ i) (templates st);
        last_id := last_id st |}).

(** Comparison of a nullable text column: NULL sorts first, text compares
    by code units (BINARY collation). *)
Definition compare_text (a b : option string) : comparison :=
  match a, b with
  | None, None => Eq
  | None, Some _ => Lt
  | Some _, None => Gt
  | Some x, Some y => String.compare x y
  end.

Definition then_by (c1 c2 : comparison) : comparison :=
  match c1 with Eq => c2 | _ => c1 end.

(** [ORDER BY specialty, modality, priority DESC, name]. *)
Definition compare_templates (a b : Template) : comparison :=
  then_by (compare_text (specialty a) (specialty b))
    (then_by (compare_text (modality a) (modality b))
       (then_by (Z.compare (priority b) (priority a))
          (String.compare (name a) (name b)))).

Definition in_order (a b : Template) : bool :=
  match compare_templates a b with Gt => false | _ => true end.

(** A listed template: the row with its [tags] replaced by the parsed
    value. *)
Record Listed : Type := mkListed {
  row : Template;
  parsed_tags : jsvalue;
}.

(** [t => ({ ...t, tags: t.tags ? JSON.parse(t.tags) : [] })]. *)
Definition parse_tags `{Runtime} (t : Template) : Res Listed :=
  match tags t with
  | None => Ok (mkListed t (JArray []))
  | Some txt =>
      if String.eqb txt EmptyString then Ok (mkListed t (JArray []))
      else match JSON_parse txt with
           | Some j => Ok (mkListed t j)
           | None => Throw SyntaxError
           end
  end.

(** [templates.map(...)]: the first throw ends the call. *)
Fixpoint map_res {A B} (f : A → Res B) (l : list A) : Res (list B) :=
  match l with
  | [] => Ok []
  | x :: l' =>
      match f x with
      | Ok y => match map_res f l' with
                | Ok ys => Ok (y :: ys)
                | Throw e => Throw e
                end
      | Throw e => Throw e
      end
  end.

Definition getAllTemplates `{Runtime} (st : Tables) : Res (list Listed) * Tables :=
  guarded st
    (map_res parse_tags (stable_sort in_order (templates st)), st).

(** The states of the table that the source can produce: empty after
    [_createInitialSchema], then any calls of the two writers. *)
Inductive reachable : Tables → Prop :=
  | reach_schema db : reachable (mkTables db [] 0)
  | reach_save d st : reachable st → reachable (snd (saveTemplate d st))
  | reach_delete i st : reachable st → reachable (snd (deleteTemplate i st)).

(** Ids and names are keys, and no id is beyond the counter. *)
Record keyed (st : Tables) : Prop := mkKeyed {
  keyed_ids : NoDup (id <$> templates st);
  keyed_names : NoDup (name <$> templates st);
  keyed_range : Forall (λ r, 0 < id r ≤ last_id st) (templates st);
  keyed_counter : 0 ≤ last_id st;
}.

(** A table with two templates. *)
Definition data_torax : TemplateData :=
  mkData None (Some "Torax normal") (Some "Sin hallazgos.") (Some "torax")
    (Some "RX") (Some ["normal"]) None.

Definition data_abdomen : TemplateData :=
  mkData None (Some "Abdomen normal") (Some "Sin hallazgos.") None
    None None (Some 2).

Definition sample_tables : Tables :=
  snd (saveTemplate data_abdomen
         (snd (saveTemplate data_torax (mkTables (mkDb true [] 0) [] 0)))).

End Templates.
(* ================================================================== *)
(** * The stable sort                                                  *)
(* ================================================================== *)

Section StableSort.
Context {A : Type} (before : A → A → bool).
Hypothesis before_total : ∀ x y, before x y = true ∨ before y x = true.
Hypothesis before_trans :
  ∀ x y z, before x y = true → before y z = true → before x z = true.

Lemma insert_by_perm x l : insert_by before x l ≡ₚ x :: l.
Proof using Type.
  induction l as [|y l IH]; simpl; [done|].
  destruct (before x y); [done|].
  rewrite IH. apply Permutation_swap.
Qed.

Lemma stable_sort_perm l : stable_sort before l ≡ₚ l.
Proof using Type.
  induction l as [|x l IH]; simpl; [done|].
  fold (stable_sort before l). by rewrite insert_by_perm, IH.
Qed.

Lemma stable_sort_length l : length (stable_sort before l) = length l.
Proof using Type. by rewrite stable_sort_perm. Qed.

Lemma insert_by_sorted x l :
  StronglySorted (λ a b, before a b = true) l →
  StronglySorted (λ a b, before a b = true) (insert_by before x l).
Proof using before_total before_trans.
  induction 1 as [|y l Hl IH Hy]; simpl.
  - repeat constructor.
  - destruct (before x y) eqn:Hxy.
    + constructor; [by constructor|].
      constructor; [done|].
      eapply Forall_impl; [exact Hy|]. intros z Hz. eauto.
    + constructor; [done|].
      rewrite insert_by_perm. constructor; [|done].
      destruct (before_total x y); congruence.
Qed.

Lemma stable_sort_sorted l :
  StronglySorted (λ a b, before a b = true) (stable_sort before l).
Proof using before_total before_trans.
  induction l as [|x l IH]; simpl; [constructor|].
  by apply insert_by_sorted.
Qed.

(** The first [k] elements of the sorted list dominate the others. *)
Lemma take_sorted_dominates k l a b :
  a ∈ take k (stable_sort before l) →
  b ∈ drop k (stable_sort before l) →
  before a b = true.
Proof using before_total before_trans.
  intros Ha Hb.
  pose proof (stable_sort_sorted l) as Hs.
  rewrite <- (take_drop k (stable_sort before l)) in Hs.
  by eapply (StronglySorted_app_1_elem_of _ _ _ _ _ Hs).
Qed.
End StableSort.


(* ================================================================== *)
(** * The repository                                                   *)
(* ================================================================== *)

Lemma nocase_eqb_true a b : nocase_eqb a b = true ↔ nocase_fold a = nocase_fold b.
Proof. unfold nocase_eqb. apply String.eqb_eq. Qed.

Lemma nocase_eqb_false a b : nocase_eqb a b = false ↔ nocase_fold a ≠ nocase_fold b.
Proof. unfold nocase_eqb. apply String.eqb_neq. Qed.

Lemma NoDup_fmap_inj_on {A B} (f : A → B) (l : list A) x y :
  NoDup (f <$> l) → x ∈ l → y ∈ l → f x = f y → x = y.
Proof.
  induction l as [|z l IH]; simpl; intros Hnd Hx Hy Hxy.
  - by apply elem_of_nil in Hx.
  - apply NoDup_cons in Hnd as [Hz Hnd].
    apply elem_of_cons in Hx as [->|Hx]; apply elem_of_cons in Hy as [->|Hy].
    + done.
    + exfalso. apply Hz. rewrite Hxy. by apply list_elem_of_fmap_2.
    + exfalso. apply Hz. rewrite <- Hxy. by apply list_elem_of_fmap_2.
    + by apply IH.
Qed.

(** The two outcomes of the upsert statement. *)
Lemma upsert_cases excluded rows :
  ((∀ r, r ∈ rows → nocase_eqb (heard_term r) (heard_term excluded) = false)
   ∧ upsert excluded rows = (rows ++ [excluded], id excluded))
  ∨ (∃ pre r0 post,
       rows = pre ++ r0 :: post
       ∧ nocase_eqb (heard_term r0) (heard_term excluded) = true
       ∧ upsert excluded rows = (pre ++ on_conflict excluded r0 :: post, id r0)).
Proof.
  induction rows as [|r rows IH]; simpl.
  - left. split; [|done]. intros r Hr. by apply elem_of_nil in Hr.
  - destruct (nocase_eqb (heard_term r) (heard_term excluded)) eqn:Hr.
    + right. by exists [], r, rows.
    + destruct IH as [[Hnone ->]|(pre & r0 & post & -> & Hr0 & ->)].
      * left. split; [|done].
        intros r' [->|?]%elem_of_cons; auto.
      * right. by exists (r :: pre), r0, post.
Qed.

Lemma bump_heard i r : heard_term (bump i r) = heard_term r.
Proof. unfold bump. by destruct (decide _). Qed.

Lemma bump_id i r : id (bump i r) = id r.
Proof. unfold bump. by destruct (decide _). Qed.

Lemma bump_counted i r : counted r → counted (bump i r).
Proof.
  intros (f & Hf & Hle). unfold bump. destruct (decide _); [|by exists f].
  exists (f + 1). simpl. rewrite Hf. split; [done|lia].
Qed.

Lemma upsert_table_ok h c sp mo vs cw db :
  table_ok db → table_ok (snd (addOrUpdateMedicalTerm h c sp mo vs cw db)).
Proof.
  intros [Hu Hc Hi]. unfold addOrUpdateMedicalTerm, guarded.
  destruct (connected db); [|by split].
  set (ex := {| id := last_id db + 1 |}).
  destruct (upsert_cases ex (medical_terms db))
    as [[Hnone ->]|(pre & r0 & post & Hrows & Hr0 & ->)]; simpl.
  - split; simpl.
    + unfold unique_heard. rewrite fmap_app. apply NoDup_app. split; [done|].
      split; [|apply NoDup_singleton].
      intros k Hk Hk'%list_elem_of_singleton. subst k.
      apply list_elem_of_fmap in Hk as (r & Hk & Hr).
      apply Hnone, nocase_eqb_false in Hr. simpl in Hk, Hr. congruence.
    + apply Forall_app. split; [done|].
      apply Forall_singleton. exists 1. by split.
    + apply Forall_app. split.
      * eapply Forall_impl; [exact Hi|]. intros; simpl in *; lia.
      * apply Forall_singleton. simpl. lia.
  - rewrite Hrows in *. split; simpl.
    + unfold unique_heard in *. by rewrite fmap_app, fmap_cons in *.
    + apply Forall_app in Hc as [Hpre [Hr Hpost]%Forall_cons].
      apply Forall_app. split; [done|]. apply Forall_cons. split; [|done].
      destruct Hr as (f & Hf & Hle). exists (f + 1). simpl. rewrite Hf.
      split; [done|lia].
    + apply Forall_app in Hi as [Hpre [Hr Hpost]%Forall_cons].
      apply Forall_app. split.
      * eapply Forall_impl; [exact Hpre|]. intros; simpl in *; lia.
      * apply Forall_cons. split; [simpl; lia|].
        eapply Forall_impl; [exact Hpost|]. intros; simpl in *; lia.
Qed.

Lemma increment_table_ok i db :
  table_ok db → table_ok (snd (incrementTermFrequency i db)).
Proof.
  intros [Hu Hc Hi]. unfold incrementTermFrequency, guarded.
  destruct (connected db); [|by split]. split; simpl.
  - unfold unique_heard in *. rewrite <- list_fmap_compose.
    erewrite list_fmap_ext; [exact Hu|]. intros ? r _. simpl. by rewrite bump_heard.
  - apply Forall_fmap. eapply Forall_impl; [exact Hc|]. apply bump_counted.
  - apply Forall_fmap. eapply Forall_impl; [exact Hi|].
    intros r Hr. simpl. by rewrite bump_id.
Qed.

(** Every table the source can produce satisfies the schema's uniqueness
    constraint and holds positive, non-NULL counters. *)
Lemma reachable_table_ok db : reachable db → table_ok db.
Proof.
  induction 1 as [c|db h c sp mo vs cw _ IH|db i _ IH|db c _ IH].
  - split; simpl; [apply NoDup_nil_2|constructor|constructor].
  - by apply upsert_table_ok.
  - by apply increment_table_ok.
  - destruct IH. by split.
Qed.

(** C7. [addOrUpdateMedicalTerm] is an upsert keyed on the heard term without
    regard to case: on a table the source can produce and an open
    connection, a heard term (lower-cased, trimmed) that collides with no
    row appends a row with frequency 1; one that collides with a row under
    NOCASE adds 1 to that row's frequency, overwrites [correct_term],
    [specialty], [modality], [variants] and [context_words], keeps its
    [heard_term] and returns its id; on either arm the AUTOINCREMENT counter
    advances by one; afterwards heard terms are still unique without regard
    to case and every frequency is a number at least 0. *)
Theorem addOrUpdateMedicalTerm_upsert db h c sp mo vs cw :
  reachable db →
  connected db = true →
  let key := trim (toLowerCase h) in
  let out := addOrUpdateMedicalTerm h c sp mo vs cw db in
  ((∀ r, r ∈ medical_terms db → nocase_eqb (heard_term r) key = false) →
     out = (Ok (last_id db + 1),
            mkDb true
              (medical_terms db ++ [created (last_id db + 1) h c sp mo vs cw])
              (last_id db + 1)))
  ∧ (∀ r0, r0 ∈ medical_terms db → nocase_eqb (heard_term r0) key = true →
       ∃ f pre post,
         frequency r0 = Some f
         ∧ medical_terms db = pre ++ r0 :: post
         ∧ out = (Ok (id r0),
                  mkDb true (pre ++ overwritten r0 f c sp mo vs cw :: post)
                       (last_id db + 1)))
  ∧ unique_heard (medical_terms (snd out))
  ∧ Forall (λ r, ∃ f, frequency r = Some f ∧ 0 ≤ f) (medical_terms (snd out)).
Proof.
  intros Hreach Hconn key out.
  pose proof (reachable_table_ok _ Hreach) as Hok.
  pose proof (upsert_table_ok h c sp mo vs cw db Hok) as [Hu' Hc' _].
  fold out in Hu', Hc'.
  split; [|split; [|split]]; [| |done|].
  - intros Hnone. subst out. unfold addOrUpdateMedicalTerm, guarded.
    rewrite Hconn.
    set (ex := {| id := last_id db + 1 |}).
    destruct (upsert_cases ex (medical_terms db))
      as [[_ ->]|(pre & r0 & post & Hrows & Hr0 & _)].
    + done.
    + assert (Hin : r0 ∈ medical_terms db) by (rewrite Hrows; set_solver).
      apply Hnone in Hin. unfold ex, key in *. simpl in *. congruence.
  - intros r0 Hin Hr0. subst out. unfold addOrUpdateMedicalTerm, guarded.
    rewrite Hconn.
    set (ex := {| id := last_id db + 1 |}).
    destruct (upsert_cases ex (medical_terms db))
      as [[Hnone _]|(pre & r1 & post & Hrows & Hr1 & ->)].
    + apply Hnone in Hin. unfold ex, key in *. simpl in *. congruence.
    + assert (r1 = r0) as ->.
      { destruct Hok as [Hu _ _].
        eapply (NoDup_fmap_inj_on (λ r, nocase_fold (heard_term r))); [exact Hu|..|];
          [rewrite Hrows; set_solver|done|].
        apply nocase_eqb_true in Hr0, Hr1. unfold ex, key in *. simpl in *.
        congruence. }
      destruct Hok as [_ Hc Hi].
      rewrite Forall_forall in Hc, Hi.
      destruct (Hc r0 Hin) as (f & Hf & _).
      exists f, pre, post. split; [done|]. split; [done|].
      simpl. unfold on_conflict, overwritten. simpl. by rewrite Hf.
  - eapply Forall_impl; [exact Hc'|]. intros r (f & Hf & Hle). exists f. split; [done|lia].
Qed.


Lemma addOrUpdateMedicalTerm_upsert_witness :
  reachable sample_db1
  ∧ connected sample_db1 = true
  ∧ addOrUpdateMedicalTerm " NODULO " " Nodulo pulmonar" (Some "torax") None [] []
      sample_db1
    = (Ok 1,
       mkDb true
         [ {| id := 1; heard_term := "nodulo"; correct_term := "Nodulo pulmonar";
              specialty := Some "torax"; modality := None; frequency := Some 2;
              variants := Some "[]"; context_words := Some "[]" |} ]
         2).
Proof.
  assert (Hreach : reachable sample_db1) by apply reach_upsert, reach_schema.
  assert (Hconn : connected sample_db1 = true) by reflexivity.
  split; [exact Hreach|]. split; [exact Hconn|].
  destruct (addOrUpdateMedicalTerm_upsert sample_db1 " NODULO " " Nodulo pulmonar"
              (Some "torax") None [] [] Hreach Hconn) as (_ & Hpresent & _).
  destruct (Hpresent (created 1 "Nodulo" "nodulo" None None ["nodulito"] []))
    as (f & pre & post & Hf & Hrows & ->).
  - vm_compute. apply list_elem_of_here.
  - reflexivity.
  - injection Hf as <-.
    destruct pre as [|r pre].
    + injection Hrows as <-. reflexivity.
    + apply (f_equal length) in Hrows. rewrite length_app in Hrows.
      simpl in Hrows. lia.
Defined.

(** The counter at work: three terms stored, the third upserted twice more;
    the counter stands at 5 and the next new term gets id 6. *)
Example upsert_counter_advances :
  let upsert_term h d :=
    snd (addOrUpdateMedicalTerm h h None None [] [] d) in
  let db :=
    Nat.iter 3 (upsert_term "bazo")
      (upsert_term "tac" (upsert_term "nodulo" (mkDb true [] 0))) in
  (id <$> medical_terms db) = [1; 2; 3]
  ∧ last_id db = 5
  ∧ fst (addOrUpdateMedicalTerm "higado" "higado" None None [] [] db) = Ok 6.
Proof. vm_compute. done. Qed.

(** C10. On an open connection, [incrementTermFrequency] with an id no row
    carries changes nothing and does not throw, and [getTermFrequency] for
    such an id answers 0. *)
Theorem unknown_term_id_is_harmless db termId' :
  connected db = true →
  (∀ r, r ∈ medical_terms db → id r ≠ termId') →
  incrementTermFrequency termId' db = (Ok (), db)
  ∧ getTermFrequency termId' db = (Ok 0, db).
Proof.
  intros Hconn Hnone. unfold incrementTermFrequency, getTermFrequency, guarded.
  rewrite Hconn. split.
  - f_equal. destruct db as [c rows l]. simpl in *. f_equal; [done|].
    induction rows as [|r rows IH]; [done|]. simpl. f_equal.
    + unfold bump. destruct (decide (id r = termId')) as [Heq|]; [|done].
      exfalso. eapply Hnone; [|exact Heq]. apply list_elem_of_here.
    + apply IH. intros r' Hr'. apply Hnone. by apply list_elem_of_further.
  - do 2 f_equal.
    destruct (find _ _) as [r|] eqn:Hfind; [|done].
    apply find_some in Hfind as [Hin Hid].
    apply bool_decide_eq_true in Hid.
    exfalso. eapply Hnone; [|exact Hid]. by apply list_elem_of_In.
Qed.

Lemma unknown_term_id_is_harmless_witness :
  incrementTermFrequency 42 sample_db1 = (Ok (), sample_db1)
  ∧ getTermFrequency 42 sample_db1 = (Ok 0, sample_db1).
Proof.
  apply (unknown_term_id_is_harmless sample_db1 42).
  - reflexivity.
  - intros r Hr Hid. vm_compute in Hr.
    apply list_elem_of_singleton in Hr. subst r. discriminate Hid.
Defined.


Lemma stable_sort_elem_of {A} (before : A → A → bool) (l : list A) x :
  x ∈ stable_sort before l ↔ x ∈ l.
Proof. by rewrite stable_sort_perm. Qed.

(** C8, counterexample.  With nothing requested, the filter of
    [findSimilarTerms] lets a scoped term through, where the formula of the
    specification rejects it. *)
Lemma scoped_term_found_when_nothing_requested :
  fst (findSimilarTerms "TA" None None 5 sample_db_cardio) = Ok [term_cardio]
  ∧ eligible term_cardio None None = true
  ∧ ¬ (eligible term_cardio None None = true
       ↔ (specialty term_cardio = None ∨ specialty term_cardio = None)
         ∧ (modality term_cardio = None ∨ modality term_cardio = None)).
Proof.
  split; [reflexivity|]. split; [reflexivity|].
  intros [Himp _]. destruct (Himp eq_refl) as [[H|H] _]; discriminate H.
Qed.

(** C8, as the code has it.  A term passes the filters exactly when, for the
    specialty and for the modality alike, nothing is requested (null or
    empty), or the term's field is null, or it equals the requested value.
    So a term scoped to one specialty never passes a request for another
    specialty, a term with null specialty passes any specialty, and every row
    [findSimilarTerms] returns is a row of the table that passes. *)
Theorem eligible_iff t sp mo :
  (eligible t sp mo = true
   ↔ (requested sp = false ∨ specialty t = None ∨ specialty t = sp)
     ∧ (requested mo = false ∨ modality t = None ∨ modality t = mo))
  ∧ (∀ a b, specialty t = Some a → requested (Some b) = true → a ≠ b →
            eligible t (Some b) mo = false)
  ∧ (specialty t = None → eligible t sp mo = filter_clause mo (modality t))
  ∧ (∀ h limit db rows db',
       findSimilarTerms h sp mo limit db = (Ok rows, db') →
       ∀ r, r ∈ rows → r ∈ medical_terms db ∧ eligible r sp mo = true).
Proof.
  assert (Hclause : ∀ p col,
            filter_clause p col = true
            ↔ requested p = false ∨ col = None ∨ col = p).
  { intros p col. unfold filter_clause.
    destruct (requested p) eqn:Hp; [|naive_solver].
    destruct col as [c|]; [|naive_solver].
    rewrite bool_decide_eq_true. split; [auto|].
    intros [H|[H|H]]; [discriminate H|discriminate H|done]. }
  split; [|split; [|split]].
  - unfold eligible. rewrite andb_true_iff, !Hclause. done.
  - intros a b Ha Hb Hab. unfold eligible, filter_clause. rewrite Hb, Ha.
    rewrite bool_decide_eq_false_2; [done|congruence].
  - intros Hnone. unfold eligible. 
    assert (filter_clause sp (specialty t) = true) as ->; [|done].
    apply Hclause. auto.
  - intros h limit db rows db'. unfold findSimilarTerms, guarded.
    destruct (connected db); [|done]. intros [= <- _] r Hr.
    apply (subseteq_take limit) in Hr.
    apply stable_sort_elem_of, list_elem_of_filter in Hr as [[_ He] Hin].
    done.
Qed.

Lemma eligible_iff_witness :
  eligible term_cardio (Some "neuro") None = false
  ∧ ∀ r, r ∈ [term_cardio] →
         r ∈ medical_terms sample_db_cardio
         ∧ eligible r (Some "cardio") None = true.
Proof.
  destruct (eligible_iff term_cardio (Some "cardio") None) as (_ & Hother & _ & Hfind).
  split.
  - apply (Hother "cardio" "neuro"); [reflexivity|reflexivity|discriminate].
  - apply (Hfind "ta" 5%nat sample_db_cardio [term_cardio] sample_db_cardio).
    reflexivity.
Defined.


(* ================================================================== *)
(** * Frame rules of the monad                                         *)
(* ================================================================== *)

Section Frame.
Context {X : Type} (f : Service → X).

Lemma keeps_ret {A} (a : A) : keeps f (ret a).
Proof. done. Qed.

Lemma keeps_throw {A} e : keeps f (@throw A e).
Proof. done. Qed.

Lemma keeps_lift {A} (r : Res A) : keeps f (lift r).
Proof. done. Qed.

Lemma keeps_modify g : (∀ s, f (g s) = f s) → keeps f (modify g).
Proof. intros Hg s. apply Hg. Qed.

Lemma keeps_bind {A B} (c : M A) (k : A → M B) :
  keeps f c → (∀ a, keeps f (k a)) → keeps f (bind c k).
Proof.
  intros Hc Hk s. unfold bind. specialize (Hc s).
  destruct (c s) as [[a|e] s']; simpl in *; [|done].
  by rewrite Hk.
Qed.

Lemma keeps_try_catch {A} (c : M A) (h : error → M A) :
  keeps f c → (∀ e, keeps f (h e)) → keeps f (try_catch c h).
Proof.
  intros Hc Hh s. unfold try_catch. specialize (Hc s).
  destruct (c s) as [[a|e] s']; simpl in *; [done|].
  by rewrite Hh.
Qed.
End Frame.

Lemma never_throws_try_catch {A} (c : M A) (h : error → M A) :
  (∀ e, never_throws (h e)) → never_throws (try_catch c h).
Proof.
  intros Hh s. unfold try_catch.
  destruct (c s) as [[a|e] s']; [by exists a|]. apply Hh.
Qed.

(* ================================================================== *)
(** * The derived indices                                              *)
(* ================================================================== *)

Lemma lookup_push_bucket `{Countable K} (k k' : K) t (m : gmap K (list Term)) :
  default [] (push_bucket k t m !! k')
  = default [] (m !! k') ++ (if decide (k = k') then [t] else []).
Proof.
  unfold push_bucket. destruct (decide (k = k')) as [->|Hne].
  - by rewrite lookup_insert_eq.
  - rewrite lookup_insert_ne by done. by rewrite app_nil_r.
Qed.

Section Indices.
Context `{Runtime}.

Lemma index_term_length t ix :
  termIndexByLength (snd (index_term t ix))
  = push_bucket (String.length (toLowerCase (heard_term t))) t
                (termIndexByLength ix).
Proof.
  unfold index_term. destruct (is_frequent t); [|done].
  destruct (parse_variants t) as [[vs|]|e]; [|done|done].
  by destruct (add_variants _ _ _).
Qed.

Lemma index_term_first_char t ix :
  termIndexByFirstChar (snd (index_term t ix))
  = push_bucket (charAt0 (toLowerCase (heard_term t))) t
                (termIndexByFirstChar ix).
Proof.
  unfold index_term. destruct (is_frequent t); [|done].
  destruct (parse_variants t) as [[vs|]|e]; [|done|done].
  by destruct (add_variants _ _ _).
Qed.

(** After a completed pass a bucket holds, in cache order, the terms whose
    key it is. *)
Lemma index_terms_length ts ix ix' n :
  index_terms ts ix = (Ok (), ix') →
  default [] (termIndexByLength ix' !! n)
  = default [] (termIndexByLength ix !! n)
    ++ filter (λ t, String.length (toLowerCase (heard_term t)) = n) ts.
Proof.
  revert ix. induction ts as [|t ts IH]; simpl; intros ix Hix.
  - injection Hix as <-. by rewrite app_nil_r.
  - pose proof (index_term_length t ix) as Hl.
    destruct (index_term t ix) as [[?|e] ix1]; [|done]. simpl in Hl.
    rewrite (IH _ Hix), Hl, lookup_push_bucket, filter_cons, <- app_assoc.
    by destruct (decide _).
Qed.

Lemma index_terms_first_char ts ix ix' c :
  index_terms ts ix = (Ok (), ix') →
  default [] (termIndexByFirstChar ix' !! c)
  = default [] (termIndexByFirstChar ix !! c)
    ++ filter (λ t, charAt0 (toLowerCase (heard_term t)) = c) ts.
Proof.
  revert ix. induction ts as [|t ts IH]; simpl; intros ix Hix.
  - injection Hix as <-. by rewrite app_nil_r.
  - pose proof (index_term_first_char t ix) as Hl.
    destruct (index_term t ix) as [[?|e] ix1]; [|done]. simpl in Hl.
    rewrite (IH _ Hix), Hl, lookup_push_bucket, filter_cons, <- app_assoc.
    by destruct (decide _).
Qed.

Lemma add_variants_sound t vs fc k t' :
  snd (add_variants t vs fc) !! k = Some t' → fc !! k = Some t' ∨ t' = t.
Proof.
  revert fc. induction vs as [|[v|[]] vs IH]; simpl; intros fc Hk; auto.
  destruct (String.eqb v EmptyString); [auto|].
  apply IH in Hk as [Hk|]; [|auto].
  apply lookup_insert_Some in Hk as [[_ <-]|[_ Hk]]; auto.
Qed.

Lemma add_variants_grows t vs fc k :
  is_Some (fc !! k) → is_Some (snd (add_variants t vs fc) !! k).
Proof.
  revert fc. induction vs as [|[v|[]] vs IH]; simpl; intros fc Hk; auto.
  destruct (String.eqb v EmptyString); [auto|].
  apply IH. rewrite lookup_insert_is_Some. destruct (decide (toLowerCase v = k)); auto.
Qed.

Lemma index_term_frequent_sound t ix k t' :
  frequentTermsCache (snd (index_term t ix)) !! k = Some t' →
  frequentTermsCache ix !! k = Some t' ∨ (t' = t ∧ is_frequent t = true).
Proof.
  unfold index_term. destruct (is_frequent t); [|auto].
  assert (Hins : ∀ fc : gmap string Term,
             fc = <[toLowerCase (heard_term t) := t]> (frequentTermsCache ix) →
             fc !! k = Some t' →
             frequentTermsCache ix !! k = Some t' ∨ (t' = t ∧ true = true)).
  { intros fc -> [[_ <-]|[_ Hk]]%lookup_insert_Some; auto. }
  destruct (parse_variants t) as [[vs|]|e]; simpl; eauto.
  pose proof (add_variants_sound t vs
                (<[toLowerCase (heard_term t) := t]> (frequentTermsCache ix)) k t')
    as Hvs.
  destruct (add_variants _ _ _) as [r fc']. simpl in *.
  intros Hk. destruct (Hvs Hk); eauto.
Qed.

Lemma index_term_frequent_grows t ix k :
  is_Some (frequentTermsCache ix !! k) →
  is_Some (frequentTermsCache (snd (index_term t ix)) !! k).
Proof.
  intros Hk. unfold index_term. destruct (is_frequent t); [|done].
  assert (Hins : is_Some (<[toLowerCase (heard_term t) := t]>
                            (frequentTermsCache ix) !! k)).
  { rewrite lookup_insert_is_Some.
    destruct (decide (toLowerCase (heard_term t) = k)); auto. }
  destruct (parse_variants t) as [[vs|]|e]; simpl; [|done|done].
  pose proof (add_variants_grows t vs _ k Hins).
  by destruct (add_variants _ _ _).
Qed.

Lemma index_term_frequent_self t ix :
  is_frequent t = true →
  is_Some (frequentTermsCache (snd (index_term t ix))
             !! toLowerCase (heard_term t)).
Proof.
  intros Hf. unfold index_term. rewrite Hf.
  assert (Hins : is_Some (<[toLowerCase (heard_term t) := t]>
                            (frequentTermsCache ix)
                            !! toLowerCase (heard_term t))).
  { rewrite lookup_insert_eq. eauto. }
  destruct (parse_variants t) as [[vs|]|e]; simpl; [|done|done].
  pose proof (add_variants_grows t vs _ _ Hins).
  by destruct (add_variants _ _ _).
Qed.

Lemma index_terms_frequent_sound ts ix k t' :
  frequentTermsCache (snd (index_terms ts ix)) !! k = Some t' →
  frequentTermsCache ix !! k = Some t' ∨ (t' ∈ ts ∧ is_frequent t' = true).
Proof.
  revert ix. induction ts as [|t ts IH]; simpl; intros ix Hk; [auto|].
  pose proof (index_term_frequent_sound t ix k t') as Hone.
  destruct (index_term t ix) as [[?|e] ix1]; simpl in *.
  - apply IH in Hk as [Hk|[Hk ?]];
      [|right; split; [by apply list_elem_of_further|done]].
    destruct (Hone Hk) as [?|[-> ?]];
      [auto|right; split; [apply list_elem_of_here|done]].
  - destruct (Hone Hk) as [?|[-> ?]];
      [auto|right; split; [apply list_elem_of_here|done]].
Qed.

Lemma index_terms_frequent_grows ts ix k :
  is_Some (frequentTermsCache ix !! k) →
  is_Some (frequentTermsCache (snd (index_terms ts ix)) !! k).
Proof.
  revert ix. induction ts as [|t ts IH]; simpl; intros ix Hk; [done|].
  pose proof (index_term_frequent_grows t ix k Hk) as Hone.
  destruct (index_term t ix) as [[?|e] ix1]; simpl in *; auto.
Qed.

Lemma index_terms_frequent_complete ts ix ix' t :
  index_terms ts ix = (Ok (), ix') →
  t ∈ ts → is_frequent t = true →
  is_Some (frequentTermsCache ix' !! toLowerCase (heard_term t)).
Proof.
  revert ix. induction ts as [|t0 ts IH]; simpl; intros ix Hix Hin Hf.
  - by apply elem_of_nil in Hin.
  - pose proof (index_term_frequent_self t0 ix) as Hself.
    destruct (index_term t0 ix) as [[?|e] ix1] eqn:Hone; [|done].
    apply elem_of_cons in Hin as [->|Hin]; [|by eapply IH].
    pose proof (index_terms_frequent_grows ts ix1 _ (Hself Hf)) as Hg.
    by rewrite Hix in Hg.
Qed.

(** A rebuild that completes leaves cache and indices in sync. *)
Lemma rebuild_in_sync s s' :
  _rebuildTermIndices s = (Ok (), s') → in_sync s'.
Proof.
  unfold _rebuildTermIndices.
  destruct (index_terms (cachedTerms s) empty_indices) as [r ix] eqn:Hix.
  intros [= -> <-]. split; simpl.
  - intros t. unfold length_bucket.
    rewrite (index_terms_length _ _ _ _ Hix). simpl.
    rewrite lookup_empty. simpl. rewrite list_elem_of_filter.
    split; [auto|by intros [_ ?]].
  - intros t. unfold first_char_bucket.
    rewrite (index_terms_first_char _ _ _ _ Hix). simpl.
    rewrite lookup_empty. simpl. rewrite list_elem_of_filter.
    split; [auto|by intros [_ ?]].
  - intros n l t Hl Hin.
    pose proof (index_terms_length _ _ _ n Hix) as Hb.
    rewrite Hl in Hb. simpl in Hb. rewrite lookup_empty in Hb. simpl in Hb.
    rewrite Hb in Hin. by apply list_elem_of_filter in Hin as [_ ?].
  - intros c l t Hl Hin.
    pose proof (index_terms_first_char _ _ _ c Hix) as Hb.
    rewrite Hl in Hb. simpl in Hb. rewrite lookup_empty in Hb. simpl in Hb.
    rewrite Hb in Hin. by apply list_elem_of_filter in Hin as [_ ?].
  - intros k t Hk.
    pose proof (index_terms_frequent_sound (cachedTerms s) empty_indices k t) as Hs.
    rewrite Hix in Hs. destruct (Hs Hk) as [He|]; [|done].
    simpl in He. by rewrite lookup_empty in He.
  - intros t Hin Hf. unfold exact_lookup.
    by eapply index_terms_frequent_complete.
Qed.
End Indices.


(* ================================================================== *)
(** * Cache reduction                                                  *)
(* ================================================================== *)

Lemma by_frequency_desc_total a b :
  by_frequency_desc a b = true ∨ by_frequency_desc b a = true.
Proof. unfold by_frequency_desc. rewrite !Z.leb_le. lia. Qed.

Lemma by_frequency_desc_trans a b c :
  by_frequency_desc a b = true → by_frequency_desc b c = true →
  by_frequency_desc a c = true.
Proof. unfold by_frequency_desc. rewrite !Z.leb_le. lia. Qed.

Lemma rebuild_keeps_cachedTerms `{Runtime} : keeps cachedTerms _rebuildTermIndices.
Proof. intros s. unfold _rebuildTermIndices. by destruct (index_terms _ _). Qed.

Lemma rebuild_keeps_dbManager `{Runtime} : keeps dbManager _rebuildTermIndices.
Proof. intros s. unfold _rebuildTermIndices. by destruct (index_terms _ _). Qed.

Lemma reduce_shape `{Runtime} k s :
  (k < length (cachedTerms s))%nat →
  _reduceCacheSize k s
  = _rebuildTermIndices
      (set_cachedTerms (take k (stable_sort by_frequency_desc (cachedTerms s))) s).
Proof.
  intros Hk. unfold _reduceCacheSize.
  destruct (length (cachedTerms s) <=? k)%nat eqn:Hle; [|done].
  apply Nat.leb_le in Hle. lia.
Qed.

Lemma reduce_cachedTerms `{Runtime} k s :
  (k < length (cachedTerms s))%nat →
  cachedTerms (snd (_reduceCacheSize k s))
  = take k (stable_sort by_frequency_desc (cachedTerms s)).
Proof.
  intros Hk. rewrite (reduce_shape _ _ Hk). by rewrite rebuild_keeps_cachedTerms.
Qed.

(** C6, counterexample.  The exact lookup misses a retained term whose
    frequency is not above 5: after reducing a cache of three rare terms to
    two, the term heard as aorta is retained and in its two buckets, yet the
    frequent-terms map has no entry for it. *)
Lemma reduce_retains_term_without_exact_lookup :
  let out := @_reduceCacheSize Runtime_arrays 2 (loaded_service rare_terms) in
  fst out = Ok ()
  ∧ cachedTerms (snd out)
    = [sample_term 2 "aorta" "aorta" 3; sample_term 1 "bazo" "bazo" 2]
  ∧ length_bucket (indices (snd out)) (sample_term 2 "aorta" "aorta" 3)
    = [sample_term 2 "aorta" "aorta" 3]
  ∧ exact_lookup (indices (snd out)) "aorta" = None.
Proof. vm_compute. done. Qed.

(** C6, as the code has it.  With at most [k] cached terms
    [_reduceCacheSize k] changes nothing.  Otherwise the cache becomes the
    first [k] terms in descending order of frequency (a missing frequency
    counts as 0, ties keep their order): exactly [k] terms which, with the
    evicted ones, make up the old cache, none less frequent than an evicted
    one.  The repository is not touched.  When the rebuild completes, the
    indices are in sync with the retained terms: a term is retained exactly
    when it is in the length bucket and in the first-character bucket of its
    heard term, so no evicted term is findable; the exact lookup answers only
    with retained terms of frequency above 5, and has an entry for the heard
    term of each of those. *)
Theorem reduceCacheSize_keeps_most_frequent `{Runtime} (k : nat) (s : Service) :
  let out := _reduceCacheSize k s in
  let sorted := stable_sort by_frequency_desc (cachedTerms s) in
  ((length (cachedTerms s) ≤ k)%nat → out = (Ok (), s))
  ∧ ((k < length (cachedTerms s))%nat →
       cachedTerms (snd out) = take k sorted
       ∧ length (cachedTerms (snd out)) = k
       ∧ cachedTerms (snd out) ++ drop k sorted ≡ₚ cachedTerms s
       ∧ (∀ a b, a ∈ cachedTerms (snd out) → b ∈ drop k sorted →
                 freq0 b ≤ freq0 a)
       ∧ (fst out = Ok () →
            in_sync (snd out)
            ∧ ∀ t, t ∉ cachedTerms (snd out) →
                   (t ∉ length_bucket (indices (snd out)) t)
                   ∧ (t ∉ first_char_bucket (indices (snd out)) t)
                   ∧ ∀ fragment, exact_lookup (indices (snd out)) fragment ≠ Some t))
  ∧ dbManager (snd out) = dbManager s.
Proof.
  intros out sorted. subst out sorted. split; [|split].
  - intros Hle. unfold _reduceCacheSize.
    by rewrite (proj2 (Nat.leb_le _ _) Hle).
  - intros Hk. rewrite (reduce_shape _ _ Hk).
    set (sorted := stable_sort by_frequency_desc (cachedTerms s)).
    set (s1 := set_cachedTerms (take k sorted) s).
    assert (Hcache : cachedTerms (snd (_rebuildTermIndices s1)) = take k sorted)
      by apply rebuild_keeps_cachedTerms.
    rewrite Hcache. split; [done|]. split; [|split; [|split]].
    + rewrite length_take. subst sorted. rewrite stable_sort_length. lia.
    + rewrite take_drop. apply stable_sort_perm.
    + intros a b Ha Hb. apply Z.leb_le.
      apply (take_sorted_dominates by_frequency_desc by_frequency_desc_total
               by_frequency_desc_trans k (cachedTerms s) a b Ha Hb).
    + intros Hok.
      destruct (_rebuildTermIndices s1) as [r s2] eqn:Hs2. simpl in *.
      subst r. pose proof (rebuild_in_sync _ _ Hs2) as Hsync.
      split; [done|]. intros t Ht. rewrite <- Hcache in Ht.
      destruct Hsync as [Hl Hc _ _ Hf _].
      split; [by rewrite <- Hl|]. split; [by rewrite <- Hc|].
      intros fragment Hfrag. apply Hf in Hfrag as [Hin _]. done.
  - unfold _reduceCacheSize.
    destruct (length (cachedTerms s) <=? k)%nat; [done|].
    unfold bind, modify. by rewrite rebuild_keeps_dbManager.
Qed.

Lemma reduceCacheSize_keeps_most_frequent_witness :
  let out := @_reduceCacheSize Runtime_arrays 2 (loaded_service common_terms) in
  cachedTerms (snd out)
  = [sample_term 2 "aorta" "aorta" 10; sample_term 1 "bazo" "bazo" 8]
  ∧ in_sync (snd out)
  ∧ exact_lookup (indices (snd out)) "Aorta" = Some (sample_term 2 "aorta" "aorta" 10)
  ∧ exact_lookup (indices (snd out)) "colon" = None.
Proof.
  intros out.
  destruct (@reduceCacheSize_keeps_most_frequent Runtime_arrays 2
              (loaded_service common_terms)) as (_ & Hmore & _).
  destruct Hmore as (Hcache & _ & _ & _ & Hsync); [vm_compute; lia|].
  destruct Hsync as [Hsync _]; [reflexivity|].
  split; [exact Hcache|]. split; [exact Hsync|].
  split; vm_compute; reflexivity.
Defined.


(* ================================================================== *)
(** * The memory monitor                                               *)
(* ================================================================== *)

Section Monitor.
Context `{Runtime} `{Elided}.

Lemma flush_keeps {X} (f : Service → X) :
  (∀ b db s, f (set_frequencyUpdateBatch b (set_dbManager db s)) = f s) →
  keeps f _flushFrequencyBatch.
Proof.
  intros Hf s. unfold _flushFrequencyBatch.
  destruct (flush_batch _ _) as [r [b db]]. apply Hf.
Qed.

Lemma flush_and_forget_keeps {X} (f : Service → X) :
  (∀ b db s, f (set_frequencyUpdateBatch b (set_dbManager db s)) = f s) →
  keeps f flush_and_forget.
Proof.
  intros Hf. apply keeps_try_catch; [by apply flush_keeps|].
  intros e. apply keeps_ret.
Qed.

Lemma flush_and_forget_ok s : fst (flush_and_forget s) = Ok ().
Proof.
  unfold flush_and_forget, try_catch.
  by destruct (_flushFrequencyBatch s) as [[[]|e] s'].
Qed.

Lemma flush_and_forget_effect s :
  frequencyUpdateBatch (snd (flush_and_forget s))
  = fst (snd (flush_batch (frequencyUpdateBatch s) (dbManager s)))
  ∧ dbManager (snd (flush_and_forget s))
    = snd (snd (flush_batch (frequencyUpdateBatch s) (dbManager s))).
Proof.
  unfold flush_and_forget, try_catch, _flushFrequencyBatch.
  by destruct (flush_batch _ _) as [[[]|e] [b db]].
Qed.

Lemma checkMemoryUsage_ok s : fst (_checkMemoryUsage s) = Ok ().
Proof.
  unfold _checkMemoryUsage, try_catch.
  destruct (_ && _).
  - unfold bind. destruct (_reduceCacheSize _ s) as [[[]|e] s1]; [|done].
    pose proof (flush_and_forget_ok s1).
    by destruct (flush_and_forget s1) as [[[]|e] s2].
  - by destruct (500 <? _).
Qed.

Lemma reduce_keeps {X} (f : Service → X) :
  (∀ l s, f (set_cachedTerms l s) = f s) →
  (∀ ix s, f (set_indices ix s) = f s) →
  ∀ k, keeps f (_reduceCacheSize k).
Proof.
  intros Hc Hi k s. unfold _reduceCacheSize.
  destruct (_ <=? _)%nat; [done|].
  unfold bind, modify, _rebuildTermIndices. simpl.
  destruct (index_terms _ _) as [r ix]. simpl. by rewrite Hi, Hc.
Qed.

(** The monitor touches nothing but the cache, the indices, the batch and
    the repository. *)
Lemma checkMemoryUsage_keeps {X} (f : Service → X) :
  (∀ l s, f (set_cachedTerms l s) = f s) →
  (∀ ix s, f (set_indices ix s) = f s) →
  (∀ b db s, f (set_frequencyUpdateBatch b (set_dbManager db s)) = f s) →
  keeps f _checkMemoryUsage.
Proof.
  intros Hc Hi Hb. unfold _checkMemoryUsage.
  apply keeps_try_catch; [|intros; apply keeps_ret].
  intros s. destruct (_ && _).
  - apply (keeps_bind f); [by apply reduce_keeps|].
    intros _. by apply flush_and_forget_keeps.
  - destruct (500 <? _); [|done]. simpl. by rewrite Hi, Hc.
Qed.
End Monitor.

(** C4, counterexample.  With both thresholds exceeded in one tick the
    monitor reduces the cache and flushes the batch, and does not clear the
    cache: two of the three terms are still cached and indexed. *)
Lemma both_thresholds_exceeded_only_reduces :
  let s := pressured_service in
  let s' := snd (@_checkMemoryUsage Runtime_arrays Elided_spec s) in
  heap_high (memoryUsage s) = true
  ∧ (cacheLimit s < 2 * length (cachedTerms s))%nat
  ∧ 500 * 1024 * 1024 < rss (memoryUsage s)
  ∧ cachedTerms s'
    = [sample_term 2 "aorta" "aorta" 10; sample_term 1 "bazo" "bazo" 8]
  ∧ exact_lookup (indices s') "aorta" = Some (sample_term 2 "aorta" "aorta" 10)
  ∧ frequencyUpdateBatch s' = ∅
  ∧ cachedTerms s' ≠ cachedTerms (snd (clearCache s)).
Proof. vm_compute. repeat split; try done; lia. Qed.

(** C4, as the code has it.  One tick of the monitor never throws and takes
    exactly one of three courses.  When the heap ratio exceeds 0.85 and the
    cache holds more than half of [cacheLimit] terms, the cache is reduced to
    the [cacheLimit / 2] most frequent terms and, the reduction having
    completed, the frequency batch is flushed; [clearCache] is not run in
    that tick, whatever the resident memory.  Otherwise, when the resident
    memory rounded to megabytes exceeds 500, the tick is a cache clear.
    Otherwise nothing changes. *)
Theorem checkMemoryUsage_courses `{Runtime} `{Elided} (s : Service) :
  let heap_trigger :=
    heap_high (memoryUsage s)
    && (cacheLimit s <? 2 * length (cachedTerms s))%nat in
  let rss_trigger := 500 <? rssMemoryMB (memoryUsage s) in
  let s' := snd (_checkMemoryUsage s) in
  fst (_checkMemoryUsage s) = Ok ()
  ∧ (heap_trigger = true →
       cachedTerms s'
       = take (cacheLimit s / 2) (stable_sort by_frequency_desc (cachedTerms s))
       ∧ length (cachedTerms s') = (cacheLimit s / 2)%nat
       ∧ (fst (_reduceCacheSize (cacheLimit s / 2) s) = Ok () →
            frequencyUpdateBatch s'
            = fst (snd (flush_batch (frequencyUpdateBatch s) (dbManager s)))
            ∧ dbManager s'
              = snd (snd (flush_batch (frequencyUpdateBatch s) (dbManager s)))))
  ∧ (heap_trigger = false → rss_trigger = true →
       _checkMemoryUsage s = clearCache s)
  ∧ (heap_trigger = false → rss_trigger = false →
       _checkMemoryUsage s = (Ok (), s)).
Proof.
  intros heap_trigger rss_trigger s'.
  split; [apply checkMemoryUsage_ok|].
  subst s'. unfold _checkMemoryUsage, try_catch. fold heap_trigger rss_trigger.
  split; [|split].
  - intros Htrig. rewrite Htrig.
    apply andb_true_iff in Htrig as [_ Hhalf]. apply Nat.ltb_lt in Hhalf.
    assert (Hk : (cacheLimit s / 2 < length (cachedTerms s))%nat).
    { apply Nat.Div0.div_lt_upper_bound. lia. }
    pose proof (reduce_cachedTerms _ _ Hk) as Hcache.
    assert (Hlen : length (take (cacheLimit s / 2)
                            (stable_sort by_frequency_desc (cachedTerms s)))
                   = (cacheLimit s / 2)%nat).
    { rewrite length_take, stable_sort_length. lia. }
    pose proof (reduce_keeps frequencyUpdateBatch (λ _ _, eq_refl)
                  (λ _ _, eq_refl) (cacheLimit s / 2)%nat s) as Hbatch.
    pose proof (reduce_keeps dbManager (λ _ _, eq_refl)
                  (λ _ _, eq_refl) (cacheLimit s / 2)%nat s) as Hdb.
    unfold bind.
    destruct (_reduceCacheSize (cacheLimit s / 2) s) as [[[]|e] s1];
      cbn [fst snd] in *.
    + pose proof (flush_and_forget_ok s1) as Hok.
      pose proof (flush_and_forget_keeps cachedTerms (λ _ _ _, eq_refl) s1) as Hkeep.
      pose proof (flush_and_forget_effect s1) as Heff.
      destruct (flush_and_forget s1) as [[[]|e] s2]; [|done].
      cbn [fst snd] in *.
      rewrite Hkeep, Hcache. split; [done|]. split; [done|]. intros _.
      by rewrite <- Hbatch, <- Hdb.
    + unfold ret. cbn [fst snd].
      rewrite Hcache. split; [done|]. split; [done|]. intros Hfalse. done.
  - intros -> ->. done.
  - intros -> ->. done.
Qed.

Lemma checkMemoryUsage_courses_witness :
  let s := pressured_service in
  let s' := snd (@_checkMemoryUsage Runtime_arrays Elided_spec s) in
  length (cachedTerms s') = 2%nat
  ∧ frequencyUpdateBatch s' = ∅
  ∧ @_checkMemoryUsage Runtime_arrays Elided_spec
      (set_environment 2000 (mkMemory 0 0 (600 * 1048576)) (dbManager s) s)
    = clearCache
        (set_environment 2000 (mkMemory 0 0 (600 * 1048576)) (dbManager s) s).
Proof.
  intros s s'.
  destruct (@checkMemoryUsage_courses Runtime_arrays Elided_spec s)
    as (_ & Hheap & _).
  destruct Hheap as (_ & Hlen & Hflush); [reflexivity|].
  destruct Hflush as [Hbatch _]; [reflexivity|].
  split; [exact Hlen|]. split; [etrans; [exact Hbatch|reflexivity]|].
  destruct (@checkMemoryUsage_courses Runtime_arrays Elided_spec
              (set_environment 2000 (mkMemory 0 0 (600 * 1048576)) (dbManager s) s))
    as (_ & _ & Hrss & _).
  apply Hrss; reflexivity.
Defined.


(* ================================================================== *)
(** * Cache refresh                                                    *)
(* ================================================================== *)

Section Refresh.
Context `{Runtime} `{Elided}.

Lemma rebuild_keeps {X} (f : Service → X) :
  (∀ ix s, f (set_indices ix s) = f s) → keeps f _rebuildTermIndices.
Proof.
  intros Hi s. unfold _rebuildTermIndices.
  destruct (index_terms _ _) as [r ix]. apply Hi.
Qed.

Lemma update_warning_keeps {X} (f : Service → X) :
  (∀ b s, f (set_hasTriggeredWarning b s) = f s) → keeps f update_warning.
Proof.
  intros Hw. apply keeps_modify. intros s.
  destruct (_ && _); [apply Hw|]. destruct (negb _); [apply Hw|done].
Qed.


Lemma after_stamp_keeps_stamp : keeps cacheLastUpdated after_stamp.
Proof.
  unfold after_stamp.
  apply keeps_bind; [by apply rebuild_keeps|]. intros _.
  apply keeps_bind; [by apply update_warning_keeps|]. intros _.
  by apply checkMemoryUsage_keeps.
Qed.

(** The [catch] block of [refreshCache] cannot throw and keeps the stamp. *)

Lemma refresh_handler_ok n s : fst (refresh_handler n s) = Ok ().
Proof. unfold refresh_handler. by destruct (n =? 0)%nat. Qed.

Lemma refresh_handler_keeps_stamp n : keeps cacheLastUpdated (refresh_handler n).
Proof.
  intros s. unfold refresh_handler. destruct (n =? 0)%nat; [|done].
  unfold bind, modify. by rewrite rebuild_keeps.
Qed.

Lemma refresh_handler_keeps_interval n :
  keeps cacheUpdateInterval (refresh_handler n).
Proof.
  intros s. unfold refresh_handler. destruct (n =? 0)%nat; [|done].
  unfold bind, modify. by rewrite rebuild_keeps.
Qed.

Lemma refresh_handler_cache n s :
  cachedTerms (snd (refresh_handler n s))
  = if (n =? 0)%nat then [] else cachedTerms s.
Proof.
  unfold refresh_handler. destruct (n =? 0)%nat; [|done].
  unfold bind, modify. by rewrite rebuild_keeps.
Qed.

(** A cache that was due for a refresh is still due after the [catch]
    block, at any later time. *)
Lemma due_stays_due s s1 now' m' db' :
  cache_is_fresh s = false →
  Date_now s ≤ now' →
  cachedTerms s1 = cachedTerms s →
  cacheLastUpdated s1 = cacheLastUpdated s →
  cacheUpdateInterval s1 = cacheUpdateInterval s →
  cache_is_fresh
    (set_environment now' m' db'
       (snd (refresh_handler (length (cachedTerms s)) s1))) = false.
Proof.
  intros Hdue Hnow Hc Hl Hi. unfold cache_is_fresh in *. simpl.
  rewrite refresh_handler_cache, refresh_handler_keeps_stamp,
    refresh_handler_keeps_interval, Hc, Hl, Hi.
  destruct (cachedTerms s) as [|t ts]; [done|]. simpl in *.
  apply Z.ltb_ge. apply Z.ltb_ge in Hdue. lia.
Qed.

(** [refreshCache], statement by statement. *)
Lemma refreshCache_unfold s :
  refreshCache s
  = if cache_is_fresh s then (Ok (), s)
    else
      let n := length (cachedTerms s) in
      let '(r, (b, db)) := flush_batch (frequencyUpdateBatch s) (dbManager s) in
      let s1 := set_frequencyUpdateBatch b (set_dbManager db s) in
      match r with
      | Throw _ => refresh_handler n s1
      | Ok _ =>
          if connected db then
            let newTerms := take (cacheLimit s) (stable_sort freq_desc (medical_terms db)) in
            let s2 := set_cacheLastUpdated (Date_now s)
                        (set_cachedTerms newTerms (set_dbManager db s1)) in
            match after_stamp s2 with
            | (Ok a, s3) => (Ok a, s3)
            | (Throw _, s3) => refresh_handler n s3
            end
          else refresh_handler n (set_dbManager db s1)
      end.
Proof.
  unfold refreshCache. destruct (cache_is_fresh s); [done|].
  unfold try_catch, bind at 1, _flushFrequencyBatch.
  destruct (flush_batch _ _) as [[[]|e] [b db]]; [|done].
  unfold bind at 1, on_db, getMostFrequentTerms, guarded. simpl.
  destruct (connected db); [|done]. done.
Qed.

Lemma refreshCache_ok s : fst (refreshCache s) = Ok ().
Proof.
  rewrite refreshCache_unfold. destruct (cache_is_fresh s); [done|].
  destruct (flush_batch _ _) as [[[]|e] [b db]]; simpl;
    [|apply refresh_handler_ok].
  destruct (connected db); [|apply refresh_handler_ok].
  destruct (after_stamp _) as [[[]|e] s3]; [done|apply refresh_handler_ok].
Qed.
End Refresh.

(** C9.  A refresh stamps [cacheLastUpdated] with the current time exactly
    when its repository fetch is reached and answers.  When the flush or the
    fetch fails, the stamp is left as it was, and no later call (the clock
    not running backwards) takes the cache for fresh: it goes to the
    repository again. *)
Theorem refreshCache_stamps_only_on_success `{Runtime} `{Elided} (s : Service) :
  let s' := snd (refreshCache s) in
  (fetch_succeeds s = true → cacheLastUpdated s' = Date_now s)
  ∧ (fetch_succeeds s = false → cacheLastUpdated s' = cacheLastUpdated s)
  ∧ (cache_is_fresh s = false → fetch_succeeds s = false →
       ∀ now' m' db', Date_now s ≤ now' →
         cache_is_fresh (set_environment now' m' db' s') = false).
Proof.
  intros s'. subst s'. unfold fetch_succeeds. rewrite refreshCache_unfold.
  destruct (cache_is_fresh s) eqn:Hfresh; simpl.
  { split; [done|]. split; [done|]. done. }
  destruct (flush_batch _ _) as [[[]|e] [b db]]; simpl.
  - destruct (connected db) eqn:Hconn; simpl.
    + split; [|split; [done|done]]. intros _.
      set (s2 := set_cacheLastUpdated _ _).
      pose proof (after_stamp_keeps_stamp s2) as Hkeep.
      destruct (after_stamp s2) as [[[]|e] s3]; simpl in *; [done|].
      by rewrite refresh_handler_keeps_stamp.
    + split; [done|]. rewrite refresh_handler_keeps_stamp. split; [done|].
      intros _ _ now' m' db' Hnow. by apply due_stays_due.
  - split; [done|]. rewrite refresh_handler_keeps_stamp. split; [done|].
    intros _ _ now' m' db' Hnow. by apply due_stays_due.
Qed.

Lemma refreshCache_stamps_only_on_success_witness :
  let s := set_environment 700000 calm_memory (mkDb false [] 0) stale_service in
  let s' := snd (@refreshCache Runtime_arrays Elided_spec s) in
  cacheLastUpdated s' = 1000
  ∧ cache_is_fresh (set_environment 700001 calm_memory (dbManager stale_service) s')
    = false
  ∧ cacheLastUpdated
      (snd (@refreshCache Runtime_arrays Elided_spec
              (set_environment 700001 calm_memory (dbManager stale_service) s')))
    = 700001.
Proof.
  intros s s'.
  destruct (@refreshCache_stamps_only_on_success Runtime_arrays Elided_spec s)
    as (_ & Hkept & Hdue).
  split; [apply Hkept; reflexivity|].
  split; [apply Hdue; [reflexivity|reflexivity|by vm_compute]|].
  destruct (@refreshCache_stamps_only_on_success Runtime_arrays Elided_spec
              (set_environment 700001 calm_memory (dbManager stale_service) s'))
    as (Hstamp & _).
  apply Hstamp. reflexivity.
Defined.


(** C2 fails on the source.  The repository holds a frequent row whose
    [variants] text is not JSON, in front of a sound row.  A refresh of a
    stale, non-empty cache loads both rows and stamps the cache; the rebuild
    throws inside [JSON.parse] at the first row; the [catch] block restores
    nothing because the cache was not empty before.  [refreshCache] returns
    normally with both rows cached and the second one in no index: cache and
    indices are out of sync. *)
Theorem refresh_leaves_indices_behind_cache :
  let out := @refreshCache Runtime_arrays Elided_spec stale_service in
  let s' := snd out in
  fst out = Ok ()
  ∧ cachedTerms s' = [term_malformed; term_sound]
  ∧ cacheLastUpdated s' = 700000
  ∧ termIndexByLength (indices s') = {[ 5%nat := [term_malformed] ]}
  ∧ termIndexByFirstChar (indices s') = {[ "a" := [term_malformed] ]}
  ∧ frequentTermsCache (indices s') = {[ "aorta" := term_malformed ]}
  ∧ exact_lookup (indices s') "bazo" = None
  ∧ ¬ in_sync s'.
Proof.
  assert (Hrun : @refreshCache Runtime_arrays Elided_spec stale_service
                 = (Ok (),
                    mkService (mkDb true [term_malformed; term_sound] 2) 1000
                      (10 * 60 * 1000) (4, 5)%nat [term_malformed; term_sound]
                      700000 false
                      (mkIndices {[ 5%nat := [term_malformed] ]}
                                 {[ "a" := [term_malformed] ]}
                                 {[ "aorta" := term_malformed ]})
                      ∅ [] [] 700000 calm_memory)).
  { vm_compute. reflexivity. }
  intros out s'. subst s' out. rewrite Hrun. simpl.
  repeat (split; [reflexivity|]).
  intros [Hlen _ _ _ _ _]. simpl in Hlen.
  assert (Hin : term_sound ∈ [term_malformed; term_sound])
    by apply list_elem_of_further, list_elem_of_here.
  apply Hlen in Hin. vm_compute in Hin. by apply elem_of_nil in Hin.
Qed.

(** The same unguarded parse on the reduction path: [_reduceCacheSize] throws
    out of the rebuild, after the cache has been cut to the two most
    frequent terms, of which only the first is indexed. *)
Example reduce_throws_on_malformed_variants :
  let out := @_reduceCacheSize Runtime_arrays 2
               (loaded_service [sample_term 3 "colon" "colon" 1;
                                term_sound; term_malformed]) in
  fst out = Throw SyntaxError
  ∧ cachedTerms (snd out) = [term_malformed; term_sound]
  ∧ length_bucket (indices (snd out)) term_sound = [].
Proof. vm_compute. repeat split; reflexivity. Qed.

(* ================================================================== *)
(** * addOrUpdateTerm                                                  *)
(* ================================================================== *)

(** C3 fails on the source.  The cache was loaded a second ago.
    [addOrUpdateTerm] stores the new term and returns its id, but the
    [refreshCache] it calls ("forzar refresco") returns at once because the
    cache is fresh: the term is in the repository and neither in the cache
    nor in any index. *)
Theorem addOrUpdateTerm_does_not_force_refresh :
  let s := loaded_service common_terms in
  let out := @addOrUpdateTerm Runtime_arrays Elided_spec
               (JString "Derrame") (JString "derrame pleural")
               (Some default_options) s in
  let s' := snd out in
  let new_term :=
    created 4 "Derrame" "derrame pleural" None None [] [] in
  cache_is_fresh s = true
  ∧ fst out = Ok (Some 4)
  ∧ medical_terms (dbManager s') = common_terms ++ [new_term]
  ∧ cachedTerms s' = common_terms
  ∧ indices s' = indices s
  ∧ exact_lookup (indices s') "derrame" = None
  ∧ length_bucket (indices s') new_term = []
  ∧ first_char_bucket (indices s') new_term = [].
Proof. vm_compute. repeat split; reflexivity. Qed.

(** Whenever the cache is fresh, [addOrUpdateTerm] writes the repository and
    leaves cache and indices as they were. *)
Lemma addOrUpdateTerm_fresh_cache `{Runtime} `{Elided} h c o s :
  h ≠ EmptyString → c ≠ EmptyString →
  cache_is_fresh s = true →
  connected (dbManager s) = true →
  let out := addOrUpdateTerm (JString h) (JString c) (Some o) s in
  (∃ i, fst out = Ok (Some i))
  ∧ cachedTerms (snd out) = cachedTerms s
  ∧ indices (snd out) = indices s
  ∧ cacheLastUpdated (snd out) = cacheLastUpdated s.
Proof.
  intros Hh Hc Hfresh Hconn out. subst out. unfold addOrUpdateTerm. simpl.
  apply String.eqb_neq in Hh, Hc. rewrite Hh, Hc. simpl.
  unfold try_catch, bind, on_db, addOrUpdateMedicalTerm, guarded.
  rewrite Hconn.
  destruct (upsert _ _) as [rows i]. simpl.
  unfold refreshCache.
  assert (cache_is_fresh
            (set_dbManager
               {| connected := true; medical_terms := rows;
                  last_id := last_id (dbManager s) + 1 |} s) = true) as ->
    by exact Hfresh.
  simpl. eauto.
Qed.

Lemma addOrUpdateTerm_ok `{Runtime} `{Elided} h c o s :
  ∃ r, fst (addOrUpdateTerm h c o s) = Ok r.
Proof.
  unfold addOrUpdateTerm. destruct (_ || _); [by eexists|].
  unfold try_catch. destruct (_ s) as [[r|e] s']; by eexists.
Qed.

Lemma addOrUpdateTerm_validates `{Runtime} `{Elided} h c o s :
  truthy h = false ∨ truthy c = false →
  addOrUpdateTerm h c o s = (Ok None, s).
Proof.
  intros Hv. unfold addOrUpdateTerm.
  by destruct Hv as [-> | ->]; rewrite ?orb_true_r.
Qed.

(* ================================================================== *)
(** * processText                                                      *)
(* ================================================================== *)

(** C1. [processText] never throws, whatever the elided sentence splitter,
    sentence processor, history recorder and block-wise variant do and
    whatever the repository does: it returns a result, and when anything
    inside its [try] block throws, the result is the caller's text with no
    replacements.  The cache refresh made inside the call does not throw
    either, in particular not when the repository fails.  For a text above
    15,000 characters the result is the one the block-wise variant returns,
    a result object by the contract the specification gives that method. *)
Theorem processText_never_throws `{Runtime} `{Elided} `{ElidedLargeText}
    (text' : jsarg) (sp mo : option string) (s : Service) :
  (∃ r s', processText text' sp mo s = (Ok r, s')
           ∧ ∀ e s1, processText_try text' sp mo s = (Throw e, s1) →
                     r = {| text := text'; replacements := [] |} ∧ s' = s1)
  ∧ fst (refreshCache s) = Ok ().
Proof.
  split; [|apply refreshCache_ok].
  unfold processText, try_catch.
  destruct (processText_try text' sp mo s) as [[r|e] s1].
  - exists r, s1. split; [done|]. intros e s2 [=].
  - eexists _, _. split; [done|]. by intros e' s2 [= _ <-].
Qed.

Lemma processText_never_throws_witness :
  fst (@processText Runtime_arrays Elided_faulty (@LargeText_spec Elided_faulty)
         (JString "Aorta normal.") None None offline_service)
  = Ok {| text := JString "Aorta normal."; replacements := [] |}
  ∧ fst (@refreshCache Runtime_arrays Elided_faulty offline_service) = Ok ().
Proof.
  destruct (@processText_never_throws Runtime_arrays Elided_faulty
              (@LargeText_spec Elided_faulty)
              (JString "Aorta normal.") None None offline_service)
    as [(r & s' & Hrun & Hfail) Hrefresh].
  split; [|exact Hrefresh].
  assert (Htry : ∃ e s1,
             @processText_try Runtime_arrays Elided_faulty
               (@LargeText_spec Elided_faulty)
               (JString "Aorta normal.") None None offline_service
             = (Throw e, s1)).
  { vm_compute. eexists _, _. reflexivity. }
  destruct Htry as (e & s1 & Htry).
  destruct (Hfail e s1 Htry) as [-> _].
  rewrite Hrun. reflexivity.
Defined.


(* ================================================================== *)
(** * Spans                                                            *)
(* ================================================================== *)

Lemma append_cons (x : ascii) (a b : string) :
  String x a +:+ b = String x (a +:+ b).
Proof. reflexivity. Qed.

Lemma append_nil (b : string) : EmptyString +:+ b = b.
Proof. reflexivity. Qed.

Lemma append_assoc (a b c : string) : (a +:+ b) +:+ c = a +:+ (b +:+ c).
Proof.
  induction a as [|x a IH]; [done|]. rewrite !append_cons. by f_equal.
Qed.

Lemma append_empty_r (a : string) : a +:+ EmptyString = a.
Proof.
  induction a as [|x a IH]; [done|]. rewrite append_cons. by f_equal.
Qed.

Lemma length_append (a b : string) :
  String.length (a +:+ b) = (String.length a + String.length b)%nat.
Proof.
  induction a as [|x a IH]; [done|]. rewrite append_cons. simpl. by rewrite IH.
Qed.

Lemma substring_skip (pre s : string) (a n : nat) :
  String.substring (a + String.length pre) n (pre +:+ s) = String.substring a n s.
Proof.
  induction pre as [|x pre IH].
  - by rewrite append_nil, Nat.add_0_r.
  - rewrite append_cons. simpl. by rewrite Nat.add_succ_r.
Qed.

Lemma substring_within (s post : string) (a n : nat) :
  (a + n ≤ String.length s)%nat →
  String.substring a n (s +:+ post) = String.substring a n s.
Proof.
  revert a n. induction s as [|x s IH]; intros a n Hlen.
  - simpl in Hlen. assert (a = 0 ∧ n = 0)%nat as [-> ->] by lia.
    rewrite append_nil. by destruct post.
  - rewrite append_cons. simpl in *. destruct a as [|a].
    + destruct n as [|n]; [done|]. f_equal. apply IH. lia.
    + apply IH. lia.
Qed.

Lemma substring_full (s : string) : String.substring 0 (String.length s) s = s.
Proof. induction s as [|x s IH]; simpl; [done|]. by rewrite IH. Qed.

Lemma substring_cut (n : nat) (s : string) :
  String.substring 0 n s +:+ String.substring n (String.length s - n) s = s.
Proof.
  revert s. induction n as [|n IH]; intros s.
  - rewrite Nat.sub_0_r, substring_full. by destruct s.
  - destruct s as [|x s]; [done|]. simpl. rewrite append_cons. by rewrite IH.
Qed.

Lemma length_substring_le (a n : nat) (s : string) :
  (String.length (String.substring a n s) ≤ n)%nat.
Proof.
  revert a n. induction s as [|x s IH]; intros a n; simpl.
  - destruct a, n; simpl; lia.
  - destruct a as [|a]; [|apply IH].
    destruct n as [|n]; simpl; [lia|]. specialize (IH 0%nat n). lia.
Qed.

Lemma join_split_blocks (fuel blockSize : nat) (text' : string) :
  (0 < blockSize)%nat → (String.length text' ≤ fuel)%nat →
  join_strings (split_blocks fuel blockSize text') = text'.
Proof.
  intros Hb. revert text'. induction fuel as [|fuel IH]; intros text' Hfuel.
  - destruct text'; simpl in *; [done|lia].
  - destruct text' as [|x text']; [done|].
    cbn [split_blocks join_strings foldr]. rewrite IH; [apply substring_cut|].
    pose proof (length_substring_le blockSize
                  (String.length (String x text') - blockSize) (String x text')).
    simpl in *. lia.
Qed.

(** A span that is right within [inner] is right, moved by the length of
    what stands in front, within the whole. *)
Lemma has_span_moved (pre inner post : string) (rep rep' : Replacement) :
  has_span inner rep →
  original rep' = original rep →
  textIndices rep'
  = (λ '(start, end_), (start + String.length pre, end_ + String.length pre)%nat)
      <$> textIndices rep →
  has_span (pre +:+ inner +:+ post) rep'.
Proof.
  intros (a & b & Hidx & [Hab Hb] & Hsub) Horig Hmoved.
  rewrite Hidx in Hmoved. simpl in Hmoved.
  exists (a + String.length pre)%nat, (b + String.length pre)%nat.
  split; [done|]. rewrite !length_append. split; [lia|].
  replace (b + String.length pre - (a + String.length pre))%nat with (b - a)%nat by lia.
  rewrite substring_skip, substring_within by lia. congruence.
Qed.

Lemma has_span_widen (inner post : string) (rep : Replacement) :
  has_span inner rep → has_span (inner +:+ post) rep.
Proof.
  intros (a & b & Hidx & [Hab Hb] & Hsub). exists a, b.
  split; [done|]. rewrite length_append. split; [lia|].
  rewrite substring_within by lia. done.
Qed.

Section Spans.
Context `{Runtime} `{Elided}.
Hypothesis split_covers_prefix : segments_text.
Hypothesis sentence_spans : reports_spans.

Lemma process_sentences_spans sentences sp mo pre acc_text acc off s r s' :
  off = String.length pre →
  Forall (has_span (pre +:+ join_strings sentences)) acc →
  process_sentences sentences sp mo acc_text acc off s = (Ok r, s') →
  Forall (has_span (pre +:+ join_strings sentences)) (snd r).
Proof using sentence_spans.
  revert pre acc_text acc off s.
  induction sentences as [|sentence rest IH];
    intros pre acc_text acc off s Hoff Hacc Hrun.
  - simpl in Hrun. by injection Hrun as <- _.
  - cbn [process_sentences] in Hrun. unfold bind in Hrun.
    destruct (_processSentence sentence sp mo s) as [[sr|e] s1] eqn:Hsent;
      [|done].
    apply sentence_spans in Hsent.
    cbn [join_strings foldr]. fold (join_strings rest).
    rewrite <- append_assoc.
    eapply (IH (pre +:+ sentence)); [|  |exact Hrun].
    + rewrite length_append. lia.
    + rewrite append_assoc. apply Forall_app. split; [done|].
      apply Forall_fmap. eapply Forall_impl; [exact Hsent|].
      intros rep Hrep. simpl. subst off.
      by eapply has_span_moved.
Qed.

Lemma process_blocks_spans blocks sp mo pre acc_text acc off s r s' :
  off = String.length pre →
  Forall (has_span (pre +:+ join_strings blocks)) acc →
  process_blocks blocks sp mo acc_text acc off s = (Ok r, s') →
  Forall (has_span (pre +:+ join_strings blocks)) (snd r).
Proof using sentence_spans split_covers_prefix.
  revert pre acc_text acc off s.
  induction blocks as [|block rest IH];
    intros pre acc_text acc off s Hoff Hacc Hrun.
  - simpl in Hrun. by injection Hrun as <- _.
  - cbn [process_blocks] in Hrun. unfold bind at 1, lift in Hrun.
    destruct (_splitIntoSentences block) as [sentences|e] eqn:Hsplit; [|done].
    apply split_covers_prefix in Hsplit as [tail Hsplit].
    unfold bind at 1 in Hrun.
    destruct (process_sentences sentences sp mo EmptyString [] 0%nat s)
      as [[br|e] s1] eqn:Hblock; [|done].
    apply (process_sentences_spans _ _ _ EmptyString) in Hblock; [|done|done].
    rewrite append_nil in Hblock.
    pose proof (Forall_impl _ _ _ Hblock (λ rep, has_span_widen _ tail rep))
      as Hwide.
    rewrite Hsplit in Hwide. clear Hblock.
    cbn [join_strings foldr]. fold (join_strings rest).
    rewrite <- append_assoc.
    eapply (IH (pre +:+ block)); [|  |exact Hrun].
    + rewrite length_append. lia.
    + rewrite append_assoc. apply Forall_app. split; [done|].
      apply Forall_fmap. eapply Forall_impl; [exact Hwide|].
      intros rep Hrep. simpl. subst off.
      by eapply has_span_moved.
Qed.
End Spans.


Lemma sentences_from_join (current rest : string) :
  join_strings (sentences_from current rest) = current +:+ rest.
Proof.
  revert current. induction rest as [|c rest IH]; intros current.
  - simpl. destruct current; [done|]. simpl. by rewrite !append_empty_r.
  - cbn [sentences_from]. destruct (Ascii.eqb c ".").
    + cbn [join_strings foldr]. fold (join_strings (sentences_from EmptyString rest)).
      rewrite IH, append_nil, append_assoc. done.
    + rewrite IH, append_assoc. done.
Qed.

Lemma length_toLowerCase (s : string) :
  String.length (toLowerCase s) = String.length s.
Proof. induction s as [|c s IH]; simpl; [done|]. by rewrite IH. Qed.

Lemma prefix_length (a b : string) :
  String.prefix a b = true → (String.length a ≤ String.length b)%nat.
Proof.
  revert b. induction a as [|x a IH]; intros b Hp; simpl; [lia|].
  destruct b as [|y b]; simpl in *; [done|].
  destruct (ascii_dec x y); [|done]. specialize (IH b Hp). lia.
Qed.

Lemma spec_processSentence_spans : @reports_spans Elided_spec.
Proof.
  intros sentence sp mo s r s'. cbn [_processSentence Elided_spec].
  unfold spec_processSentence.
  destruct (find _ _) as [t|] eqn:Hfind; intros [= <- _]; simpl; [|constructor].
  apply find_some in Hfind as [_ Ht].
  apply andb_true_iff in Ht as [_ Hp]. apply prefix_length in Hp.
  rewrite !length_toLowerCase in Hp.
  apply Forall_singleton. eexists _, _. split; [reflexivity|]. simpl.
  split; [lia|]. by rewrite Nat.sub_0_r.
Qed.

Lemma spec_split_covers : @segments_text Elided_spec.
Proof.
  intros t l [= <-]. exists EmptyString.
  by rewrite append_empty_r, sentences_from_join.
Qed.

(** The block path at work: of the 1200 sentences of [long_text], the one
    cut by the block boundary at 10,000 is not replaced; the first
    replacement of the second block sits at 10,010. *)
Example long_text_blocks :
  match fst (@processText Runtime_arrays Elided_spec (@LargeText_spec Elided_spec)
               (JString long_text) None None (loaded_service common_terms)) with
  | Ok r =>
      (Z.of_nat (length (replacements r)),
       (λ '(a, b), (Z.of_nat a, Z.of_nat b))
         <$> (replacements r !! 769%nat ≫= textIndices))
  | Throw _ => (0, None)
  end = (1199, Some (10010, 10015)).
Proof. vm_compute. reflexivity. Qed.


(* ================================================================== *)
(** * Normal form of the stored heard terms                            *)
(* ================================================================== *)

Lemma lower_unit_idem c : lower_unit (lower_unit c) = lower_unit c.
Proof. destruct c as [[] [] [] [] [] [] [] []]; reflexivity. Qed.

Lemma nocase_lower_unit c : nocase_unit (lower_unit c) = lower_unit c.
Proof. destruct c as [[] [] [] [] [] [] [] []]; reflexivity. Qed.

Lemma space_lower_unit c : is_js_space (lower_unit c) = is_js_space c.
Proof. destruct c as [[] [] [] [] [] [] [] []]; reflexivity. Qed.

Lemma toLowerCase_idem s : toLowerCase (toLowerCase s) = toLowerCase s.
Proof. induction s as [|c s IH]; simpl; [done|]. by rewrite lower_unit_idem, IH. Qed.

Lemma nocase_fold_lower s : nocase_fold (toLowerCase s) = toLowerCase s.
Proof. induction s as [|c s IH]; simpl; [done|]. by rewrite nocase_lower_unit, IH. Qed.

Lemma toLowerCase_empty s : String.eqb (toLowerCase s) EmptyString = String.eqb s EmptyString.
Proof. by destruct s. Qed.

Lemma toLowerCase_trimStart s : toLowerCase (trimStart s) = trimStart (toLowerCase s).
Proof.
  induction s as [|c s IH]; simpl; [done|].
  rewrite space_lower_unit. by destruct (is_js_space c).
Qed.

Lemma toLowerCase_trimEnd s : toLowerCase (trimEnd s) = trimEnd (toLowerCase s).
Proof.
  induction s as [|c s IH]; simpl; [done|].
  rewrite space_lower_unit, <- IH, toLowerCase_empty.
  by destruct (is_js_space c && _).
Qed.

Lemma toLowerCase_trim s : toLowerCase (trim s) = trim (toLowerCase s).
Proof. unfold trim. by rewrite toLowerCase_trimEnd, toLowerCase_trimStart. Qed.

Lemma trimEnd_idem s : trimEnd (trimEnd s) = trimEnd s.
Proof.
  induction s as [|c s IH]; simpl; [done|].
  destruct (is_js_space c && String.eqb (trimEnd s) EmptyString) eqn:Hc; [done|].
  simpl. by rewrite IH, Hc.
Qed.

Lemma trimStart_trimEnd_trimStart s :
  trimStart (trimEnd (trimStart s)) = trimEnd (trimStart s).
Proof.
  induction s as [|c s IH]; simpl; [done|].
  destruct (is_js_space c) eqn:Hc; [done|].
  simpl. rewrite Hc. simpl. by rewrite Hc.
Qed.

Lemma trim_idem s : trim (trim s) = trim s.
Proof. unfold trim. by rewrite trimStart_trimEnd_trimStart, trimEnd_idem. Qed.

Lemma normalized_key h : normalized (trim (toLowerCase h)).
Proof.
  split; [|apply trim_idem].
  by rewrite toLowerCase_trim, toLowerCase_idem.
Qed.

Lemma normalized_fold s : normalized s → nocase_fold s = s.
Proof. intros [Hl _]. rewrite <- Hl. apply nocase_fold_lower. Qed.

(** Between normalized strings the NOCASE comparison is plain equality. *)
Lemma nocase_eqb_normalized a b :
  normalized a → normalized b → nocase_eqb a b = true ↔ a = b.
Proof.
  intros Ha Hb. rewrite nocase_eqb_true, !normalized_fold by done. done.
Qed.

(* ================================================================== *)
(** * The repository: further invariants, lookups and counters        *)
(* ================================================================== *)

Lemma upsert_table_keyed h c sp mo vs cw db :
  table_ok db → table_keyed db →
  table_keyed (snd (addOrUpdateMedicalTerm h c sp mo vs cw db)).
Proof.
  intros [_ _ Hle] [Hnd Hpos Hlast Hnorm _].
  unfold addOrUpdateMedicalTerm, guarded.
  destruct (connected db); [|by split].
  set (ex := {| id := last_id db + 1 |}).
  destruct (upsert_cases ex (medical_terms db))
    as [[_ ->]|(pre & r0 & post & Hrows & _ & ->)]; simpl.
  - split; simpl.
    + rewrite fmap_app. apply NoDup_app. split; [done|].
      split; [|apply NoDup_singleton].
      intros i Hi Hi'%list_elem_of_singleton. subst i.
      apply list_elem_of_fmap in Hi as (r & Hi & Hr).
      rewrite Forall_forall in Hle. specialize (Hle r Hr). simpl in *. lia.
    + apply Forall_app. split; [done|]. apply Forall_singleton. simpl. lia.
    + lia.
    + apply Forall_app. split; [done|]. apply Forall_singleton.
      apply normalized_key.
    + apply Forall_app. split.
      * eapply Forall_impl; [exact Hle|]. intros r Hr. simpl in *. lia.
      * apply Forall_singleton. simpl. lia.
  - rewrite Hrows in *. split; simpl.
    + by rewrite fmap_app, fmap_cons in *.
    + apply Forall_app in Hpos as [? [? ?]%Forall_cons].
      apply Forall_app. split; [done|]. by apply Forall_cons.
    + lia.
    + apply Forall_app in Hnorm as [? [? ?]%Forall_cons].
      apply Forall_app. split; [done|]. by apply Forall_cons.
    + apply Forall_app in Hle as [Hpre [Hr0 Hpost]%Forall_cons].
      apply Forall_app. split.
      * eapply Forall_impl; [exact Hpre|]. intros r Hr. simpl in *. lia.
      * apply Forall_cons. split; [simpl in *; lia|].
        eapply Forall_impl; [exact Hpost|]. intros r Hr. simpl in *. lia.
Qed.

Lemma increment_table_keyed i db :
  table_keyed db → table_keyed (snd (incrementTermFrequency i db)).
Proof.
  intros [Hnd Hpos Hlast Hnorm Hrange]. unfold incrementTermFrequency, guarded.
  destruct (connected db); [|by split]. split; simpl.
  - rewrite <- list_fmap_compose.
    erewrite list_fmap_ext; [exact Hnd|]. intros ? r _. simpl. apply bump_id.
  - apply Forall_fmap. eapply Forall_impl; [exact Hpos|].
    intros r Hr. simpl. by rewrite bump_id.
  - done.
  - apply Forall_fmap. eapply Forall_impl; [exact Hnorm|].
    intros r Hr. simpl. by rewrite bump_heard.
  - apply Forall_fmap. eapply Forall_impl; [exact Hrange|].
    intros r Hr. simpl. by rewrite bump_id.
Qed.

Lemma reachable_keyed db : reachable db → table_keyed db.
Proof.
  induction 1 as [c|db h c sp mo vs cw Hr IH|db i _ IH|db c _ IH].
  - split; simpl; [apply NoDup_nil_2|constructor|done|constructor|constructor].
  - apply upsert_table_keyed; [by apply reachable_table_ok|done].
  - by apply increment_table_keyed.
  - destruct IH. by split.
Qed.

(** X1. In every table the source can produce, ids are positive, pairwise
    different and not beyond the AUTOINCREMENT counter, and every heard
    term is stored lower-cased and trimmed, so that two rows collide under
    NOCASE exactly when their heard terms are equal. *)
Theorem reachable_table_keyed db :
  reachable db →
  table_keyed db
  ∧ ∀ r1 r2, r1 ∈ medical_terms db → r2 ∈ medical_terms db →
             (nocase_eqb (heard_term r1) (heard_term r2) = true
              ↔ heard_term r1 = heard_term r2).
Proof.
  intros Hkeyed%reachable_keyed.
  split; [done|]. intros r1 r2 H1 H2.
  destruct Hkeyed as [_ _ _ Hnorm _]. rewrite Forall_forall in Hnorm.
  apply nocase_eqb_normalized; auto.
Qed.

Lemma reachable_table_keyed_witness :
  table_keyed sample_db2
  ∧ (id <$> medical_terms sample_db2) = [1; 2]
  ∧ (heard_term <$> medical_terms sample_db2) = ["nodulo"; "tac"].
Proof.
  split; [|split; reflexivity].
  apply (reachable_table_keyed sample_db2).
  repeat first [apply reach_increment | apply reach_upsert | apply reach_schema].
Defined.

Lemma find_app_first {A} (P : A → bool) (l1 l2 : list A) :
  find P (l1 ++ l2)
  = match find P l1 with Some x => Some x | None => find P l2 end.
Proof.
  induction l1 as [|x l1 IH]; simpl; [done|]. by destruct (P x).
Qed.

Lemma find_none_all {A} (P : A → bool) (l : list A) :
  (∀ x, x ∈ l → P x = false) → find P l = None.
Proof.
  induction l as [|x l IH]; simpl; intros Hl; [done|].
  rewrite Hl by apply list_elem_of_here.
  apply IH. intros y Hy. apply Hl. by apply list_elem_of_further.
Qed.

(** In a table with unique keys, the rows in front of a colliding row do not
    collide. *)
Lemma unique_heard_front pre r0 post k :
  unique_heard (pre ++ r0 :: post) →
  nocase_eqb (heard_term r0) k = true →
  ∀ r, r ∈ pre ∨ r ∈ post → nocase_eqb (heard_term r) k = false.
Proof.
  unfold unique_heard. rewrite fmap_app, fmap_cons.
  intros Hnd Hr0 r Hr. apply nocase_eqb_true in Hr0.
  apply nocase_eqb_false. rewrite <- Hr0. intros Heq.
  apply NoDup_app in Hnd as (_ & Hdisj & [Hr0post _]%NoDup_cons).
  destruct Hr as [Hr|Hr].
  - apply (Hdisj (nocase_fold (heard_term r0))).
    + rewrite <- Heq. by apply (list_elem_of_fmap_2 (λ r, nocase_fold (heard_term r))).
    + apply list_elem_of_here.
  - apply Hr0post. rewrite <- Heq.
    by apply (list_elem_of_fmap_2 (λ r, nocase_fold (heard_term r))).
Qed.

(** The upsert statement, on a table that satisfies the schema. *)
Lemma upsert_unique excluded rows :
  unique_heard rows →
  ((∀ r, r ∈ rows → nocase_eqb (heard_term r) (heard_term excluded) = false)
   ∧ upsert excluded rows = (rows ++ [excluded], id excluded))
  ∨ (∃ pre r0 post,
       rows = pre ++ r0 :: post
       ∧ nocase_eqb (heard_term r0) (heard_term excluded) = true
       ∧ (∀ r, r ∈ pre ∨ r ∈ post →
               nocase_eqb (heard_term r) (heard_term excluded) = false)
       ∧ upsert excluded rows = (pre ++ on_conflict excluded r0 :: post, id r0)).
Proof.
  intros Hu. destruct (upsert_cases excluded rows)
    as [?|(pre & r0 & post & -> & Hr0 & Hup)]; [by left|].
  right. exists pre, r0, post. repeat split; try done.
  by eapply unique_heard_front.
Qed.

(** X2. After an upsert, [findExactTerm] finds the upserted row under any
    spelling of the heard term that differs only in case and surrounding
    white space, with the id the upsert returned and the fields it wrote;
    lookups of every other heard term answer as before. *)
Theorem findExactTerm_after_upsert db h c sp mo vs cw h' :
  reachable db →
  connected db = true →
  trim (toLowerCase h') = trim (toLowerCase h) →
  let out := addOrUpdateMedicalTerm h c sp mo vs cw db in
  (∃ i row,
     fst out = Ok i
     ∧ findExactTerm h' (snd out) = (Ok (Some row), snd out)
     ∧ id row = i
     ∧ heard_term row = trim (toLowerCase h)
     ∧ correct_term row = trim c
     ∧ specialty row = sp ∧ modality row = mo
     ∧ variants row = Some (JSON_stringify vs)
     ∧ context_words row = Some (JSON_stringify cw))
  ∧ ∀ h'', trim (toLowerCase h'') ≠ trim (toLowerCase h) →
           fst (findExactTerm h'' (snd out)) = fst (findExactTerm h'' db).
Proof.
  intros Hreach Hconn Hkey out.
  pose proof (reachable_table_ok _ Hreach) as [Hu _ _].
  destruct (reachable_keyed _ Hreach) as [_ _ _ Hnorm _].
  rewrite Forall_forall in Hnorm.
  subst out. unfold addOrUpdateMedicalTerm, findExactTerm, guarded.
  rewrite Hconn, Hkey.
  set (key := trim (toLowerCase h)).
  set (ex := {| id := last_id db + 1 |}).
  assert (Hself : nocase_eqb key key = true) by by apply nocase_eqb_true.
  destruct (upsert_unique ex (medical_terms db) Hu)
    as [[Hnone ->]|(pre & r0 & post & Hrows & Hr0 & Hothers & ->)];
    change (heard_term ex) with key in *; simpl.
  - split.
    + exists (last_id db + 1), ex. split; [done|].
      rewrite find_app_first, (find_none_all _ _ Hnone). simpl.
      fold key. rewrite Hself. done.
    + intros h'' Hne. f_equal. rewrite find_app_first.
      destruct (find _ (medical_terms db)); [done|]. simpl.
      assert (nocase_eqb key (trim (toLowerCase h'')) = false) as ->; [|done].
      apply not_true_iff_false. rewrite nocase_eqb_normalized;
        [congruence|apply normalized_key|apply normalized_key].
  - assert (Hin : r0 ∈ medical_terms db) by (rewrite Hrows; set_solver).
    assert (Hheard : heard_term r0 = key).
    { apply nocase_eqb_normalized; [by apply Hnorm|apply normalized_key|done]. }
    split.
    + exists (id r0), (on_conflict ex r0). split; [done|].
      rewrite find_app_first, find_none_all; [|intros r Hr; apply Hothers; auto].
      simpl. rewrite Hr0. done.
    + intros h'' Hne. f_equal. rewrite Hrows, !find_app_first. simpl.
      assert (nocase_eqb (heard_term r0) (trim (toLowerCase h'')) = false) as ->;
        [|done].
      apply not_true_iff_false. rewrite nocase_eqb_normalized;
        [congruence|by apply Hnorm|apply normalized_key].
Qed.

Lemma findExactTerm_after_upsert_witness :
  let out := addOrUpdateMedicalTerm "Tac" "TAC toracico" None None ["tc"] []
               sample_db2 in
  ∃ row,
    fst out = Ok 2
    ∧ fst (findExactTerm "  TAC " (snd out)) = Ok (Some row)
    ∧ correct_term row = "TAC toracico"
    ∧ frequency row = Some 2
    ∧ fst (findExactTerm "Nodulo" (snd out)) = fst (findExactTerm "Nodulo" sample_db2).
Proof.
  intros out.
  destruct (findExactTerm_after_upsert sample_db2 "Tac" "TAC toracico" None None
              ["tc"] [] "  TAC ") as [(i & row & Hi & Hfind & Hid & Hrest) Hother].
  - repeat first [apply reach_increment | apply reach_upsert | apply reach_schema].
  - reflexivity.
  - reflexivity.
  - exists row. split; [reflexivity|].
    split; [exact (f_equal fst Hfind)|].
    split; [exact (proj1 (proj2 Hrest))|].
    split; [|apply Hother; by vm_compute].
    pose proof (f_equal fst Hfind) as Hrow. vm_compute in Hrow.
    injection Hrow as <-. reflexivity.
Defined.

Lemma find_bump P i rows :
  (∀ r, P (bump i r) = P r) →
  find P (bump i <$> rows) = bump i <$> find P rows.
Proof.
  intros HP. induction rows as [|r rows IH]; simpl; [done|].
  rewrite HP. by destruct (P r).
Qed.

(** X3. On a table the source can produce, [incrementTermFrequency] of a
    stored term raises what [getTermFrequency] reports for it by exactly one,
    and leaves the frequency of every other id as it was. *)
Theorem increment_then_frequency db i :
  reachable db →
  connected db = true →
  (∃ r, r ∈ medical_terms db ∧ id r = i) →
  ∃ f,
    getTermFrequency i db = (Ok f, db)
    ∧ 1 ≤ f
    ∧ fst (getTermFrequency i (snd (incrementTermFrequency i db))) = Ok (f + 1)
    ∧ ∀ j, j ≠ i →
           fst (getTermFrequency j (snd (incrementTermFrequency i db)))
           = fst (getTermFrequency j db).
Proof.
  intros Hreach Hconn (r & Hin & Hid).
  pose proof (reachable_table_ok _ Hreach) as [_ Hc _].
  rewrite Forall_forall in Hc.
  unfold getTermFrequency, incrementTermFrequency, guarded. rewrite Hconn.
  simpl.
  assert (Hfind : ∀ j, find (λ r, bool_decide (id r = j))
                         (bump i <$> medical_terms db)
                       = bump i <$> find (λ r, bool_decide (id r = j))
                                     (medical_terms db)).
  { intros j. apply find_bump. intros r'. by rewrite bump_id. }
  destruct (find (λ r, bool_decide (id r = i)) (medical_terms db))
    as [r1|] eqn:Hr1.
  - apply find_some in Hr1 as Hr1'. destruct Hr1' as [Hin1 Hid1].
    apply bool_decide_eq_true in Hid1. apply list_elem_of_In in Hin1.
    destruct (Hc r1 Hin1) as (f & Hf & Hle).
    exists f. rewrite Hf. simpl. split; [done|]. split; [done|]. split.
    + rewrite Hfind, Hr1. simpl. unfold bump.
      rewrite decide_True by done. simpl. by rewrite Hf.
    + intros j Hj. rewrite Hfind.
      destruct (find (λ r0, bool_decide (id r0 = j)) (medical_terms db))
        as [r2|] eqn:Hr2; [|done]. simpl.
      apply find_some in Hr2 as [_ Hid2]. apply bool_decide_eq_true in Hid2.
      unfold bump. rewrite decide_False by congruence. done.
  - exfalso. apply list_elem_of_In in Hin.
    eapply find_none in Hr1; [|exact Hin].
    apply bool_decide_eq_false in Hr1. done.
Qed.

Lemma increment_then_frequency_witness :
  getTermFrequency 1 sample_db2 = (Ok 3, sample_db2)
  ∧ fst (getTermFrequency 1 (snd (incrementTermFrequency 1 sample_db2))) = Ok 4
  ∧ fst (getTermFrequency 2 (snd (incrementTermFrequency 1 sample_db2))) = Ok 1.
Proof.
  destruct (increment_then_frequency sample_db2 1) as (f & Hget & _ & Hinc & Hother).
  - repeat first [apply reach_increment | apply reach_upsert | apply reach_schema].
  - reflexivity.
  - eexists. split; [apply list_elem_of_here|reflexivity].
  - assert (f = 3) as -> by (vm_compute in Hget; congruence).
    split; [exact Hget|]. split; [exact Hinc|].
    rewrite Hother by done. reflexivity.
Defined.

Lemma freq_desc_total a b : freq_desc a b = true ∨ freq_desc b a = true.
Proof.
  unfold freq_desc. destruct (frequency a), (frequency b); auto.
  rewrite !Z.leb_le. lia.
Qed.

Lemma freq_desc_trans a b c :
  freq_desc a b = true → freq_desc b c = true → freq_desc a c = true.
Proof.
  unfold freq_desc.
  destruct (frequency a), (frequency b), (frequency c); try done.
  rewrite !Z.leb_le. lia.
Qed.

(** X4. [getMostFrequentTerms] answers with the [limit] most frequent rows
    (all of them when the table is shorter), most frequent first, a NULL
    frequency counting below every number: the rows returned and the rows
    left out make up the table, and no row left out is more frequent than a
    row returned. *)
Theorem getMostFrequentTerms_top db limit :
  connected db = true →
  ∃ rows rest,
    getMostFrequentTerms limit db = (Ok rows, db)
    ∧ length rows = (limit `min` length (medical_terms db))%nat
    ∧ rows ++ rest ≡ₚ medical_terms db
    ∧ StronglySorted (λ a b, freq_desc a b = true) rows
    ∧ ∀ a b, a ∈ rows → b ∈ rest → freq_desc a b = true.
Proof.
  intros Hconn. unfold getMostFrequentTerms, guarded. rewrite Hconn.
  set (sorted := stable_sort freq_desc (medical_terms db)).
  exists (take limit sorted), (drop limit sorted).
  split; [done|]. split; [|split; [|split]].
  - rewrite length_take. unfold sorted. by rewrite stable_sort_length.
  - rewrite take_drop. apply stable_sort_perm.
  - pose proof (stable_sort_sorted freq_desc freq_desc_total freq_desc_trans
                  (medical_terms db)) as Hs.
    fold sorted in Hs. rewrite <- (take_drop limit sorted) in Hs.
    by apply StronglySorted_app_1_l in Hs.
  - intros a b. apply take_sorted_dominates;
      [apply freq_desc_total|apply freq_desc_trans].
Qed.

Lemma getMostFrequentTerms_top_witness :
  ∃ rows, getMostFrequentTerms 1 sample_db2 = (Ok rows, sample_db2)
          ∧ (heard_term <$> rows) = ["nodulo"].
Proof.
  destruct (getMostFrequentTerms_top sample_db2 1 eq_refl)
    as (rows & rest & Hget & _).
  exists rows. split; [exact Hget|].
  vm_compute in Hget. injection Hget as <-. reflexivity.
Defined.

Lemma like_any s : like "%" s = true.
Proof. induction s as [|c s IH]; simpl in *; [done|]. by rewrite IH. Qed.

(** A LIKE pattern made of a wildcard-free string and a final [%] is a
    prefix test without regard to ASCII case. *)
Lemma like_plain_prefix q s :
  plain q = true → like (q +:+ "%") s = nocase_prefix q s.
Proof.
  revert s. induction q as [|c q IH]; intros s Hq.
  - rewrite append_nil, like_any. by destruct s.
  - rewrite append_cons. simpl in Hq.
    apply andb_true_iff in Hq as [Hc Hq].
    apply andb_true_iff in Hc as [Hpct Hund].
    apply negb_true_iff in Hpct, Hund.
    unfold nocase_prefix. cbn [like nocase_fold String.prefix].
    rewrite Hpct. destruct s as [|d s]; [done|].
    cbn [nocase_fold]. rewrite Hund, IH by done. simpl.
    unfold nocase_prefix.
    destruct (Ascii.eqb_spec (nocase_unit c) (nocase_unit d)) as [Heq|Hne];
      destruct (ascii_dec (nocase_unit c) (nocase_unit d)); done.
Qed.

Lemma freq_desc_len_asc_total a b :
  freq_desc_len_asc a b = true ∨ freq_desc_len_asc b a = true.
Proof.
  unfold freq_desc_len_asc. destruct (frequency a), (frequency b); auto;
    rewrite ?orb_true_iff, ?andb_true_iff, ?Z.ltb_lt, ?Z.eqb_eq, ?Nat.leb_le; lia.
Qed.

Lemma freq_desc_len_asc_trans a b c :
  freq_desc_len_asc a b = true → freq_desc_len_asc b c = true →
  freq_desc_len_asc a c = true.
Proof.
  unfold freq_desc_len_asc.
  destruct (frequency a), (frequency b), (frequency c); try done;
    rewrite ?orb_true_iff, ?andb_true_iff, ?Z.ltb_lt, ?Z.eqb_eq, ?Nat.leb_le; lia.
Qed.

(** X5. For a fragment that holds neither [%] nor [_] once lower-cased and
    trimmed, [findSimilarTerms] is a prefix search without regard to ASCII
    case: it returns at most [limit] rows, each a row of the table whose
    heard term starts with the fragment and which passes the filters, ordered
    by descending frequency and then ascending length; when no more than
    [limit] rows qualify, every qualifying row is returned. *)
Theorem findSimilarTerms_prefix_search db h sp mo limit :
  connected db = true →
  plain (trim (toLowerCase h)) = true →
  let q := trim (toLowerCase h) in
  let qualifies (r : Term) :=
    nocase_prefix q (heard_term r) = true ∧ eligible r sp mo = true in
  ∃ rows,
    findSimilarTerms h sp mo limit db = (Ok rows, db)
    ∧ (length rows ≤ limit)%nat
    ∧ StronglySorted (λ a b, freq_desc_len_asc a b = true) rows
    ∧ (∀ r, r ∈ rows → r ∈ medical_terms db ∧ qualifies r)
    ∧ ((length (filter qualifies (medical_terms db)) ≤ limit)%nat →
       ∀ r, r ∈ medical_terms db → qualifies r → r ∈ rows).
Proof.
  intros Hconn Hplain q qualifies.
  unfold findSimilarTerms, guarded. rewrite Hconn. fold q.
  assert (Hfilter :
    filter (λ t, like (q +:+ "%") (heard_term t) = true ∧ eligible t sp mo = true)
           (medical_terms db)
    = filter qualifies (medical_terms db)).
  { apply list_filter_iff. intros r. unfold qualifies.
    by rewrite like_plain_prefix. }
  rewrite Hfilter.
  set (sorted := stable_sort freq_desc_len_asc (filter qualifies (medical_terms db))).
  exists (take limit sorted). split; [done|]. split; [|split; [|split]].
  - rewrite length_take. lia.
  - pose proof (stable_sort_sorted freq_desc_len_asc freq_desc_len_asc_total
                  freq_desc_len_asc_trans (filter qualifies (medical_terms db)))
      as Hs.
    fold sorted in Hs. rewrite <- (take_drop limit sorted) in Hs.
    by apply StronglySorted_app_1_l in Hs.
  - intros r Hr. apply (subseteq_take limit) in Hr.
    unfold sorted in Hr. rewrite stable_sort_perm in Hr.
    apply list_elem_of_filter in Hr as [? ?]. done.
  - intros Hfew r Hin Hq. rewrite take_ge.
    + unfold sorted. rewrite stable_sort_perm. by apply list_elem_of_filter.
    + unfold sorted. by rewrite stable_sort_length.
Qed.

Lemma findSimilarTerms_prefix_search_witness :
  ∃ rows, findSimilarTerms " NOD" None None 5 sample_db2 = (Ok rows, sample_db2)
          ∧ (heard_term <$> rows) = ["nodulo"].
Proof.
  destruct (findSimilarTerms_prefix_search sample_db2 " NOD" None None 5
              eq_refl eq_refl) as (rows & Hfind & _).
  exists rows. split; [exact Hfind|].
  vm_compute in Hfind. injection Hfind as <-. reflexivity.
Defined.

(** The underscore of a fragment is a wildcard of LIKE: the search for
    [n_d] finds the heard term nodulo, which does not start with it. *)
Example findSimilarTerms_underscore :
  match fst (findSimilarTerms "n_d" None None 5 sample_db2) with
  | Ok rows => heard_term <$> rows
  | Throw _ => []
  end = ["nodulo"]
  ∧ nocase_prefix "n_d" "nodulo" = false.
Proof. split; reflexivity. Qed.

Lemma upsert_here excluded pre r0 post :
  (∀ r, r ∈ pre → nocase_eqb (heard_term r) (heard_term excluded) = false) →
  nocase_eqb (heard_term r0) (heard_term excluded) = true →
  upsert excluded (pre ++ r0 :: post)
  = (pre ++ on_conflict excluded r0 :: post, id r0).
Proof.
  intros Hpre Hr0. induction pre as [|r pre IH]; simpl.
  - by rewrite Hr0.
  - rewrite Hpre by apply list_elem_of_here.
    rewrite IH; [done|]. intros r' Hr'. apply Hpre. by apply list_elem_of_further.
Qed.

Lemma upsert_absent excluded rows :
  (∀ r, r ∈ rows → nocase_eqb (heard_term r) (heard_term excluded) = false) →
  upsert excluded rows = (rows ++ [excluded], id excluded).
Proof.
  intros Hnone. induction rows as [|r rows IH]; simpl; [done|].
  rewrite Hnone by apply list_elem_of_here.
  rewrite IH; [done|]. intros r' Hr'. apply Hnone. by apply list_elem_of_further.
Qed.

(** X6. Upserting one heard term that the table does not hold [n] times in a
    row leaves a single new row for it, at the end of the table, with
    frequency [n] and the id the first call assigned; the rows that were
    there are untouched, and the AUTOINCREMENT counter has advanced by [n],
    once for every call. *)
Theorem upsert_counts_calls db h c sp mo vs cw (n : nat) :
  connected db = true →
  (∀ r, r ∈ medical_terms db →
        nocase_eqb (heard_term r) (trim (toLowerCase h)) = false) →
  (0 < n)%nat →
  Nat.iter n (λ d, snd (addOrUpdateMedicalTerm h c sp mo vs cw d)) db
  = mkDb true
      (medical_terms db
       ++ [counted_row (last_id db + 1) (Z.of_nat n) h c sp mo vs cw])
      (last_id db + Z.of_nat n).
Proof.
  intros Hconn Hnone Hn. destruct n as [|n]; [lia|]. clear Hn.
  induction n as [|n IH].
  - simpl. unfold addOrUpdateMedicalTerm, guarded. rewrite Hconn.
    rewrite upsert_absent by exact Hnone. simpl. done.
  - rewrite Nat.iter_succ, IH.
    unfold addOrUpdateMedicalTerm at 1, guarded. simpl.
    rewrite upsert_here; [|exact Hnone|by apply nocase_eqb_true].
    simpl. unfold on_conflict, counted_row. simpl.
    replace (Z.of_nat (S n) + 1) with (Z.of_nat (S (S n))) by lia.
    f_equal. lia.
Qed.

Lemma upsert_counts_calls_witness :
  Nat.iter 3
    (λ d, snd (addOrUpdateMedicalTerm " Bazo" "bazo" None None [] [] d))
    sample_db2
  = mkDb true
      (medical_terms sample_db2 ++ [counted_row 3 3 " Bazo" "bazo" None None [] []])
      5.
Proof.
  apply (upsert_counts_calls sample_db2 " Bazo" "bazo" None None [] [] 3).
  - reflexivity.
  - intros r Hr. vm_compute in Hr.
    apply elem_of_cons in Hr as [->|Hr]; [reflexivity|].
    apply list_elem_of_singleton in Hr as ->. reflexivity.
  - lia.
Defined.

(* ================================================================== *)
(** * Cache refresh: what is kept and what is loaded                   *)
(* ================================================================== *)

Section RefreshExtra.
Context `{Runtime} `{Elided}.

Lemma refresh_handler_state n s :
  refresh_handler n s
  = if (n =? 0)%nat
    then (Ok (), set_indices empty_indices (set_cachedTerms [] s))
    else (Ok (), s).
Proof. unfold refresh_handler. by destruct (n =? 0)%nat. Qed.

Lemma in_sync_ext s s' :
  cachedTerms s' = cachedTerms s → indices s' = indices s →
  in_sync s → in_sync s'.
Proof.
  intros Hc Hi [H1 H2 H3 H4 H5 H6]. split; rewrite ?Hc, ?Hi; done.
Qed.

Lemma update_warning_state s :
  update_warning s = (Ok (), set_hasTriggeredWarning (near_capacity s) s).
Proof.
  unfold update_warning, modify, near_capacity.
  destruct s as [db lim iv thr ts stamp flag ix b cm rh now mem]. simpl.
  destruct (_ <=? _)%nat, flag; reflexivity.
Qed.

(** X7. When the flush or the fetch of a refresh fails, the call still
    returns normally and the cache is kept: a cache that held terms keeps
    its terms and its indices untouched, an empty cache stays empty with
    empty indices; the capacity warning flag is not touched either. *)
Theorem refreshCache_failure_keeps_cache (s : Service) :
  cache_is_fresh s = false →
  fetch_succeeds s = false →
  let s' := snd (refreshCache s) in
  fst (refreshCache s) = Ok ()
  ∧ (cachedTerms s ≠ [] → cachedTerms s' = cachedTerms s ∧ indices s' = indices s)
  ∧ (cachedTerms s = [] → cachedTerms s' = [] ∧ indices s' = empty_indices)
  ∧ hasTriggeredWarning s' = hasTriggeredWarning s
  ∧ cacheLastUpdated s' = cacheLastUpdated s.
Proof.
  intros Hdue Hfail s'. subst s'. unfold fetch_succeeds in Hfail.
  rewrite refreshCache_unfold, Hdue in *. simpl in Hfail.
  destruct (flush_batch _ _) as [[[]|e] [b db]]; simpl in *.
  - rewrite Hfail, refresh_handler_state.
    destruct (cachedTerms s) as [|t ts] eqn:Hc; simpl; repeat split; try done.
    all: by rewrite ?Hc.
  - rewrite refresh_handler_state.
    destruct (cachedTerms s) as [|t ts] eqn:Hc; simpl; repeat split; try done.
    all: by rewrite ?Hc.
Qed.

(** X8. When the fetch of a refresh is reached and answers, the index
    rebuild completes and neither threshold of the memory monitor is
    exceeded, the cache becomes the [cacheLimit] most frequent rows of the
    repository as the flush left it, most frequent first; the indices are
    those of these rows, in sync; the cache is stamped with the current
    time; and the capacity warning flag tells whether the cache has reached
    [cacheLimit * memoryWarningThreshold]. *)
Theorem refreshCache_loads_top_terms (s : Service) (ix : Indices) :
  let flushed := snd (flush_batch (frequencyUpdateBatch s) (dbManager s)) in
  let newTerms :=
    take (cacheLimit s) (stable_sort freq_desc (medical_terms (snd flushed))) in
  let s' := snd (refreshCache s) in
  fetch_succeeds s = true →
  index_terms newTerms empty_indices = (Ok (), ix) →
  heap_high (memoryUsage s)
    && (cacheLimit s <? 2 * length newTerms)%nat = false →
  rssMemoryMB (memoryUsage s) ≤ 500 →
  fst (refreshCache s) = Ok ()
  ∧ cachedTerms s' = newTerms
  ∧ indices s' = ix
  ∧ in_sync s'
  ∧ cacheLastUpdated s' = Date_now s
  ∧ hasTriggeredWarning s'
    = (cacheLimit s * fst (memoryWarningThreshold s)
       <=? length newTerms * snd (memoryWarningThreshold s))%nat
  ∧ dbManager s' = snd flushed
  ∧ frequencyUpdateBatch s' = fst flushed.
Proof.
  intros flushed newTerms s' Hok Hix Hheap Hrss. subst s' flushed newTerms.
  unfold fetch_succeeds in Hok. rewrite refreshCache_unfold.
  destruct (cache_is_fresh s); [done|]. simpl in Hok.
  destruct (flush_batch _ _) as [[[]|e] [b db]]; [|done].
  cbn [fst snd is_ok andb] in *. rewrite Hok.
  set (newTerms := take (cacheLimit s) (stable_sort freq_desc (medical_terms db))) in *.
  set (s2 := set_cacheLastUpdated _ _).
  assert (Hrebuild : _rebuildTermIndices s2 = (Ok (), set_indices ix s2)).
  { unfold _rebuildTermIndices.
    change (cachedTerms s2) with newTerms. by rewrite Hix. }
  pose proof (rebuild_in_sync _ _ Hrebuild) as Hsync.
  unfold after_stamp, bind. rewrite Hrebuild.
  rewrite update_warning_state.
  set (s3 := set_hasTriggeredWarning _ _).
  unfold _checkMemoryUsage, try_catch.
  change (memoryUsage s3) with (memoryUsage s).
  change (cacheLimit s3) with (cacheLimit s).
  change (cachedTerms s3) with newTerms.
  rewrite Hheap.
  assert ((500 <? rssMemoryMB (memoryUsage s)) = false) as ->
    by (apply Z.ltb_ge; lia).
  cbn [fst snd].
  split; [done|]. split; [done|]. split; [done|].
  split; [by apply (in_sync_ext (set_indices ix s2))|].
  repeat split.
Qed.
End RefreshExtra.

Lemma refreshCache_failure_keeps_cache_witness :
  let s' := snd (@refreshCache Runtime_arrays Elided_spec offline_service) in
  cachedTerms s' = [sample_term 2 "bazo" "bazo" 6]
  ∧ indices s' = indices offline_service.
Proof.
  intros s'.
  destruct (@refreshCache_failure_keeps_cache Runtime_arrays Elided_spec
              offline_service) as (_ & Hkeep & _); [reflexivity|reflexivity|].
  apply Hkeep. vm_compute. discriminate.
Defined.

Lemma refreshCache_loads_top_terms_witness :
  let s' := snd (@refreshCache Runtime_arrays Elided_spec restocked_service) in
  cachedTerms s'
  = [sample_term 2 "aorta" "aorta" 10; sample_term 1 "bazo" "bazo" 8;
     sample_term 3 "colon" "colon" 6]
  ∧ in_sync s'
  ∧ cacheLastUpdated s' = 700000
  ∧ hasTriggeredWarning s' = false.
Proof.
  intros s'.
  destruct (@refreshCache_loads_top_terms Runtime_arrays Elided_spec
              restocked_service
              (snd (@index_terms Runtime_arrays
                      [sample_term 2 "aorta" "aorta" 10;
                       sample_term 1 "bazo" "bazo" 8;
                       sample_term 3 "colon" "colon" 6] empty_indices)))
    as (_ & Hc & _ & Hsync & Hstamp & Hflag & _).
  - reflexivity.
  - vm_compute. reflexivity.
  - reflexivity.
  - vm_compute. discriminate.
  - split; [exact Hc|]. split; [exact Hsync|]. split; [exact Hstamp|].
    exact Hflag.
Defined.

(* ================================================================== *)
(** * The size of the cache                                            *)
(* ================================================================== *)

Section CacheSize.
Context `{Runtime} `{Elided}.

Lemma reduce_length k s :
  length (cachedTerms (snd (_reduceCacheSize k s)))
  = (length (cachedTerms s) `min` k)%nat.
Proof.
  destruct (decide (k < length (cachedTerms s))%nat) as [Hk|Hk].
  - rewrite reduce_cachedTerms by done.
    rewrite length_take, stable_sort_length. lia.
  - unfold _reduceCacheSize.
    destruct (length (cachedTerms s) <=? k)%nat eqn:Hle.
    + simpl. lia.
    + apply Nat.leb_gt in Hle. lia.
Qed.

Lemma checkMemoryUsage_length s :
  (length (cachedTerms (snd (_checkMemoryUsage s))) ≤ length (cachedTerms s))%nat.
Proof.
  unfold _checkMemoryUsage, try_catch.
  destruct (_ && _).
  - unfold bind.
    pose proof (reduce_length (cacheLimit s / 2) s) as Hlen.
    destruct (_reduceCacheSize _ s) as [[[]|e] s1]; unfold ret;
      cbn [fst snd] in *; [|rewrite Hlen; apply Nat.le_min_l].
    pose proof (flush_and_forget_keeps cachedTerms (λ _ _ _, eq_refl) s1) as Hf.
    destruct (flush_and_forget s1) as [[[]|e] s2]; cbn [fst snd] in *.
    all: rewrite Hf, Hlen; apply Nat.le_min_l.
  - destruct (500 <? _); simpl; lia.
Qed.

Lemma after_stamp_length s :
  (length (cachedTerms (snd (after_stamp s))) ≤ length (cachedTerms s))%nat.
Proof.
  unfold after_stamp, bind.
  pose proof (rebuild_keeps_cachedTerms s) as Hr.
  destruct (_rebuildTermIndices s) as [[[]|e] s1]; cbn [fst snd] in *;
    [|by rewrite Hr].
  rewrite update_warning_state. cbn [fst snd].
  pose proof (checkMemoryUsage_length
                (set_hasTriggeredWarning (near_capacity s1) s1)) as Hm.
  destruct (_checkMemoryUsage _) as [[[]|e] s2]; cbn [fst snd] in *;
    by rewrite <- Hr.
Qed.

Lemma refresh_handler_length n s :
  (length (cachedTerms (snd (refresh_handler n s))) ≤ length (cachedTerms s))%nat.
Proof. rewrite refresh_handler_cache. destruct (n =? 0)%nat; simpl; lia. Qed.

Lemma after_stamp_keeps_limit : keeps cacheLimit after_stamp.
Proof.
  unfold after_stamp.
  apply keeps_bind; [by apply rebuild_keeps|]. intros _.
  apply keeps_bind; [by apply update_warning_keeps|]. intros _.
  by apply checkMemoryUsage_keeps.
Qed.

Lemma refresh_handler_keeps_limit n : keeps cacheLimit (refresh_handler n).
Proof.
  intros s. unfold refresh_handler. destruct (n =? 0)%nat; [|done].
  unfold bind, modify. by rewrite rebuild_keeps.
Qed.

Lemma refreshCache_keeps_limit : keeps cacheLimit refreshCache.
Proof.
  intros s. rewrite refreshCache_unfold. destruct (cache_is_fresh s); [done|].
  destruct (flush_batch _ _) as [[[]|e] [b db]]; cbn zeta.
  - destruct (connected db).
    + set (s2 := set_cacheLastUpdated _ _).
      pose proof (after_stamp_keeps_limit s2) as Ha.
      destruct (after_stamp s2) as [[[]|e] s3]; simpl in *; [done|].
      by rewrite refresh_handler_keeps_limit.
    + by rewrite refresh_handler_keeps_limit.
  - by rewrite refresh_handler_keeps_limit.
Qed.

Lemma refreshCache_within_limit s :
  within_limit s → within_limit (snd (refreshCache s)).
Proof.
  unfold within_limit. intros Hs.
  rewrite refreshCache_keeps_limit. rewrite refreshCache_unfold.
  destruct (cache_is_fresh s); [done|].
  destruct (flush_batch _ _) as [[[]|e] [b db]]; cbn zeta.
  - destruct (connected db).
    + set (s2 := set_cacheLastUpdated _ _).
      assert (length (cachedTerms s2) ≤ cacheLimit s)%nat as Hs2.
      { subst s2. simpl. rewrite length_take. lia. }
      pose proof (after_stamp_length s2) as Ha.
      destruct (after_stamp s2) as [[[]|e] s3]; simpl in *; [lia|].
      pose proof (refresh_handler_length (length (cachedTerms s)) s3). lia.
    + etrans; [apply refresh_handler_length|done].
  - etrans; [apply refresh_handler_length|done].
Qed.

(** X9. The cache never outgrows its limit: from a state whose cache holds
    at most [cacheLimit] terms (the constructor's state does), a refresh, a
    tick of the memory monitor, a reduction, a clearing and the adding of a
    term all end in such a state, whether they fail or not, and each leaves
    [cacheLimit] at the value it had. *)
Theorem cache_stays_within_limit (s : Service) :
  within_limit s →
  keeps_within s refreshCache
  ∧ keeps_within s _checkMemoryUsage
  ∧ (∀ k, keeps_within s (_reduceCacheSize k))
  ∧ keeps_within s clearCache
  ∧ (∀ h c o, keeps_within s (addOrUpdateTerm h c o)).
Proof.
  intros Hs. unfold keeps_within.
  split; [split; [apply refreshCache_keeps_limit|by apply refreshCache_within_limit]|].
  split.
  { split; [by apply (checkMemoryUsage_keeps cacheLimit)|].
    unfold within_limit in *. rewrite (checkMemoryUsage_keeps cacheLimit) by done.
    etrans; [apply checkMemoryUsage_length|done]. }
  split.
  { intros k. split; [by apply (reduce_keeps cacheLimit)|].
    unfold within_limit in *. rewrite (reduce_keeps cacheLimit) by done.
    rewrite reduce_length. lia. }
  split.
  { unfold within_limit, clearCache, modify. simpl. split; [done|lia]. }
  intros h c o. unfold addOrUpdateTerm.
  destruct (_ || _); [done|].
  unfold try_catch.
  destruct o as [o|], h as [| |h| |], c as [| |c| |]; try done.
  unfold bind at 1 3, on_db.
  destruct (addOrUpdateMedicalTerm _ _ _ _ _ _ _) as [[i|e] db] eqn:Hup;
    simpl; [|done].
  unfold bind.
  pose proof (refreshCache_within_limit (set_dbManager db s) Hs) as Hr.
  pose proof (refreshCache_keeps_limit (set_dbManager db s)) as Hl.
  by destruct (refreshCache _) as [[[]|e] s1].
Qed.
End CacheSize.

Lemma cache_stays_within_limit_witness :
  @keeps_within unit restocked_service
    (@refreshCache Runtime_arrays Elided_spec)
  ∧ @keeps_within unit restocked_service
      (@_checkMemoryUsage Runtime_arrays Elided_spec).
Proof.
  destruct (@cache_stays_within_limit Runtime_arrays Elided_spec
              restocked_service) as (Hr & Hm & _).
  - unfold within_limit. vm_compute. lia.
  - split; [exact Hr|exact Hm].
Defined.

(* ================================================================== *)
(** * Reducing the cache in steps                                      *)
(* ================================================================== *)

Lemma stable_sort_sorted_id {A} (before : A → A → bool) (l : list A) :
  StronglySorted (λ a b, before a b = true) l → stable_sort before l = l.
Proof.
  induction 1 as [|x l Hl IH Hx]; [done|].
  simpl. fold (stable_sort before l). rewrite IH.
  destruct l as [|y l']; [done|]. simpl.
  apply Forall_cons in Hx as [-> _]. done.
Qed.

Lemma StronglySorted_take {A} (R : A → A → Prop) (k : nat) (l : list A) :
  StronglySorted R l → StronglySorted R (take k l).
Proof.
  intros Hl. rewrite <- (take_drop k l) in Hl.
  by apply StronglySorted_app_1_l in Hl.
Qed.

Section ReduceTwice.
Context `{Runtime}.

(** X10. Reducing the cache to [k] terms and then to [j ≤ k] terms leaves
    the service in the state that reducing it to [j] terms at once does:
    the same terms in the same order, with the same indices.  In
    particular a reduction repeated with the same limit changes nothing. *)
Theorem reduceCacheSize_in_steps (j k : nat) (s : Service) :
  (j ≤ k)%nat →
  snd (_reduceCacheSize j (snd (_reduceCacheSize k s)))
  = snd (_reduceCacheSize j s).
Proof.
  intros Hjk.
  destruct (decide (k < length (cachedTerms s))%nat) as [Hk|Hk]; cycle 1.
  { unfold _reduceCacheSize at 2.
    destruct (length (cachedTerms s) <=? k)%nat eqn:Hle; [done|].
    apply Nat.leb_gt in Hle. lia. }
  assert (Hlen : length (cachedTerms (snd (_reduceCacheSize k s))) = k).
  { rewrite reduce_cachedTerms by done.
    rewrite length_take, stable_sort_length. lia. }
  destruct (decide (j = k)) as [->|Hne].
  { unfold _reduceCacheSize at 1. rewrite Hlen, Nat.leb_refl. done. }
  rewrite (reduce_shape j (snd (_reduceCacheSize k s))) by lia.
  rewrite (reduce_shape j s) by lia.
  rewrite (reduce_cachedTerms k s) by done.
  rewrite stable_sort_sorted_id; cycle 1.
  { apply StronglySorted_take, stable_sort_sorted.
    - apply by_frequency_desc_total.
    - apply by_frequency_desc_trans. }
  rewrite take_take. replace (j `min` k)%nat with j by lia.
  rewrite (reduce_shape k s) by done.
  unfold _rebuildTermIndices. simpl.
  destruct (index_terms (take k _) _) as [r1 ix1].
  destruct (index_terms (take j _) _) as [r2 ix2].
  by destruct s.
Qed.
End ReduceTwice.

Lemma reduceCacheSize_in_steps_witness :
  snd (@_reduceCacheSize Runtime_arrays 1
         (snd (@_reduceCacheSize Runtime_arrays 2 (loaded_service common_terms))))
  = snd (@_reduceCacheSize Runtime_arrays 1 (loaded_service common_terms)).
Proof.
  apply (@reduceCacheSize_in_steps Runtime_arrays 1 2
           (loaded_service common_terms)).
  lia.
Defined.

(* ================================================================== *)
(** * What a completed index rebuild holds                             *)
(* ================================================================== *)

Lemma bucket_of_default {K} `{EqDecision K} (key : Term → K) k ts
    (o : option (list Term)) :
  (o = None ∨ ∃ l, o = Some l ∧ l ≠ []) →
  default [] o = filter (λ t, key t = k) ts →
  o = bucket_of key k ts.
Proof.
  unfold bucket_of. intros [->|(l & -> & Hl)] Hd; simpl in *.
  - rewrite <- Hd. by rewrite decide_True.
  - rewrite <- Hd. by rewrite decide_False.
Qed.

Section Buckets.
Context `{Runtime}.

Lemma index_terms_length_nonempty ts ix ix' :
  index_terms ts ix = (Ok (), ix') →
  (∀ n l, termIndexByLength ix !! n = Some l → l ≠ []) →
  ∀ n l, termIndexByLength ix' !! n = Some l → l ≠ [].
Proof.
  revert ix. induction ts as [|t ts IH]; simpl; intros ix Hix Hne.
  - by injection Hix as <-.
  - pose proof (index_term_length t ix) as Hl.
    destruct (index_term t ix) as [[?|e] ix1]; [|done]. simpl in Hl.
    apply (IH _ Hix). intros n l. rewrite Hl. unfold push_bucket.
    intros [[_ <-]|[_ Hn]]%lookup_insert_Some; [|by eapply Hne].
    by destruct (default [] _).
Qed.

Lemma index_terms_first_char_nonempty ts ix ix' :
  index_terms ts ix = (Ok (), ix') →
  (∀ c l, termIndexByFirstChar ix !! c = Some l → l ≠ []) →
  ∀ c l, termIndexByFirstChar ix' !! c = Some l → l ≠ [].
Proof.
  revert ix. induction ts as [|t ts IH]; simpl; intros ix Hix Hne.
  - by injection Hix as <-.
  - pose proof (index_term_first_char t ix) as Hl.
    destruct (index_term t ix) as [[?|e] ix1]; [|done]. simpl in Hl.
    apply (IH _ Hix). intros c l. rewrite Hl. unfold push_bucket.
    intros [[_ <-]|[_ Hn]]%lookup_insert_Some; [|by eapply Hne].
    by destruct (default [] _).
Qed.

(** X11. After a rebuild that completes, the bucket of the length index
    under [n] is the list of the cached terms whose lower-cased heard term
    has [n] code units, in cache order and as often as the cache holds
    them, and there is no bucket where there is no such term; likewise for
    the index by first character. *)
Theorem rebuild_buckets_exact (s s' : Service) :
  _rebuildTermIndices s = (Ok (), s') →
  (∀ n, termIndexByLength (indices s') !! n
        = bucket_of length_key n (cachedTerms s'))
  ∧ (∀ c, termIndexByFirstChar (indices s') !! c
          = bucket_of first_char_key c (cachedTerms s')).
Proof.
  unfold _rebuildTermIndices.
  destruct (index_terms (cachedTerms s) empty_indices) as [r ix] eqn:Hix.
  intros [= -> <-]. simpl. split.
  - intros n. apply bucket_of_default.
    + destruct (termIndexByLength ix !! n) as [l|] eqn:Hl; [|by left].
      right. exists l. split; [done|].
      eapply (index_terms_length_nonempty _ _ _ Hix); [|done].
      intros n' l'. simpl. by rewrite lookup_empty.
    + rewrite (index_terms_length _ _ _ n Hix). simpl.
      by rewrite lookup_empty.
  - intros c. apply bucket_of_default.
    + destruct (termIndexByFirstChar ix !! c) as [l|] eqn:Hl; [|by left].
      right. exists l. split; [done|].
      eapply (index_terms_first_char_nonempty _ _ _ Hix); [|done].
      intros c' l'. simpl. by rewrite lookup_empty.
    + rewrite (index_terms_first_char _ _ _ c Hix). simpl.
      by rewrite lookup_empty.
Qed.

Lemma variant_keys_cons e vs :
  variant_keys (e :: vs)
  = match e with
    | EString v =>
        if String.eqb v EmptyString then variant_keys vs
        else toLowerCase v :: variant_keys vs
    | ENonString _ => variant_keys vs
    end.
Proof.
  unfold variant_keys. destruct e as [v|b]; [|done].
  simpl. by destruct (String.eqb v EmptyString).
Qed.

Lemma lookup_insert_decide (fc : gmap string Term) (k0 k : string) t l :
  (if decide (k ∈ l) then Some t else <[k0 := t]> fc !! k)
  = if decide (k ∈ k0 :: l) then Some t else fc !! k.
Proof.
  destruct (decide (k ∈ l)) as [Hin|Hnin].
  - destruct (decide (k ∈ k0 :: l)) as [|Hn]; [done|].
    destruct Hn. by apply list_elem_of_further.
  - destruct (decide (k = k0)) as [->|Hne].
    + rewrite lookup_insert_eq.
      destruct (decide (k0 ∈ k0 :: l)) as [|Hn]; [done|].
      destruct Hn. apply list_elem_of_here.
    + rewrite lookup_insert_ne by done.
      destruct (decide (k ∈ k0 :: l)) as [[?|?]%elem_of_cons|]; done.
Qed.

Lemma add_variants_lookup t vs fc fc' k :
  add_variants t vs fc = (Ok (), fc') →
  fc' !! k = if decide (k ∈ variant_keys vs) then Some t else fc !! k.
Proof.
  revert fc. induction vs as [|e vs IH]; intros fc Hvs.
  - injection Hvs as <-.
    destruct (decide _) as [Hin|]; [by apply elem_of_nil in Hin|done].
  - rewrite variant_keys_cons. destruct e as [v|[]]; simpl in Hvs.
    + destruct (String.eqb v EmptyString); [by apply IH|].
      rewrite (IH _ Hvs). apply lookup_insert_decide.
    + done.
    + by apply IH.
Qed.

Lemma index_term_frequent_lookup t ix ix' k :
  index_term t ix = (Ok (), ix') →
  frequentTermsCache ix' !! k
  = if decide (k ∈ frequent_keys t) then Some t else frequentTermsCache ix !! k.
Proof.
  unfold index_term, frequent_keys. destruct (is_frequent t); cycle 1.
  { by intros [= <-]. }
  destruct (parse_variants t) as [[vs|]|e]; [| |done].
  - destruct (add_variants _ _ _) as [r fc'] eqn:Hvs.
    intros [= -> <-]. cbn [frequentTermsCache].
    rewrite (add_variants_lookup _ _ _ _ k Hvs).
    apply lookup_insert_decide.
  - intros [= <-]. cbn [frequentTermsCache].
    rewrite <- (lookup_insert_decide _ _ _ _ []).
    destruct (decide _) as [Hin|]; [by apply elem_of_nil in Hin|done].
Qed.

Lemma index_terms_frequent_lookup ts ix ix' k :
  index_terms ts ix = (Ok (), ix') →
  frequentTermsCache ix' !! k
  = match last (filter (λ t, k ∈ frequent_keys t) ts) with
    | Some t => Some t
    | None => frequentTermsCache ix !! k
    end.
Proof.
  revert ix. induction ts as [|t ts IH]; simpl; intros ix Hix.
  - by injection Hix as <-.
  - destruct (index_term t ix) as [[[]|e] ix1] eqn:Hone; [|done].
    rewrite (IH _ Hix), (index_term_frequent_lookup _ _ _ k Hone).
    rewrite filter_cons. destruct (decide (k ∈ frequent_keys t)); [|done].
    rewrite last_cons. by destruct (last _).
Qed.

Lemma variant_keys_lower vs k : k ∈ variant_keys vs → toLowerCase k = k.
Proof.
  unfold variant_keys. rewrite list_elem_of_omap.
  intros ([v|b] & _ & Hk); [|done].
  destruct (String.eqb v EmptyString); [done|].
  injection Hk as <-. apply toLowerCase_idem.
Qed.

Lemma frequent_keys_lower t k : k ∈ frequent_keys t → toLowerCase k = k.
Proof.
  unfold frequent_keys. destruct (is_frequent t); [|by intros ?%elem_of_nil].
  intros [->|Hk]%elem_of_cons; [apply toLowerCase_idem|].
  destruct (parse_variants t) as [[vs|]|e];
    [by eapply variant_keys_lower|by apply elem_of_nil in Hk..].
Qed.

(** X12. After a rebuild that completes, the frequent-lookup map holds
    under a key the last cached term that files itself under it: a term
    with frequency above 5 whose lower-cased heard term or one of whose
    lower-cased non-empty variants is the key.  A later term takes the key
    of an earlier one, and every key is in lower case. *)
Theorem rebuild_frequent_last_wins (s s' : Service) :
  _rebuildTermIndices s = (Ok (), s') →
  (∀ k, frequentTermsCache (indices s') !! k
        = last (filter (λ t, k ∈ frequent_keys t) (cachedTerms s')))
  ∧ (∀ k t, frequentTermsCache (indices s') !! k = Some t →
            toLowerCase k = k).
Proof.
  unfold _rebuildTermIndices.
  destruct (index_terms (cachedTerms s) empty_indices) as [r ix] eqn:Hix.
  intros [= -> <-]. simpl.
  assert (Hlook : ∀ k, frequentTermsCache ix !! k
            = last (filter (λ t, k ∈ frequent_keys t) (cachedTerms s))).
  { intros k. rewrite (index_terms_frequent_lookup _ _ _ k Hix). simpl.
    rewrite lookup_empty. by destruct (last _). }
  split; [done|]. intros k t. rewrite Hlook. intros Hk.
  apply last_Some_elem_of, list_elem_of_filter in Hk as [Hk _].
  by eapply frequent_keys_lower.
Qed.
End Buckets.

Lemma rebuild_buckets_exact_witness :
  termIndexByLength (indices (loaded_service common_terms)) !! 5%nat
  = Some [sample_term 2 "aorta" "aorta" 10; sample_term 3 "colon" "colon" 6]
  ∧ termIndexByFirstChar (indices (loaded_service common_terms)) !! "z" = None.
Proof.
  destruct (@rebuild_buckets_exact Runtime_arrays
              (set_cacheLastUpdated 1000
                 (set_cachedTerms common_terms
                    (new_Service (mkDb true common_terms 3) 2000 calm_memory)))
              (loaded_service common_terms)) as [Hlen Hchar].
  - vm_compute. reflexivity.
  - split; [apply Hlen|apply Hchar].
Defined.

Lemma rebuild_frequent_last_wins_witness :
  frequentTermsCache (indices (loaded_service shadowed_terms)) !! "aorta"
  = Some term_alias.
Proof.
  destruct (@rebuild_frequent_last_wins Runtime_arrays
              (set_cacheLastUpdated 1000
                 (set_cachedTerms shadowed_terms
                    (new_Service (mkDb true shadowed_terms 3) 2000 calm_memory)))
              (loaded_service shadowed_terms)) as [Hlook _].
  - vm_compute. reflexivity.
  - rewrite Hlook. vm_compute. reflexivity.
Defined.

(* ================================================================== *)
(** * The public methods at their edges                                *)
(* ================================================================== *)

Lemma trimStart_all_space s : all_space s = true → trimStart s = EmptyString.
Proof.
  induction s as [|c s IH]; simpl; [done|].
  intros [Hc Hs]%andb_prop. rewrite Hc. auto.
Qed.

Lemma trimStart_empty_all_space s :
  trimStart s = EmptyString → all_space s = true.
Proof.
  induction s as [|c s IH]; simpl; [done|].
  destruct (is_js_space c); [auto|done].
Qed.

Lemma trimEnd_empty_all_space s :
  trimEnd s = EmptyString → all_space s = true.
Proof.
  induction s as [|c s IH]; simpl; [done|].
  destruct (is_js_space c); simpl; [|done].
  destruct (trimEnd s); [auto|done].
Qed.

Lemma trim_empty_all_space s : trim s = EmptyString ↔ all_space s = true.
Proof.
  unfold trim. split.
  - intros Ht%trimEnd_empty_all_space.
    induction s as [|c s IH]; simpl in *; [done|].
    destruct (is_js_space c) eqn:Hc; simpl in *; [auto|].
    by rewrite Hc in Ht.
  - intros Hs. by rewrite trimStart_all_space.
Qed.

(** X13. [processText] hands back an argument that holds nothing to
    process: for a falsy value, a string of white space only, or a value
    that is not a string, the result is the argument itself with no
    replacements, and the service is left as it was: no refresh even of a
    stale cache, no flush, no recorded history. *)
Theorem processText_nothing_to_process `{Runtime} `{Elided} `{ElidedLargeText}
    (text' : jsarg) (sp mo : option string) (s : Service) :
  nothing_to_process text' = true →
  processText text' sp mo s
  = (Ok {| text := text'; replacements := [] |}, s).
Proof.
  intros Hn. unfold processText, try_catch, processText_try.
  destruct text' as [| |t| |]; try done.
  simpl in Hn. apply trim_empty_all_space in Hn. rewrite Hn.
  by rewrite String.eqb_refl, orb_true_r.
Qed.

Lemma processText_nothing_to_process_witness :
  cache_is_fresh stale_service = false
  ∧ @processText Runtime_arrays Elided_spec (@LargeText_spec Elided_spec)
      (JString "   ") None None stale_service
    = (Ok {| text := JString "   "; replacements := [] |}, stale_service).
Proof.
  split; [reflexivity|].
  apply (@processText_nothing_to_process Runtime_arrays Elided_spec
           (@LargeText_spec Elided_spec)).
  reflexivity.
Defined.

(** X14. [addOrUpdateTerm] never throws, and it returns an id exactly when
    both terms are non-empty strings, the options are not null and the
    repository stores the term: the id is the one the repository returned.
    In every other case it returns null.  The refresh that follows the
    write cannot lose the id, whether it fails or not. *)
Theorem addOrUpdateTerm_returns_id `{Runtime} `{Elided}
    (h c : jsarg) (o : option TermOptions) (s : Service) :
  (∃ r, fst (addOrUpdateTerm h c o s) = Ok r)
  ∧ ∀ i, fst (addOrUpdateTerm h c o s) = Ok (Some i)
         ↔ ∃ h' c' o',
             h = JString h' ∧ c = JString c' ∧ o = Some o'
             ∧ h' ≠ EmptyString ∧ c' ≠ EmptyString
             ∧ fst (addOrUpdateMedicalTerm h' c' (opt_specialty o')
                      (opt_modality o') (opt_variants o') (opt_contextWords o')
                      (dbManager s)) = Ok i.
Proof.
  split; [apply addOrUpdateTerm_ok|]. intros i.
  unfold addOrUpdateTerm.
  destruct h as [| |h| |]; simpl;
    try (split; [done|by intros (?&?&?&?&_)]).
  2:{ split; [|by intros (?&?&?&?&_)].
      destruct (negb (truthy c)); [done|]. unfold try_catch.
      by destruct o, c. }
  destruct (String.eqb_spec h EmptyString) as [->|Hh]; simpl.
  { split; [done|]. by intros (?&?&?&[= <-]&_&_&?&_). }
  destruct c as [| |c| |]; simpl;
    try (split; [done|by intros (?&?&?&_&?&_)]).
  2:{ unfold try_catch. destruct o; simpl;
        (split; [done|by intros (?&?&?&_&?&_)]). }
  destruct (String.eqb_spec c EmptyString) as [->|Hc]; simpl.
  { split; [done|]. by intros (?&?&?&_&[= <-]&_&_&?&_). }
  unfold try_catch. destruct o as [o|]; simpl;
    [|split; [done|by intros (?&?&?&_&_&?&_)]].
  unfold bind at 1, on_db.
  destruct (addOrUpdateMedicalTerm _ _ _ _ _ _ _) as [[j|e] db] eqn:Hup; simpl.
  - unfold bind. pose proof (refreshCache_ok (set_dbManager db s)) as Hr.
    destruct (refreshCache _) as [[[]|e] s1]; [|done]. simpl.
    split.
    + intros [= <-]. exists h, c, o. by rewrite Hup.
    + intros (?&?&?&[= <-]&[= <-]&[= <-]&_&_&Hi).
      rewrite Hup in Hi. by injection Hi as <-.
  - split; [done|]. intros (?&?&?&[= <-]&[= <-]&[= <-]&_&_&Hi).
    by rewrite Hup in Hi.
Qed.

(* ================================================================== *)
(** * The callers in the controller                                    *)
(* ================================================================== *)

Section Callers.
Context `{Runtime} `{Elided} `{ElidedLargeText}.

Lemma processText_ok t sp mo s : ∃ r, fst (processText t sp mo s) = Ok r.
Proof.
  unfold processText, try_catch.
  destruct (processText_try t sp mo s) as [[r|e] s1]; by eexists.
Qed.

Lemma addOrUpdateTerm_closed h c o s :
  connected (dbManager s) = false →
  fst (addOrUpdateTerm h c o s) = Ok None.
Proof.
  intros Hc. unfold addOrUpdateTerm. destruct (_ || _); [done|].
  unfold try_catch.
  destruct o as [o|], h as [| |h| |], c as [| |c| |]; try done.
  unfold bind at 1, on_db, addOrUpdateMedicalTerm, guarded. by rewrite Hc.
Qed.

(** X15. What the renderer is told when a dictation stops: the payload
    always carries the transcription as [original]; a transcription that
    is not empty never arrives empty as [processed], also when the term
    service hands back an empty text; the count of replacements is the
    number of the details sent along; and without a term service, or for an
    empty transcription, the transcription goes out unprocessed and the
    service is not called. *)
Theorem dictationStopped_payload (transcription : jsarg) (st : Controller.State) :
  let out := Controller.dictationStopped transcription st in
  Controller.original (fst out) = transcription
  ∧ (truthy transcription = true → truthy (Controller.processed (fst out)) = true)
  ∧ Controller.replacementsMade (fst out)
    = length (Controller.replacementDetails (fst out))
  ∧ (Controller.termReplacementService st = None ∨ truthy transcription = false →
     out = (Controller.unprocessed transcription, st))
  ∧ (Controller.processed (fst out) ≠ transcription →
     ∃ s r, Controller.termReplacementService st = Some s
            ∧ fst (processText transcription (Controller.report_specialty st)
                     (Controller.report_modality st) s) = Ok r
            ∧ Controller.processed (fst out) = text r
            ∧ Controller.replacementDetails (fst out) = replacements r).
Proof.
  unfold Controller.dictationStopped.
  destruct (Controller.termReplacementService st) as [s|] eqn:Hs; cycle 1.
  { simpl. repeat split; try done. }
  destruct (truthy transcription) eqn:Ht; cycle 1.
  { simpl. repeat split; try done. }
  destruct (processText _ _ _ s) as [[r|e] s'] eqn:Hp; simpl; cycle 1.
  { repeat split; try done. by intros [|]. }
  unfold Controller.or_else.
  split; [done|]. split; [by destruct (truthy (text r)) eqn:Hr|].
  split; [done|]. split; [by intros [|]|].
  intros Hne. exists s, r. destruct (truthy (text r)); [|done].
  by rewrite Hp.
Qed.

(** X16. With a term service in place the two IPC handlers always answer
    [success: true]: [process-medical-text] with the result of
    [processText], [add-medical-term] with the id that [addOrUpdateTerm]
    returned, which is null when the repository is closed, so a term that
    was not stored is reported as a success; the error reporting of the
    controller is not reached.  Without a term service the answer is in the
    hands of the elided [_createError] and [_handleError]: when they yield
    an error object, both handlers answer [success: false] with its
    message, and when they throw, the handlers throw; the state is left as
    it was. *)
Theorem term_handlers_answer `{Controller.ElidedReporting}
    (st : Controller.State) :
  (∀ s, Controller.termReplacementService st = Some s →
     (∀ t sp mo, ∃ r,
        fst (Controller.process_medical_text t sp mo st)
        = Ok (Controller.Success r)
        ∧ fst (processText t sp mo s) = Ok r)
     ∧ (∀ h c o, ∃ i,
          fst (Controller.add_medical_term h c o st) = Ok (Controller.Success i)
          ∧ fst (addOrUpdateTerm h c o s) = Ok i
          ∧ (connected (dbManager s) = false → i = None)))
  ∧ (Controller.termReplacementService st = None →
     (∀ t sp mo,
        match Controller.reported "process-text" (OtherError "Terms no disp.") with
        | Ok message =>
            Controller.process_medical_text t sp mo st
            = (Ok (Controller.Failure message), st)
        | Throw e => Controller.process_medical_text t sp mo st = (Throw e, st)
        end)
     ∧ (∀ h c o,
          match Controller.reported "add-term" (OtherError "Terms no disp.") with
          | Ok message =>
              Controller.add_medical_term h c o st
              = (Ok (Controller.Failure message), st)
          | Throw e => Controller.add_medical_term h c o st = (Throw e, st)
          end)).
Proof.
  split.
  - intros s Hs. split.
    + intros t sp mo. destruct (processText_ok t sp mo s) as [r Hr].
      exists r. split; [|done].
      unfold Controller.process_medical_text, Controller.handleWithArgs,
        Controller.on_terms. rewrite Hs.
      by destruct (processText t sp mo s) as [[r'|e] s']; simplify_eq/=.
    + intros h c o. destruct (addOrUpdateTerm_ok h c o s) as [i Hi].
      exists i. split; [|split; [done|]].
      * unfold Controller.add_medical_term, Controller.handleWithArgs,
          Controller.on_terms. rewrite Hs.
        by destruct (addOrUpdateTerm h c o s) as [[r'|e] s']; simplify_eq/=.
      * intros Hc. rewrite (addOrUpdateTerm_closed _ _ _ _ Hc) in Hi.
        by injection Hi.
  - intros Hs. split; intros;
      unfold Controller.process_medical_text, Controller.add_medical_term,
        Controller.handleWithArgs, Controller.on_terms, Controller.failure;
      rewrite Hs; by destruct (Controller.reported _ _).
Qed.
End Callers.

Lemma term_handlers_answer_witness :
  fst (@Controller.add_medical_term Runtime_arrays Elided_spec
         Controller.Reporting_as_written
         (JString "Derrame") (JString "derrame pleural") (Some default_options)
         (Controller.mkState (Some offline_service) None None))
  = Ok (Controller.Success None)
  ∧ fst (@Controller.add_medical_term Runtime_arrays Elided_spec
           Controller.Reporting_as_written
           (JString "Derrame") (JString "derrame pleural") (Some default_options)
           (Controller.mkState None None None))
    = Throw TypeError.
Proof.
  split.
  - destruct (@term_handlers_answer Runtime_arrays Elided_spec
                (@LargeText_spec Elided_spec) Controller.Reporting_as_written
                (Controller.mkState (Some offline_service) None None))
      as [Hsome _].
    destruct (Hsome offline_service eq_refl) as [_ Hadd].
    destruct (Hadd (JString "Derrame") (JString "derrame pleural")
                (Some default_options)) as (i & Hans & _ & Hnull).
    rewrite Hans. do 2 f_equal. apply Hnull. reflexivity.
  - destruct (@term_handlers_answer Runtime_arrays Elided_spec
                (@LargeText_spec Elided_spec) Controller.Reporting_as_written
                (Controller.mkState None None None))
      as [_ Hnone].
    destruct (Hnone eq_refl) as [_ Hadd].
    exact (f_equal fst (Hadd (JString "Derrame") (JString "derrame pleural")
                          (Some default_options))).
Defined.

Lemma dictationStopped_payload_witness :
  truthy
    (Controller.processed
       (fst (@Controller.dictationStopped Runtime_arrays Elided_spec
               (@LargeText_spec Elided_spec) (JString "Aorta normal.")
               (Controller.mkState (Some (loaded_service common_terms))
                  None None))))
  = true.
Proof.
  destruct (@dictationStopped_payload Runtime_arrays Elided_spec
              (@LargeText_spec Elided_spec) (JString "Aorta normal.")
              (Controller.mkState (Some (loaded_service common_terms))
                 None None)) as (_ & Htruthy & _).
  apply Htruthy. reflexivity.
Defined.

(* ================================================================== *)
(** * The templates table                                              *)
(* ================================================================== *)

Lemma name_taken_false n rows :
  Templates.name_taken n rows = false ↔ n ∉ Templates.name <$> rows.
Proof.
  unfold Templates.name_taken. induction rows as [|r rows IH]; csimpl.
  - split; [intros _; apply not_elem_of_nil|done].
  - rewrite orb_false_iff, IH, not_elem_of_cons.
    destruct (String.eqb_spec (Templates.name r) n) as [Heq|Hne].
    + split; [by intros [? _]|]. intros [Hn _]. by destruct Hn.
    + split; [by intros [_ ?]|by intros [_ ?]].
Qed.

Lemma row_of_id i d new : Templates.row_of i d = Some new → Templates.id new = i.
Proof.
  unfold Templates.row_of.
  destruct (Templates.d_name d), (Templates.d_content d); try done.
  by intros [= <-].
Qed.

Lemma replace_ids i new (rows : list Templates.Template) :
  Templates.id new = i →
  Templates.id <$> ((λ r, if bool_decide (Templates.id r = i) then new else r)
                      <$> rows)
  = Templates.id <$> rows.
Proof.
  intros Hi. induction rows as [|r rows IH]; csimpl; [done|].
  rewrite IH. case_bool_decide; congruence.
Qed.

Lemma replace_absent i new (rows : list Templates.Template) :
  i ∉ Templates.id <$> rows →
  (λ r, if bool_decide (Templates.id r = i) then new else r) <$> rows = rows.
Proof.
  induction rows as [|r rows IH]; csimpl; [done|].
  intros [Hr Hrows]%not_elem_of_cons. rewrite IH by done.
  by rewrite bool_decide_eq_false_2.
Qed.

Lemma filter_absent i (rows : list Templates.Template) :
  i ∉ Templates.id <$> rows →
  filter (λ r, Templates.id r ≠ i) rows = rows.
Proof.
  induction rows as [|r rows IH]; csimpl; [done|].
  intros [Hr Hrows]%not_elem_of_cons.
  rewrite filter_cons, decide_True by done. by rewrite IH.
Qed.

Lemma replace_names i new (rows : list Templates.Template) :
  Templates.id new = i →
  NoDup (Templates.id <$> rows) →
  NoDup (Templates.name <$> rows) →
  Templates.name new
    ∉ Templates.name <$> filter (λ r, Templates.id r ≠ i) rows →
  NoDup (Templates.name
           <$> ((λ r, if bool_decide (Templates.id r = i) then new else r)
                  <$> rows)).
Proof.
  intros Hi. induction rows as [|r rows IH]; csimpl; [constructor|].
  rewrite !NoDup_cons. intros [Hid Hids] [Hname Hnames] Hnew.
  rewrite filter_cons in Hnew.
  destruct (decide (Templates.id r = i)) as [Hr|Hr].
  - rewrite bool_decide_eq_true_2 by done.
    rewrite decide_False in Hnew by naive_solver.
    rewrite Hr in Hid. rewrite replace_absent by done.
    rewrite filter_absent in Hnew by done. done.
  - rewrite bool_decide_eq_false_2 by done.
    rewrite decide_True in Hnew by done. csimpl in Hnew.
    apply not_elem_of_cons in Hnew as [Hne Hnew].
    split; [|by apply IH].
    rewrite <- list_fmap_compose. rewrite list_elem_of_fmap.
    intros (r' & Heq & Hin). simpl in Heq.
    case_bool_decide.
    + congruence.
    + apply Hname. rewrite Heq. by apply list_elem_of_fmap_2.
Qed.

Lemma save_keyed d st : Templates.keyed st → Templates.keyed (snd (Templates.saveTemplate d st)).
Proof.
  intros [Hids Hnames Hrange Hcount]. unfold Templates.saveTemplate.
  destruct (Templates.update_id d) as [i|]; unfold Templates.guarded;
    (destruct (connected _); [|by split]).
  - case_bool_decide as Hin; [|by split].
    destruct (Templates.row_of i d) as [new|] eqn:Hnew; [|by split].
    apply row_of_id in Hnew.
    destruct (Templates.name_taken _ _) eqn:Htaken; [by split|].
    apply name_taken_false in Htaken.
    split; simpl.
    + by rewrite replace_ids.
    + by apply replace_names.
    + apply Forall_fmap. eapply Forall_impl; [exact Hrange|].
      intros r Hr. simpl. case_bool_decide; [|done].
      simpl in Hr. lia.
    + done.
  - destruct (Templates.row_of _ d) as [new|] eqn:Hnew; [|by split].
    apply row_of_id in Hnew.
    destruct (Templates.name_taken _ _) eqn:Htaken; [by split|].
    apply name_taken_false in Htaken.
    split; simpl.
    + rewrite fmap_app. apply NoDup_app. split; [done|].
      split; [|apply NoDup_singleton].
      intros x Hx ->%list_elem_of_singleton.
      apply list_elem_of_fmap in Hx as (r & Hr & Hin).
      rewrite Forall_forall in Hrange. apply Hrange in Hin. lia.
    + rewrite fmap_app. apply NoDup_app. split; [done|].
      split; [|apply NoDup_singleton].
      by intros x Hx ->%list_elem_of_singleton.
    + apply Forall_app. split.
      * eapply Forall_impl; [exact Hrange|]. intros r Hr. simpl in *. lia.
      * apply Forall_singleton. lia.
    + lia.
Qed.

Lemma delete_keyed i st : Templates.keyed st → Templates.keyed (snd (Templates.deleteTemplate i st)).
Proof.
  intros [Hids Hnames Hrange Hcount]. unfold Templates.deleteTemplate, Templates.guarded.
  destruct (connected _); [|by split].
  split; simpl.
  - refine (sublist_NoDup _ _ Hids _). apply fmap_sublist, sublist_filter.
  - refine (sublist_NoDup _ _ Hnames _). apply fmap_sublist, sublist_filter.
  - rewrite Forall_forall in Hrange |- *.
    intros r [_ Hr]%list_elem_of_filter. by apply Hrange.
  - done.
Qed.

(** X17. In every state of the templates table that the code can
    produce, the ids are pairwise different and so are the names, and
    every id is positive and not beyond the AUTOINCREMENT counter: an id
    that [saveTemplate] hands out has never been used before. *)
Theorem reachable_templates_keyed (st : Templates.Tables) :
  Templates.reachable st → Templates.keyed st.
Proof.
  induction 1 as [db|d st _ IH|i st _ IH].
  - split; simpl; [constructor|constructor|constructor|done].
  - by apply save_keyed.
  - by apply delete_keyed.
Qed.

Lemma reachable_templates_keyed_witness :
  Templates.keyed Templates.sample_tables.
Proof.
  apply (reachable_templates_keyed Templates.sample_tables).
  apply Templates.reach_save, Templates.reach_save, Templates.reach_schema.
Defined.

Lemma tables_eta (st : Templates.Tables) :
  {| Templates.manager := Templates.manager st;
     Templates.templates := Templates.templates st;
     Templates.last_id := Templates.last_id st |} = st.
Proof. by destruct st. Qed.

Lemma filter_removes_id i (rows : list Templates.Template) :
  i ∉ Templates.id <$> filter (λ r, Templates.id r ≠ i) rows.
Proof.
  intros (r & Hr & [Hne _]%list_elem_of_filter)%list_elem_of_fmap. done.
Qed.

(** X18. [deleteTemplate] on an open connection answers whether a row had
    the id; afterwards no row has it, every other row is still there, and
    deleting again answers false and changes nothing.  Deleting an id that
    no row has leaves the table as it was. *)
Theorem deleteTemplate_removes (i : Z) (st : Templates.Tables) :
  connected (Templates.manager st) = true →
  let out := Templates.deleteTemplate i st in
  fst out = Ok (bool_decide (i ∈ Templates.id <$> Templates.templates st))
  ∧ (i ∉ Templates.id <$> Templates.templates (snd out))
  ∧ (∀ r, Templates.id r ≠ i →
          (r ∈ Templates.templates (snd out) ↔ r ∈ Templates.templates st))
  ∧ Templates.deleteTemplate i (snd out) = (Ok false, snd out)
  ∧ (i ∉ Templates.id <$> Templates.templates st → snd out = st).
Proof.
  intros Hc out. subst out.
  unfold Templates.deleteTemplate, Templates.guarded. rewrite Hc. simpl.
  split; [done|]. split; [apply filter_removes_id|].
  split.
  { intros r Hr. rewrite list_elem_of_filter.
    split; [by intros [_ ?]|by intros ?]. }
  split.
  - rewrite Hc. rewrite bool_decide_eq_false_2 by apply filter_removes_id.
    by rewrite filter_absent by apply filter_removes_id.
  - intros Hi. rewrite filter_absent by done. apply tables_eta.
Qed.

Lemma deleteTemplate_removes_witness :
  fst (Templates.deleteTemplate 1 Templates.sample_tables) = Ok true
  ∧ Templates.deleteTemplate 1
      (snd (Templates.deleteTemplate 1 Templates.sample_tables))
    = (Ok false, snd (Templates.deleteTemplate 1 Templates.sample_tables)).
Proof.
  destruct (deleteTemplate_removes 1 Templates.sample_tables)
    as (Hans & _ & _ & Hagain & _); [reflexivity|].
  split; [exact Hans|exact Hagain].
Defined.

(** X19. [saveTemplate] called with an id that no row has (an id never
    handed out, or the id of a template deleted meanwhile) answers with
    that id and stores nothing, whatever the rest of the data is: the
    caller cannot tell the lost edit from an update that took place. *)
Theorem saveTemplate_unknown_id (d : Templates.TemplateData) (i : Z)
    (st : Templates.Tables) :
  connected (Templates.manager st) = true →
  Templates.d_id d = Some i → i ≠ 0 →
  (i ∉ Templates.id <$> Templates.templates st →
   Templates.saveTemplate d st = (Ok i, st))
  ∧ (let st' := snd (Templates.deleteTemplate i st) in
     Templates.saveTemplate d st' = (Ok i, st')).
Proof.
  intros Hc Hd Hi.
  assert (Hlost : ∀ st0, connected (Templates.manager st0) = true →
            i ∉ Templates.id <$> Templates.templates st0 →
            Templates.saveTemplate d st0 = (Ok i, st0)).
  { intros st0 Hc0 Hin. unfold Templates.saveTemplate, Templates.update_id.
    rewrite Hd, bool_decide_eq_false_2 by done.
    unfold Templates.guarded. rewrite Hc0.
    by rewrite bool_decide_eq_false_2. }
  split; [by apply Hlost|].
  intros st'. apply Hlost.
  - subst st'. unfold Templates.deleteTemplate, Templates.guarded.
    by rewrite Hc.
  - subst st'. unfold Templates.deleteTemplate, Templates.guarded.
    rewrite Hc. apply filter_removes_id.
Qed.

Lemma saveTemplate_unknown_id_witness :
  Templates.saveTemplate
    (Templates.mkData (Some 7) (Some "Craneo") (Some "Sin hallazgos.")
       None None None None)
    Templates.sample_tables
  = (Ok 7, Templates.sample_tables).
Proof.
  destruct (saveTemplate_unknown_id
              (Templates.mkData (Some 7) (Some "Craneo") (Some "Sin hallazgos.")
                 None None None None) 7 Templates.sample_tables)
    as [Hlost _]; [reflexivity|reflexivity|lia|].
  apply Hlost. vm_compute. intros Hin.
  repeat (apply elem_of_cons in Hin as [Hin|Hin]; [done|]).
  by apply elem_of_nil in Hin.
Defined.

Lemma name_taken_false_iff n rows :
  n ∈ Templates.name <$> rows → Templates.name_taken n rows = true.
Proof.
  intros Hin. destruct (Templates.name_taken n rows) eqn:Ht; [done|].
  by apply name_taken_false in Ht.
Qed.

Section TemplatesListing.
Context `{Runtime}.

Lemma parse_tags_row t x : Templates.parse_tags t = Ok x → Templates.row x = t.
Proof.
  unfold Templates.parse_tags. destruct (Templates.tags t) as [txt|].
  - destruct (String.eqb txt EmptyString); [by intros [= <-]|].
    destruct (JSON_parse txt); [by intros [= <-]|done].
  - by intros [= <-].
Qed.

Lemma map_res_rows l xs :
  Templates.map_res Templates.parse_tags l = Ok xs → Templates.row <$> xs = l.
Proof.
  revert xs. induction l as [|t l IH]; simpl; intros xs.
  - by intros [= <-].
  - destruct (Templates.parse_tags t) as [x|e] eqn:Hx; [|done].
    destruct (Templates.map_res _ l) as [ys|e]; [|done].
    intros [= <-]. csimpl. by rewrite (parse_tags_row _ _ Hx), (IH ys).
Qed.

Lemma getAllTemplates_rows st l :
  fst (Templates.getAllTemplates st) = Ok l →
  Templates.row <$> l ≡ₚ Templates.templates st.
Proof.
  unfold Templates.getAllTemplates, Templates.guarded.
  destruct (connected _); [|done]. simpl.
  intros Hl%map_res_rows. rewrite Hl. apply stable_sort_perm.
Qed.

(** X20. Storing a new template (no id given, name and content bound) on
    an open connection: when a row has the name already, the call throws
    and the table is as it was; otherwise a row with a fresh id, the next
    of the counter, is added and the id returned, the table keeps its keys,
    and a listing that completes afterwards shows the old rows and the new
    one, each once. *)
Theorem saveTemplate_insert_listed (d : Templates.TemplateData)
    (n c : string) (st : Templates.Tables) :
  Templates.keyed st →
  connected (Templates.manager st) = true →
  Templates.update_id d = None →
  Templates.d_name d = Some n → Templates.d_content d = Some c →
  let out := Templates.saveTemplate d st in
  (n ∈ Templates.name <$> Templates.templates st →
   out = (Throw DatabaseError, st))
  ∧ (n ∉ Templates.name <$> Templates.templates st →
     ∃ new,
       Templates.row_of (Templates.last_id st + 1) d = Some new
       ∧ fst out = Ok (Templates.last_id st + 1)
       ∧ (Templates.last_id st + 1 ∉ Templates.id <$> Templates.templates st)
       ∧ Templates.templates (snd out) = Templates.templates st ++ [new]
       ∧ Templates.keyed (snd out)
       ∧ ∀ l, fst (Templates.getAllTemplates (snd out)) = Ok l →
              Templates.row <$> l ≡ₚ new :: Templates.templates st).
Proof.
  intros Hk Hc Hu Hn Hcont out. subst out.
  pose proof (save_keyed d st Hk) as Hk'.
  unfold Templates.saveTemplate in *. rewrite Hu in *.
  unfold Templates.guarded in *. rewrite Hc in *.
  unfold Templates.row_of in *. rewrite Hn, Hcont in *. cbn [Templates.name] in *.
  split.
  - intros Hin. apply name_taken_false_iff in Hin. by rewrite Hin.
  - intros Hnin. pose proof Hnin as Ht. apply name_taken_false in Ht.
    rewrite Ht in *. eexists. split; [done|]. split; [done|].
    split.
    { intros (r & Hr & Hin)%list_elem_of_fmap.
      destruct Hk as [_ _ Hrange _]. rewrite Forall_forall in Hrange.
      apply Hrange in Hin. lia. }
    split; [done|]. split; [exact Hk'|].
    intros l Hl%getAllTemplates_rows. rewrite Hl. simpl.
    by rewrite Permutation_app_comm.
Qed.
End TemplatesListing.

Lemma keyed_schema db : Templates.keyed (Templates.mkTables db [] 0).
Proof. split; simpl; [constructor|constructor|constructor|done]. Qed.

Lemma saveTemplate_insert_listed_witness :
  fst (Templates.saveTemplate
         (Templates.mkData None (Some "Craneo") (Some "Sin hallazgos.")
            None None None None)
         Templates.sample_tables) = Ok 3
  ∧ Templates.saveTemplate Templates.data_torax Templates.sample_tables
    = (Throw DatabaseError, Templates.sample_tables).
Proof.
  assert (Hk : Templates.keyed Templates.sample_tables)
    by apply save_keyed, save_keyed, keyed_schema.
  split.
  - destruct (@saveTemplate_insert_listed Runtime_arrays
                (Templates.mkData None (Some "Craneo") (Some "Sin hallazgos.")
                   None None None None)
                "Craneo" "Sin hallazgos." Templates.sample_tables)
      as [_ Hnew]; [exact Hk|reflexivity..|].
    destruct Hnew as (new & _ & Hid & _).
    + vm_compute. intros Hin.
      repeat (apply elem_of_cons in Hin as [Hin|Hin]; [done|]).
      by apply elem_of_nil in Hin.
    + exact Hid.
  - destruct (@saveTemplate_insert_listed Runtime_arrays Templates.data_torax
                "Torax normal" "Sin hallazgos." Templates.sample_tables)
      as [Hdup _]; [exact Hk|reflexivity..|].
    apply Hdup. vm_compute. apply list_elem_of_here.
Defined.

Lemma replace_elem_of i new (rows : list Templates.Template) r :
  Templates.id new = i →
  r ∈ (λ r, if bool_decide (Templates.id r = i) then new else r) <$> rows
  ↔ (r = new ∧ i ∈ Templates.id <$> rows)
    ∨ (r ∈ rows ∧ Templates.id r ≠ i).
Proof.
  intros Hi. rewrite list_elem_of_fmap. split.
  - intros (r0 & -> & Hin). case_bool_decide as Hr.
    + left. split; [done|]. rewrite <- Hr. by apply list_elem_of_fmap_2.
    + by right.
  - intros [[-> (r0 & Hr0 & Hin)%list_elem_of_fmap]|[Hin Hr]].
    + exists r0. by rewrite bool_decide_eq_true_2.
    + exists r. by rewrite bool_decide_eq_false_2.
Qed.

(** X21. Editing a stored template (the id of a row given, name and
    content bound) on an open connection: when another row has the new
    name, the call throws and the table is as it was; otherwise the id is
    returned, the row with that id is now the edited one, every other row
    is as it was, and no row is added or lost.  With name or content
    missing the call throws and the table is as it was. *)
Theorem saveTemplate_update (d : Templates.TemplateData) (i : Z)
    (st : Templates.Tables) :
  connected (Templates.manager st) = true →
  Templates.d_id d = Some i → i ≠ 0 →
  i ∈ Templates.id <$> Templates.templates st →
  let out := Templates.saveTemplate d st in
  let others := filter (λ r, Templates.id r ≠ i) (Templates.templates st) in
  match Templates.row_of i d with
  | None => out = (Throw DatabaseError, st)
  | Some new =>
      (Templates.name new ∈ Templates.name <$> others →
       out = (Throw DatabaseError, st))
      ∧ (Templates.name new ∉ Templates.name <$> others →
         fst out = Ok i
         ∧ (∀ r, r ∈ Templates.templates (snd out)
                 ↔ r = new ∨ r ∈ others)
         ∧ Templates.id <$> Templates.templates (snd out)
           = Templates.id <$> Templates.templates st
         ∧ Templates.last_id (snd out) = Templates.last_id st)
  end.
Proof.
  intros Hc Hd Hi Hin out others. subst out others.
  unfold Templates.saveTemplate, Templates.update_id.
  rewrite Hd, bool_decide_eq_false_2 by done.
  unfold Templates.guarded. rewrite Hc, bool_decide_eq_true_2 by done.
  destruct (Templates.row_of i d) as [new|] eqn:Hnew; [|done].
  apply row_of_id in Hnew. split.
  - intros Ht%name_taken_false_iff. by rewrite Ht.
  - intros Ht%name_taken_false. rewrite Ht. simpl.
    split; [done|]. split; [|split; [by apply replace_ids|done]].
    intros r. rewrite (replace_elem_of _ _ _ _ Hnew), list_elem_of_filter.
    split.
    + intros [[-> _]|[? ?]]; [by left|by right].
    + intros [->|[? ?]]; [by left|by right].
Qed.

Lemma saveTemplate_update_witness :
  fst (Templates.saveTemplate
         (Templates.mkData (Some 1) (Some "Torax") (Some "Sin hallazgos.")
            None None None None)
         Templates.sample_tables) = Ok 1
  ∧ Templates.saveTemplate
      (Templates.mkData (Some 1) (Some "Abdomen normal") (Some "Sin hallazgos.")
         None None None None)
      Templates.sample_tables
    = (Throw DatabaseError, Templates.sample_tables).
Proof.
  split.
  - pose proof (saveTemplate_update
                  (Templates.mkData (Some 1) (Some "Torax")
                     (Some "Sin hallazgos.") None None None None)
                  1 Templates.sample_tables) as Hup.
    destruct Hup as [_ Hok];
      [reflexivity|reflexivity|lia|vm_compute; apply list_elem_of_here|].
    apply Hok. vm_compute. intros Hin.
    repeat (apply elem_of_cons in Hin as [Hin|Hin]; [done|]).
    by apply elem_of_nil in Hin.
  - pose proof (saveTemplate_update
                  (Templates.mkData (Some 1) (Some "Abdomen normal")
                     (Some "Sin hallazgos.") None None None None)
                  1 Templates.sample_tables) as Hup.
    destruct Hup as [Hdup _];
      [reflexivity|reflexivity|lia|vm_compute; apply list_elem_of_here|].
    apply Hdup. vm_compute. apply list_elem_of_here.
Defined.

(* ================================================================== *)
(** * The memory monitor over two ticks                                *)
(* ================================================================== *)

Section MonitorTicks.
Context `{Runtime} `{Elided}.

Lemma checkMemoryUsage_heap_branch s :
  heap_high (memoryUsage s)
  && (cacheLimit s <? 2 * length (cachedTerms s))%nat = true →
  cachedTerms (snd (_checkMemoryUsage s))
  = take (cacheLimit s / 2) (stable_sort by_frequency_desc (cachedTerms s)).
Proof.
  intros Hheap. unfold _checkMemoryUsage, try_catch. rewrite Hheap.
  apply andb_prop in Hheap as [_ Hlen%Nat.ltb_lt].
  assert (Hk : (cacheLimit s / 2 < length (cachedTerms s))%nat).
  { apply Nat.Div0.div_lt_upper_bound. lia. }
  unfold bind.
  pose proof (reduce_cachedTerms _ _ Hk) as Hred.
  destruct (_reduceCacheSize _ s) as [[[]|e] s1]; cbn [fst snd] in *;
    [|done].
  pose proof (flush_and_forget_keeps cachedTerms (λ _ _ _, eq_refl) s1) as Hf.
  destruct (flush_and_forget s1) as [[[]|e] s2]; unfold ret;
    cbn [fst snd] in *; by rewrite Hf.
Qed.

(** X22. Two ticks of the memory monitor under the same memory reading,
    heap above 85 % and resident memory above 500 MB, on a cache above half
    its limit: the first tick keeps the [floor(cacheLimit / 2)] most
    frequent terms, and the second, finding the cache no longer above half
    the limit, clears it altogether.  The heap course is never taken twice
    in a row. *)
Theorem checkMemoryUsage_two_ticks (s : Service) :
  heap_high (memoryUsage s) = true →
  (cacheLimit s < 2 * length (cachedTerms s))%nat →
  let s1 := snd (_checkMemoryUsage s) in
  let s2 := snd (_checkMemoryUsage s1) in
  cachedTerms s1
  = take (cacheLimit s / 2) (stable_sort by_frequency_desc (cachedTerms s))
  ∧ heap_high (memoryUsage s1)
    && (cacheLimit s1 <? 2 * length (cachedTerms s1))%nat = false
  ∧ (500 < rssMemoryMB (memoryUsage s) →
     cachedTerms s2 = [] ∧ indices s2 = empty_indices)
  ∧ (rssMemoryMB (memoryUsage s) ≤ 500 → s2 = s1).
Proof.
  intros Hheap Hlen s1 s2.
  assert (Hcache : cachedTerms s1
            = take (cacheLimit s / 2)
                (stable_sort by_frequency_desc (cachedTerms s))).
  { apply checkMemoryUsage_heap_branch. rewrite Hheap. simpl.
    by apply Nat.ltb_lt. }
  assert (Hlim : cacheLimit s1 = cacheLimit s)
    by (subst s1; by rewrite (checkMemoryUsage_keeps cacheLimit)).
  assert (Hmem : memoryUsage s1 = memoryUsage s)
    by (subst s1; by rewrite (checkMemoryUsage_keeps memoryUsage)).
  assert (Hoff : heap_high (memoryUsage s1)
                 && (cacheLimit s1 <? 2 * length (cachedTerms s1))%nat = false).
  { rewrite Hmem, Hheap, Hlim, Hcache, length_take. cbn [andb].
    apply Nat.ltb_ge.
    pose proof (Nat.Div0.mul_div_le (cacheLimit s) 2) as Hhalf.
    pose proof (Nat.le_min_l (cacheLimit s / 2)
                  (length (stable_sort by_frequency_desc (cachedTerms s)))).
    etrans; [|exact Hhalf]. by apply Nat.mul_le_mono_l. }
  split; [done|]. split; [done|].
  assert (Htick : _checkMemoryUsage s1
            = if 500 <? rssMemoryMB (memoryUsage s) then clearCache s1
              else (Ok (), s1)).
  { unfold _checkMemoryUsage at 1, try_catch. rewrite Hoff, Hmem.
    by destruct (500 <? _). }
  subst s2. rewrite Htick. split.
  - intros Hrss. apply Z.ltb_lt in Hrss. by rewrite Hrss.
  - intros Hrss. apply Z.ltb_ge in Hrss. by rewrite Hrss.
Qed.
End MonitorTicks.

Lemma checkMemoryUsage_two_ticks_witness :
  let s1 := snd (@_checkMemoryUsage Runtime_arrays Elided_spec pressured_service) in
  let s2 := snd (@_checkMemoryUsage Runtime_arrays Elided_spec s1) in
  cachedTerms s1
  = [sample_term 2 "aorta" "aorta" 10; sample_term 1 "bazo" "bazo" 8]
  ∧ cachedTerms s2 = [].
Proof.
  intros s1 s2.
  destruct (@checkMemoryUsage_two_ticks Runtime_arrays Elided_spec
              pressured_service) as (Hfirst & _ & Hsecond & _).
  - reflexivity.
  - vm_compute. lia.
  - split; [exact Hfirst|]. apply Hsecond. vm_compute. reflexivity.
Defined.
